(** * Seq2Seq with attention: a shallow embedding of [src/model.py]

    The model of the repository (encoder, attention, decoder and the two
    decoding strategies of [Seq2Seq]) is embedded as functions on nested
    lists of real numbers.  A tensor of rank n is a list nested n times,
    batch-major as in the source ([batch_first=True]).  Token indices are
    integers ([Z]).  The exceptions that the source can raise through the
    tensor library are explicit: computations that can raise return a
    [result].

    Tensor entries are real numbers ([R]): the arithmetic of the layers is
    the exact one, rounding is not modelled.  The operations of the tensor
    library (embedding, linear layer, LSTM, [bmm], [softmax], [log_softmax],
    [max], [cat]) follow their documented meaning.  They are total on nested
    lists and cut operands of unequal length to the shorter one; where the
    library would reject operands of incompatible shapes the theorems assume
    the shapes that the constructors of [model.py] establish. *)

From Stdlib Require Import Reals List ZArith Lia Lra Bool PeanoNat.
Import ListNotations.

Open Scope R_scope.

(** ** Exceptions and the error monad *)

Inductive exception : Type :=
| IndexError     (* index out of range in an embedding lookup *)
| RuntimeError.  (* tensor-library failure: empty list given to cat, empty sequence given to an LSTM *)

Inductive result (A : Type) : Type :=
| Ok (a : A)
| Raise (e : exception).
Arguments Ok {A} a.
Arguments Raise {A} e.

Definition bind {A B : Type} (m : result A) (k : A -> result B) : result B :=
  match m with
  | Ok a => k a
  | Raise e => Raise e
  end.

Notation "x <- m ;; k" := (bind m (fun x => k))
  (at level 61, m at next level, right associativity).
Notation "' pat <- m ;; k" := (bind m (fun x => match x with pat => k end))
  (at level 61, pat pattern, m at next level, right associativity).

Fixpoint mapM {A B : Type} (f : A -> result B) (l : list A) : result (list B) :=
  match l with
  | [] => Ok []
  | a :: l' => b <- f a ;; bs <- mapM f l' ;; Ok (b :: bs)
  end.

(** ** Tensors *)

Definition vector := list R.
Definition matrix := list vector.
Definition tensor3 := list matrix.
Definition index_tensor := list (list Z).

Fixpoint zipWith {A B C : Type} (f : A -> B -> C) (l1 : list A) (l2 : list B) : list C :=
  match l1, l2 with
  | a :: l1', b :: l2' => f a b :: zipWith f l1' l2'
  | _, _ => []
  end.

(** [t.size(1)] of a tensor of rank at least 2 with a non-empty first axis. *)
Definition size1 {A : Type} (t : list (list A)) : nat :=
  match t with
  | [] => 0
  | r :: _ => length r
  end.

(** [t.unsqueeze(1)] on rank 2 and [t.squeeze(1)] on rank 3 with a singleton axis 1. *)
Definition unsqueeze1 {A : Type} (t : list A) : list (list A) := map (fun x => [x]) t.
Definition squeeze1 (t : tensor3) : matrix := map (fun m => nth 0 m []) t.
(** [t.unsqueeze(0)]. *)
Definition unsqueeze0 {A : Type} (t : A) : list A := [t].

(** [t[:, step, :]] on rank 3. *)
Definition select1 (step : nat) (t : tensor3) : matrix := map (fun m => nth step m []) t.

(** [t[:, -1:]] and [t[:, -1:, :]]: the last position of axis 1, axis kept. *)
Definition last_slice {A : Type} (t : list (list A)) : list (list A) :=
  map (fun r => skipn (length r - 1) r) t.

(** [t.narrow(1, 1, t.size(1) - 1)]: everything but position 0 of axis 1. *)
Definition narrow_tail {A : Type} (t : list (list A)) : list (list A) := map (skipn 1) t.

Definition vadd (u v : vector) : vector := zipWith Rplus u v.
Definition vmul (u v : vector) : vector := zipWith Rmult u v.
Definition vscale (a : R) (v : vector) : vector := map (Rmult a) v.
Definition vsum (v : vector) : R := fold_right Rplus 0 v.
Definition dot (u v : vector) : R := vsum (vmul u v).

(** [m.transpose(0, 1)] of a matrix given as its list of rows. *)
Fixpoint transpose (m : matrix) : matrix :=
  match m with
  | [] => []
  | r :: m' =>
      match m' with
      | [] => map (fun x => [x]) r
      | _ :: _ => zipWith cons r (transpose m')
      end
  end.

(** Row [a] times matrix [b]: the combination of the rows of [b] with the
    coefficients of [a]. *)
Definition row_times (a : vector) (b : matrix) : vector :=
  fold_right (fun ar acc => vadd (vscale (fst ar) (snd ar)) acc)
             (repeat 0 (size1 b)) (combine a b).

Definition matmul (a b : matrix) : matrix := map (fun r => row_times r b) a.

(** [torch.bmm]. *)
Definition bmm (a b : tensor3) : tensor3 := zipWith matmul a b.

(** [t.sum(0)] on rank 3: the sum of the matrices along axis 0. *)
Definition sum0 (t : tensor3) : matrix :=
  match t with
  | [] => []
  | m :: t' => fold_left (zipWith vadd) t' m
  end.

(** [softmax(t, dim=1)] on rank 3: within each batch item the entries are
    normalised along axis 1, that is down each column of the matrix. *)
Definition column_sums (m : matrix) : vector :=
  match m with
  | [] => []
  | r :: m' => fold_left vadd m' r
  end.

Definition softmax_columns (m : matrix) : matrix :=
  let e := map (map exp) m in
  map (fun r => zipWith Rdiv r (column_sums e)) e.

Definition softmax_dim1 (t : tensor3) : tensor3 := map softmax_columns t.

(** [log_softmax(t, dim=2)] on rank 3: along the innermost axis. *)
Definition log_softmax_vec (v : vector) : vector :=
  map (fun x => x - ln (vsum (map exp v))) v.

Definition log_softmax_dim2 (t : tensor3) : tensor3 := map (map log_softmax_vec) t.

(** [t.max(dim=2)] returns the values and the indices of the first maximum
    along the innermost axis; only the indices are used by the source. *)
Fixpoint argmax_from (best_i : nat) (best : R) (i : nat) (v : vector) : nat :=
  match v with
  | [] => best_i
  | x :: v' =>
      if Rlt_dec best x then argmax_from i x (S i) v'
      else argmax_from best_i best (S i) v'
  end.

Definition argmax (v : vector) : nat :=
  match v with
  | [] => 0%nat
  | x :: v' => argmax_from 0 x 1 v'
  end.

Definition argmax_dim2 (t : tensor3) : index_tensor :=
  map (map (fun v => Z.of_nat (argmax v))) t.

(** [torch.cat(ts, dim=1)] on a Python list of rank-3 (or rank-2) tensors;
    an empty list raises. *)
Definition cat1 {A : Type} (ts : list (list (list A))) : result (list (list A)) :=
  match ts with
  | [] => Raise RuntimeError
  | t :: ts' => Ok (fold_left (zipWith (@app A)) ts' t)
  end.

Definition sigmoid (x : R) : R := 1 / (1 + exp (- x)).

(** ** Layers of the tensor library *)

Module Embedding.
Record t : Type := { weight : matrix }.

Definition lookup (self : t) (i : Z) : result vector :=
  if (i <? 0)%Z then Raise IndexError
  else match nth_error (weight self) (Z.to_nat i) with
       | Some v => Ok v
       | None => Raise IndexError
       end.

Definition forward (self : t) (inputs : index_tensor) : result tensor3 :=
  mapM (mapM (lookup self)) inputs.
End Embedding.

Module Linear.
Record t : Type := { weight : matrix; bias : option vector }.

Definition apply (self : t) (x : vector) : vector :=
  let y := map (fun w => dot x w) (weight self) in
  match bias self with
  | Some b => vadd y b
  | None => y
  end.

Definition forward2 (self : t) (x : matrix) : matrix := map (apply self) x.
Definition forward3 (self : t) (x : tensor3) : tensor3 := map (map (apply self)) x.
End Linear.

Definition hidden_pair : Type := tensor3 * tensor3.

Module LSTM.
(** The weights of one direction of one layer; the rows of the four
    gates are stacked in the order input, forget, cell, output. *)
Record weights : Type :=
  { weight_ih : matrix; weight_hh : matrix; bias_ih : vector; bias_hh : vector }.

Record t : Type :=
  { hidden_size : nat;
    l0 : weights;
    l0_reverse : option weights  (* present when [bidirectional=True] *) }.

Definition chunk (H k : nat) (v : vector) : vector := firstn H (skipn (k * H) v).

Definition cell (H : nat) (w : weights) (x : vector) (hc : vector * vector)
  : vector * vector :=
  let '(h, c) := hc in
  let gates :=
    vadd (vadd (map (fun r => dot x r) (weight_ih w)) (bias_ih w))
         (vadd (map (fun r => dot h r) (weight_hh w)) (bias_hh w)) in
  let i := map sigmoid (chunk H 0 gates) in
  let f := map sigmoid (chunk H 1 gates) in
  let g := map tanh (chunk H 2 gates) in
  let o := map sigmoid (chunk H 3 gates) in
  let c' := vadd (vmul f c) (vmul i g) in
  (vmul o (map tanh c'), c').

(** One sequence through one direction: the outputs of all steps and the
    last state. *)
Fixpoint run (H : nat) (w : weights) (xs : list vector) (hc : vector * vector)
  : list vector * (vector * vector) :=
  match xs with
  | [] => ([], hc)
  | x :: xs' =>
      let hc' := cell H w x hc in
      let '(ys, last) := run H w xs' hc' in
      (fst hc' :: ys, last)
  end.

Definition run_reverse (H : nat) (w : weights) (xs : list vector) (hc : vector * vector)
  : list vector * (vector * vector) :=
  let '(ys, last) := run H w (rev xs) hc in (rev ys, last).

Definition zeros (B H : nat) : matrix := repeat (repeat 0 H) B.

(** [LSTM.forward(input, hx)] with [batch_first=True]; [hx = None] stands
    for the zero state.  An empty sequence is rejected by the library. *)
Definition forward (self : t) (input : tensor3) (hx : option hidden_pair)
  : result (tensor3 * hidden_pair) :=
  if (size1 input =? 0)%nat then Raise RuntimeError
  else
    let H := hidden_size self in
    let B := length input in
    let init (layer : nat) : list (vector * vector) :=
      match hx with
      | Some (h0, c0) => combine (nth layer h0 []) (nth layer c0 [])
      | None => combine (zeros B H) (zeros B H)
      end in
    let fw := zipWith (run H (l0 self)) input (init 0%nat) in
    match l0_reverse self with
    | None =>
        Ok (map fst fw,
            ([map (fun r => fst (snd r)) fw], [map (fun r => snd (snd r)) fw]))
    | Some wr =>
        let bw := zipWith (run_reverse H wr) input (init 1%nat) in
        Ok (zipWith (zipWith (@app R)) (map fst fw) (map fst bw),
            ([map (fun r => fst (snd r)) fw; map (fun r => fst (snd r)) bw],
             [map (fun r => snd (snd r)) fw; map (fun r => snd (snd r)) bw]))
    end.
End LSTM.

(** ** The modules of [model.py] *)

Module Attention.
Record t : Type :=
  { attn_layer : Linear.t;      (* hidden_size -> 2 * hidden_size, no bias *)
    combine_layer : Linear.t    (* 3 * hidden_size -> hidden_size *) }.

(** The attention scores and weights of [forward], as intermediate values. *)
Definition attn_scores (self : t) (last_hidden : hidden_pair) (encoder_outputs : tensor3)
  : tensor3 :=
  let last_hidden := unsqueeze1 (last (fst last_hidden) []) in
  let last_hidden := Linear.forward3 (attn_layer self) last_hidden in
  let encoder_outputs_t := map transpose encoder_outputs in
  bmm last_hidden encoder_outputs_t.

Definition attn_weights (self : t) (last_hidden : hidden_pair) (encoder_outputs : tensor3)
  : tensor3 :=
  softmax_dim1 (attn_scores self last_hidden encoder_outputs).

Definition attention_applied (self : t) (last_hidden : hidden_pair)
           (encoder_outputs : tensor3) : tensor3 :=
  bmm (attn_weights self last_hidden encoder_outputs) encoder_outputs.

Definition forward (self : t) (decoder_output : tensor3) (last_hidden : hidden_pair)
           (encoder_outputs : tensor3) : tensor3 * tensor3 :=
  let attn_weights := attn_weights self last_hidden encoder_outputs in
  let attention_applied := bmm attn_weights encoder_outputs in
  let merged :=
    zipWith (@app R) (squeeze1 decoder_output) (squeeze1 attention_applied) in
  let output :=
    map (map (map tanh)) (unsqueeze1 (Linear.forward2 (combine_layer self) merged)) in
  (output, attn_weights).
End Attention.

Module Encoder.
Record t : Type :=
  { embedding_layer : Embedding.t;
    recurrent_layer : LSTM.t   (* bidirectional, one layer *) }.

Definition forward (self : t) (inputs : index_tensor) : result (tensor3 * hidden_pair) :=
  embedded_inputs <- Embedding.forward (embedding_layer self) inputs ;;
  '(encoder_outputs, hidden_states) <-
    LSTM.forward (recurrent_layer self) embedded_inputs None ;;
  let hidden_states :=
    (unsqueeze0 (sum0 (fst hidden_states)), unsqueeze0 (sum0 (snd hidden_states))) in
  Ok (encoder_outputs, hidden_states).
End Encoder.

Module Decoder.
Record t : Type :=
  { embedding_layer : Embedding.t;
    recurrent_layer : LSTM.t;   (* unidirectional, one layer *)
    output_layer : Linear.t;
    attention_layer : Attention.t }.

(** The body of the loop over the positions of the input sequence,
    threaded through the remaining positions. *)
Fixpoint steps (self : t) (encoder_outputs embedded_inputs : tensor3)
         (positions : list nat) (outputs : list tensor3) (hidden_state : hidden_pair)
  : result (list tensor3 * hidden_pair) :=
  match positions with
  | [] => Ok (outputs, hidden_state)
  | step :: positions' =>
      '(step_output, hidden_state) <-
        LSTM.forward (recurrent_layer self)
                     (unsqueeze1 (select1 step embedded_inputs)) (Some hidden_state) ;;
      let '(step_output, _) :=
        Attention.forward (attention_layer self) step_output hidden_state encoder_outputs in
      steps self encoder_outputs embedded_inputs positions'
            (outputs ++ [step_output]) hidden_state
  end.

Definition forward (self : t) (inputs : index_tensor) (encoder_outputs : tensor3)
           (hidden_state : hidden_pair) : result (tensor3 * hidden_pair) :=
  let sequence_len := size1 inputs in
  embedded_inputs <- Embedding.forward (embedding_layer self) inputs ;;
  '(outputs, hidden_state) <-
    steps self encoder_outputs embedded_inputs (seq 0 sequence_len) [] hidden_state ;;
  outputs <- cat1 outputs ;;
  let logits := Linear.forward3 (output_layer self) outputs in
  Ok (logits, hidden_state).
End Decoder.

Module Seq2Seq.
Record t : Type :=
  { encoder : Encoder.t;
    decoder : Decoder.t;
    START_INDEX : Z;
    END_INDEX : Z;
    training : bool   (* the mode flag of [Module]: [train()] / [eval()] *) }.

(** The variables that the loop of [decode_greedy] updates. *)
Record loop_state : Type :=
  { preds : index_tensor;
    scores : list tensor3;
    hidden : hidden_pair }.

Definition count_true (l : list bool) : nat := length (filter (fun b => b) l).

(** [((preds == END_INDEX).sum(dim=1) > 0).sum().item() == batch_size] *)
Definition all_finished (self : t) (preds : index_tensor) (batch_size : nat) : bool :=
  let hits := map (fun r => count_true (map (Z.eqb (END_INDEX self)) r)) preds in
  (count_true (map (fun n => (0 <? n)%nat) hits) =? batch_size)%nat.

(** One iteration of the loop, up to the test for [break]. *)
Definition greedy_step (self : t) (encoder_outputs : tensor3) (st : loop_state)
  : result loop_state :=
  '(step_output, hidden_state) <-
    Decoder.forward (decoder self) (last_slice (preds st)) encoder_outputs (hidden st) ;;
  let step_output := last_slice step_output in
  let step_scores := log_softmax_dim2 step_output in
  let step_preds := argmax_dim2 step_scores in
  Ok {| preds := zipWith (@app Z) (preds st) step_preds;
        scores := scores st ++ [step_scores];
        hidden := hidden_state |}.

(** [for _ in range(n): ...] with its [break]. *)
Fixpoint greedy_loop (self : t) (encoder_outputs : tensor3) (batch_size : nat)
         (n : nat) (st : loop_state) : result loop_state :=
  match n with
  | O => Ok st
  | S n' =>
      st' <- greedy_step self encoder_outputs st ;;
      if all_finished self (preds st') batch_size && negb (training self)
      then Ok st'
      else greedy_loop self encoder_outputs batch_size n' st'
  end.

Definition greedy_init (self : t) (encoder_outputs : tensor3)
           (encoder_hidden : hidden_pair) : loop_state :=
  let batch_size := length encoder_outputs in
  {| preds := repeat [START_INDEX self] batch_size;
     scores := [];
     hidden := encoder_hidden |}.

(** The state in which the loop of [decode_greedy] ends; the number of
    decoder steps performed is the length of its [scores]. *)
Definition decode_greedy_loop (self : t) (encoder_outputs : tensor3)
           (encoder_hidden : hidden_pair) (max_len : Z) : result loop_state :=
  greedy_loop self encoder_outputs (length encoder_outputs) (Z.to_nat max_len)
              (greedy_init self encoder_outputs encoder_hidden).

Definition decode_greedy (self : t) (encoder_outputs : tensor3)
           (encoder_hidden : hidden_pair) (max_len : Z)
  : result (tensor3 * index_tensor) :=
  st <- decode_greedy_loop self encoder_outputs encoder_hidden max_len ;;
  scores <- cat1 (scores st) ;;
  let preds := narrow_tail (preds st) in
  Ok (scores, preds).

Definition decode_forced (self : t) (targets : index_tensor) (encoder_outputs : tensor3)
           (encoder_hidden : hidden_pair) : result (tensor3 * index_tensor) :=
  '(logits, _) <- Decoder.forward (decoder self) targets encoder_outputs encoder_hidden ;;
  let scores := log_softmax_dim2 logits in
  let preds := argmax_dim2 logits in
  Ok (scores, preds).

Definition forward (self : t) (inputs : index_tensor) (targets : option index_tensor)
           (max_len : Z) : result (tensor3 * index_tensor) :=
  '(encoder_outputs, encoder_hidden) <- Encoder.forward (encoder self) inputs ;;
  match targets with
  | None => decode_greedy self encoder_outputs encoder_hidden max_len
  | Some targets => decode_forced self targets encoder_outputs encoder_hidden
  end.
End Seq2Seq.

(** * Vocabulary of the properties *)

(** ** Shapes *)

Definition shape2 {A : Type} (t : list (list A)) (d0 d1 : nat) : Prop :=
  length t = d0 /\ Forall (fun r => length r = d1) t.

Definition shape3 (t : tensor3) (d0 d1 d2 : nat) : Prop :=
  length t = d0 /\ Forall (fun m => shape2 m d1 d2) t.

(** The token indices of [t] are valid for a vocabulary of [V] entries. *)
Definition in_range (V : nat) (t : index_tensor) : Prop :=
  Forall (Forall (fun i => (0 <= i < Z.of_nat V)%Z)) t.

(** Some token index of [t] is negative or not below [V]. *)
Definition out_of_range (V : nat) (t : index_tensor) : Prop :=
  Exists (Exists (fun i => (i < 0)%Z \/ (Z.of_nat V <= i)%Z)) t.

(** Both components of a recurrent state hold [B] batch rows in layer 0. *)
Definition state_batch (hs : hidden_pair) (B : nat) : Prop :=
  length (nth 0 (fst hs) []) = B /\ length (nth 0 (snd hs) []) = B.

(** The sum of the rows of a matrix: for the encoder outputs of one batch
    item, the unweighted sum over all source positions. *)
Definition sum_positions (m : matrix) : vector :=
  fold_right vadd (repeat 0 (size1 m)) m.

(** ** Well-formed parameters

    The constructors of [model.py] size every layer from [embedding_size],
    [hidden_size] and the vocabulary sizes; these predicates state the part
    of that sizing which the properties below rely on. *)

(** The four gates of an LSTM direction have [H] rows each. *)
Definition wf_weights (H : nat) (w : LSTM.weights) : Prop :=
  length (LSTM.weight_ih w) = (4 * H)%nat /\
  length (LSTM.weight_hh w) = (4 * H)%nat /\
  length (LSTM.bias_ih w) = (4 * H)%nat /\
  length (LSTM.bias_hh w) = (4 * H)%nat.

(** [Encoder(input_size, hidden_size=H, vocab_size=V)]. *)
Definition wf_encoder (V H : nat) (self : Encoder.t) : Prop :=
  length (Embedding.weight (Encoder.embedding_layer self)) = V /\
  LSTM.hidden_size (Encoder.recurrent_layer self) = H /\
  wf_weights H (LSTM.l0 (Encoder.recurrent_layer self)) /\
  exists wr, LSTM.l0_reverse (Encoder.recurrent_layer self) = Some wr /\ wf_weights H wr.

(** [Linear(in_features, out_features=n)]: [n] rows of weights and, when
    there is a bias, [n] entries of bias. *)
Definition wf_linear (n : nat) (self : Linear.t) : Prop :=
  length (Linear.weight self) = n /\
  match Linear.bias self with
  | Some b => length b = n
  | None => True
  end.

(** [Decoder(input_size, hidden_size, vocab_size=V)]: the embedding table
    and the output layer have [V] rows and the recurrent layer has one
    direction. *)
Definition wf_decoder (V : nat) (self : Decoder.t) : Prop :=
  length (Embedding.weight (Decoder.embedding_layer self)) = V /\
  LSTM.l0_reverse (Decoder.recurrent_layer self) = None /\
  wf_linear V (Decoder.output_layer self).

(** What one direction of the recurrent layer yields for a sequence of
    length [L]: [L] outputs of width [H] and a last state of width [H]. *)
Definition direction_ok (L H : nat) (r : list vector * (vector * vector)) : Prop :=
  length (fst r) = L /\ Forall (fun y => length y = H) (fst r) /\
  length (fst (snd r)) = H /\ length (snd (snd r)) = H.

(** The vocabulary sizes given to the constructor are the numbers of rows
    of the two embedding tables. *)
Definition source_vocab_size (self : Seq2Seq.t) : nat :=
  length (Embedding.weight (Encoder.embedding_layer (Seq2Seq.encoder self))).

Definition target_vocab_size (self : Seq2Seq.t) : nat :=
  length (Embedding.weight (Decoder.embedding_layer (Seq2Seq.decoder self))).

(** The number of decoder steps that a run of the greedy loop performed:
    every iteration appends one entry to [scores]. *)
Definition steps_performed (st : Seq2Seq.loop_state) : nat :=
  length (Seq2Seq.scores st).

(** ** The invariant of the greedy loop *)

(** The scores accumulated so far, concatenated along the step axis as
    [torch.cat(scores, 1)] does after the loop; with no scores yet, [B]
    empty rows. *)
Definition cat_so_far (B : nat) (scores : list tensor3) : tensor3 :=
  fold_left (zipWith (@app vector)) scores (repeat [] B).

(** Between iterations: every accumulated score tensor has shape (B, 1, V),
    the predictions are the start token followed by the argmax of every
    accumulated score row, and the recurrent state keeps its batch size. *)
Definition greedy_inv (self : Seq2Seq.t) (V B : nat) (st : Seq2Seq.loop_state) : Prop :=
  Forall (fun s => shape3 s B 1 V) (Seq2Seq.scores st) /\
  Seq2Seq.preds st
  = map (cons (Seq2Seq.START_INDEX self))
        (argmax_dim2 (cat_so_far B (Seq2Seq.scores st))) /\
  state_batch (Seq2Seq.hidden st) B.

(** ** A small model instance

    [embedding_size = 1], [hidden_size = 1], three source and three target
    tokens, [START_INDEX = 1], [END_INDEX = 2].  All weights are zero and the
    bias of the output layer favours token 2. *)

Definition zero_weights : LSTM.weights :=
  {| LSTM.weight_ih := [[0]; [0]; [0]; [0]];
     LSTM.weight_hh := [[0]; [0]; [0]; [0]];
     LSTM.bias_ih := [0; 0; 0; 0];
     LSTM.bias_hh := [0; 0; 0; 0] |}.

Definition tiny_embedding : Embedding.t := {| Embedding.weight := [[0]; [0]; [0]] |}.

Definition tiny_encoder : Encoder.t :=
  {| Encoder.embedding_layer := tiny_embedding;
     Encoder.recurrent_layer :=
       {| LSTM.hidden_size := 1; LSTM.l0 := zero_weights;
          LSTM.l0_reverse := Some zero_weights |} |}.

Definition tiny_attention : Attention.t :=
  {| Attention.attn_layer := {| Linear.weight := [[0]; [0]]; Linear.bias := None |};
     Attention.combine_layer := {| Linear.weight := [[0; 0; 0]]; Linear.bias := Some [0] |} |}.

Definition tiny_decoder : Decoder.t :=
  {| Decoder.embedding_layer := tiny_embedding;
     Decoder.recurrent_layer :=
       {| LSTM.hidden_size := 1; LSTM.l0 := zero_weights; LSTM.l0_reverse := None |};
     Decoder.output_layer :=
       {| Linear.weight := [[0]; [0]; [0]]; Linear.bias := Some [0; 0; 1] |};
     Decoder.attention_layer := tiny_attention |}.

Definition tiny_model (training : bool) : Seq2Seq.t :=
  {| Seq2Seq.encoder := tiny_encoder;
     Seq2Seq.decoder := tiny_decoder;
     Seq2Seq.START_INDEX := 1;
     Seq2Seq.END_INDEX := 2;
     Seq2Seq.training := training |}.

(** [Module.train()] and [Module.eval()] of the tensor library set the mode
    flag and leave everything else of the model as it is. *)
Definition set_training (mode : bool) (self : Seq2Seq.t) : Seq2Seq.t :=
  {| Seq2Seq.encoder := Seq2Seq.encoder self;
     Seq2Seq.decoder := Seq2Seq.decoder self;
     Seq2Seq.START_INDEX := Seq2Seq.START_INDEX self;
     Seq2Seq.END_INDEX := Seq2Seq.END_INDEX self;
     Seq2Seq.training := mode |}.

(** A row of scores whose exponentials sum to 1. *)
Definition log_distribution (v : vector) : Prop := vsum (map exp v) = 1.

(** What the decoder was fed up to a state of the greedy loop: before the
    first step nothing; afterwards all columns of the running predictions
    but the last, and decoding them in one call from the encoder state gives
    the scores collected so far and the state reached. *)
Definition fed_so_far (self : Seq2Seq.t) (encoder_outputs : tensor3)
           (encoder_hidden : hidden_pair) (B : nat) (st : Seq2Seq.loop_state) : Prop :=
  st = Seq2Seq.greedy_init self encoder_outputs encoder_hidden \/
  exists logits,
    Decoder.forward (Seq2Seq.decoder self) (map (@removelast Z) (Seq2Seq.preds st))
                    encoder_outputs encoder_hidden = Ok (logits, Seq2Seq.hidden st) /\
    log_softmax_dim2 logits = cat_so_far B (Seq2Seq.scores st).

(** ** The sizing done by the constructors

    [Seq2Seq(embedding_size=E, hidden_size=H, source_vocab_size=Vs,
    target_vocab_size=Vt)] builds every layer with the sizes below; the
    values of the parameters are left open. *)

(** A matrix of [rows] rows and [cols] columns. *)
Definition sized (rows cols : nat) (m : matrix) : Prop :=
  length m = rows /\ Forall (fun r => length r = cols) m.

(** [Linear(in_features, out_features, bias)]. *)
Definition linear_sized (in_features out_features : nat) (with_bias : bool)
           (self : Linear.t) : Prop :=
  sized out_features in_features (Linear.weight self) /\
  match Linear.bias self with
  | Some b => with_bias = true /\ length b = out_features
  | None => with_bias = false
  end.

(** One direction of [LSTM(input_size, hidden_size)]. *)
Definition weights_sized (input_size H : nat) (w : LSTM.weights) : Prop :=
  sized (4 * H) input_size (LSTM.weight_ih w) /\
  sized (4 * H) H (LSTM.weight_hh w) /\
  length (LSTM.bias_ih w) = (4 * H)%nat /\
  length (LSTM.bias_hh w) = (4 * H)%nat.

(** [Attention(hidden_size=H)]. *)
Definition attention_sized (H : nat) (self : Attention.t) : Prop :=
  linear_sized H (2 * H) false (Attention.attn_layer self) /\
  linear_sized (3 * H) H true (Attention.combine_layer self).

(** [Encoder(input_size=E, hidden_size=H, vocab_size=V)]. *)
Definition encoder_sized (E H V : nat) (self : Encoder.t) : Prop :=
  sized V E (Embedding.weight (Encoder.embedding_layer self)) /\
  LSTM.hidden_size (Encoder.recurrent_layer self) = H /\
  weights_sized E H (LSTM.l0 (Encoder.recurrent_layer self)) /\
  exists wr, LSTM.l0_reverse (Encoder.recurrent_layer self) = Some wr /\
             weights_sized E H wr.

(** [Decoder(input_size=E, hidden_size=H, vocab_size=V)]. *)
Definition decoder_sized (E H V : nat) (self : Decoder.t) : Prop :=
  sized V E (Embedding.weight (Decoder.embedding_layer self)) /\
  LSTM.hidden_size (Decoder.recurrent_layer self) = H /\
  weights_sized E H (LSTM.l0 (Decoder.recurrent_layer self)) /\
  LSTM.l0_reverse (Decoder.recurrent_layer self) = None /\
  linear_sized H V true (Decoder.output_layer self) /\
  attention_sized H (Decoder.attention_layer self).

(** [Seq2Seq.__init__]. *)
Definition constructed (E H Vs Vt : nat) (self : Seq2Seq.t) : Prop :=
  encoder_sized E H Vs (Seq2Seq.encoder self) /\
  decoder_sized E H Vt (Seq2Seq.decoder self).

(** Two states of the greedy loop, for two batches, as the state for the
    two batches one after the other: rows of predictions and of the
    recurrent state follow each other, and so do the rows of the scores of
    every step. *)
Definition side_by_side (st1 st2 : Seq2Seq.loop_state) : Seq2Seq.loop_state :=
  {| Seq2Seq.preds := Seq2Seq.preds st1 ++ Seq2Seq.preds st2;
     Seq2Seq.scores := zipWith (@app matrix) (Seq2Seq.scores st1) (Seq2Seq.scores st2);
     Seq2Seq.hidden :=
       ([nth 0 (fst (Seq2Seq.hidden st1)) [] ++ nth 0 (fst (Seq2Seq.hidden st2)) []],
        [nth 0 (snd (Seq2Seq.hidden st1)) [] ++ nth 0 (snd (Seq2Seq.hidden st2)) []]) |}.

(** A recurrent state of one layer with [B] batch rows. *)
Definition one_layer (B : nat) (hs : hidden_pair) : Prop :=
  exists h c, hs = ([h], [c]) /\ length h = B /\ length c = B.

(** ** The criterion of [create_criterion]

    [CrossEntropyLoss(ignore_index, reduction='sum')] of the tensor library,
    on logits of shape (N, C) and class indices of shape (N): the sum, over
    the positions whose target is not [ignore_index], of minus the
    log-softmax of the logits at the target class.  A target that is neither
    [ignore_index] nor a class raises.  The library rejects logits and
    targets of different lengths; they are cut to the shorter one here. *)

Module CrossEntropyLoss.
Record t : Type := { ignore_index : Z }.

Definition item (self : t) (x : vector) (y : Z) : result R :=
  if (y =? ignore_index self)%Z then Ok 0
  else if ((y <? 0) || (Z.of_nat (length x) <=? y))%Z then Raise IndexError
  else Ok (- nth (Z.to_nat y) (log_softmax_vec x) 0).

Fixpoint forward (self : t) (input : matrix) (target : list Z) : result R :=
  match input, target with
  | x :: input', y :: target' =>
      l <- item self x y ;;
      rest <- forward self input' target' ;;
      Ok (l + rest)
  | _, _ => Ok 0
  end.
End CrossEntropyLoss.

(** [create_criterion(args, pad_index)]; [args] is not used. *)
Definition create_criterion {Args : Type} (args : Args) (pad_index : Z)
  : CrossEntropyLoss.t :=
  {| CrossEntropyLoss.ignore_index := pad_index |}.

(** The model with the weights of the attention projection
    ([decoder.attention_layer.attn_layer]) replaced. *)
Definition set_attn_layer (projection : Linear.t) (self : Seq2Seq.t) : Seq2Seq.t :=
  {| Seq2Seq.encoder := Seq2Seq.encoder self;
     Seq2Seq.decoder :=
       {| Decoder.embedding_layer := Decoder.embedding_layer (Seq2Seq.decoder self);
          Decoder.recurrent_layer := Decoder.recurrent_layer (Seq2Seq.decoder self);
          Decoder.output_layer := Decoder.output_layer (Seq2Seq.decoder self);
          Decoder.attention_layer :=
            {| Attention.attn_layer := projection;
               Attention.combine_layer :=
                 Attention.combine_layer
                   (Decoder.attention_layer (Seq2Seq.decoder self)) |} |};
     Seq2Seq.START_INDEX := Seq2Seq.START_INDEX self;
     Seq2Seq.END_INDEX := Seq2Seq.END_INDEX self;
     Seq2Seq.training := Seq2Seq.training self |}.

(** * Properties *)

(** The tensor types are names for nested lists; arithmetic on lengths is
    done after expanding them. *)
Ltac list_types := unfold tensor3, matrix, vector, index_tensor in *.

(** ** Lists *)

Section ListFacts.
Context {A B C : Type}.

Lemma zipWith_length (f : A -> B -> C) (l1 : list A) (l2 : list B) :
  length (zipWith f l1 l2) = Nat.min (length l1) (length l2).
Proof.
  revert l2; induction l1 as [|a l1 IH]; intros [|b l2]; simpl; auto.
Qed.

Lemma zipWith_Forall (f : A -> B -> C) (P : C -> Prop) (l1 : list A) (l2 : list B) :
  (forall a b, In a l1 -> In b l2 -> P (f a b)) -> Forall P (zipWith f l1 l2).
Proof.
  revert l2; induction l1 as [|a l1 IH]; intros [|b l2] H; simpl; constructor.
  - apply H; left; reflexivity.
  - apply IH; intros; apply H; right; assumption.
Qed.

Lemma zipWith_map_l {A'} (f : A -> B -> C) (g : A' -> A) l1 l2 :
  zipWith f (map g l1) l2 = zipWith (fun a b => f (g a) b) l1 l2.
Proof.
  revert l2; induction l1 as [|a l1 IH]; intros [|b l2]; simpl; auto.
  now rewrite IH.
Qed.

Lemma zipWith_map_r {B'} (f : A -> B -> C) (g : B' -> B) l1 l2 :
  zipWith f l1 (map g l2) = zipWith (fun a b => f a (g b)) l1 l2.
Proof.
  revert l2; induction l1 as [|a l1 IH]; intros [|b l2]; simpl; auto.
  now rewrite IH.
Qed.

Lemma map_zipWith {D} (g : C -> D) (f : A -> B -> C) l1 l2 :
  map g (zipWith f l1 l2) = zipWith (fun a b => g (f a b)) l1 l2.
Proof.
  revert l2; induction l1 as [|a l1 IH]; intros [|b l2]; simpl; auto.
  now rewrite IH.
Qed.

Lemma zipWith_ext (f g : A -> B -> C) l1 l2 :
  (forall a b, In a l1 -> In b l2 -> f a b = g a b) ->
  zipWith f l1 l2 = zipWith g l1 l2.
Proof.
  revert l2; induction l1 as [|a l1 IH]; intros [|b l2] H; simpl; auto.
  f_equal.
  - apply H; left; reflexivity.
  - apply IH; intros; apply H; right; assumption.
Qed.

Lemma zipWith_nth (f : A -> B -> C) l1 l2 n da db dc :
  (n < length l1)%nat -> (n < length l2)%nat ->
  nth n (zipWith f l1 l2) dc = f (nth n l1 da) (nth n l2 db).
Proof.
  revert l2 n; induction l1 as [|a l1 IH]; intros [|b l2] [|n] H1 H2;
    simpl in *; try lia; auto.
  apply IH; lia.
Qed.
End ListFacts.

Lemma zipWith_same {A C : Type} (f : A -> A -> C) (l : list A) :
  zipWith f l l = map (fun a => f a a) l.
Proof. induction l as [|a l IH]; simpl; congruence. Qed.

Lemma Forall_skipn {A : Type} (P : A -> Prop) (n : nat) (l : list A) :
  Forall P l -> Forall P (skipn n l).
Proof.
  revert l; induction n as [|n IH]; intros l H; simpl; auto.
  destruct H; auto.
Qed.

Lemma shape2_rows {A : Type} (t : list (list A)) d0 d1 r :
  shape2 t d0 d1 -> In r t -> length r = d1.
Proof. intros [_ H] Hin. rewrite Forall_forall in H. auto. Qed.

Lemma shape2_size1 {A : Type} (t : list (list A)) d0 d1 :
  shape2 t d0 d1 -> (0 < d0)%nat -> size1 t = d1.
Proof.
  intros [Hl H] Hpos. destruct t as [|r t]; simpl in *; [lia|].
  now inversion H.
Qed.

(** ** The error monad *)

Lemma bind_Ok {A B : Type} (m : result A) (k : A -> result B) (b : B) :
  bind m k = Ok b -> exists a, m = Ok a /\ k a = Ok b.
Proof. destruct m; simpl; [eauto | discriminate]. Qed.

Lemma mapM_Ok {A B : Type} (f : A -> result B) (l : list A) :
  Forall (fun a => exists b, f a = Ok b) l ->
  exists l', mapM f l = Ok l' /\ Forall2 (fun a b => f a = Ok b) l l'.
Proof.
  induction 1 as [|a l [b Hb] _ [l' [IH1 IH2]]]; simpl.
  - eexists; split; [reflexivity | constructor].
  - rewrite Hb, IH1; simpl. eexists; split; [reflexivity | constructor; assumption].
Qed.

Lemma mapM_Raise {A B : Type} (f : A -> result B) (e : exception) (l : list A) :
  (forall a e', f a = Raise e' -> e' = e) ->
  Exists (fun a => f a = Raise e) l ->
  mapM f l = Raise e.
Proof.
  intros Hone; induction 1 as [a l Ha | a l _ IH]; simpl.
  - now rewrite Ha.
  - destruct (f a) eqn:Hfa; simpl.
    + now rewrite IH.
    + f_equal; eauto.
Qed.

Lemma mapM_Raise_only {A B : Type} (f : A -> result B) (e : exception) (l : list A) :
  (forall a e', f a = Raise e' -> e' = e) ->
  forall e', mapM f l = Raise e' -> e' = e.
Proof.
  intros Hone; induction l as [|a l IH]; simpl; intros e' H; [discriminate|].
  destruct (f a) eqn:Hfa; simpl in H.
  - destruct (mapM f l); simpl in H; [discriminate|].
    apply IH; congruence.
  - apply (Hone a); congruence.
Qed.

Lemma mapM_length {A B : Type} (f : A -> result B) (l : list A) (l' : list B) :
  mapM f l = Ok l' -> length l' = length l.
Proof.
  revert l'; induction l as [|a l IH]; simpl; intros l' H.
  - now injection H as <-.
  - destruct (f a); simpl in H; [|discriminate].
    destruct (mapM f l); simpl in H; [|discriminate].
    injection H as <-. simpl. f_equal. now apply IH.
Qed.

Lemma Forall2_length_eq {A B : Type} (P : A -> B -> Prop) l l' :
  Forall2 P l l' -> length l' = length l.
Proof. induction 1; simpl; congruence. Qed.

(** ** Embedding lookup *)

Lemma lookup_in_range (self : Embedding.t) (i : Z) :
  (0 <= i < Z.of_nat (length (Embedding.weight self)))%Z ->
  exists v, Embedding.lookup self i = Ok v.
Proof.
  intros Hi. unfold Embedding.lookup.
  destruct (Z.ltb_spec i 0) as [Hneg|_]; [lia|].
  destruct (nth_error (Embedding.weight self) (Z.to_nat i)) eqn:Hnth; [eauto|].
  apply nth_error_None in Hnth. lia.
Qed.

Lemma lookup_out_of_range (self : Embedding.t) (i : Z) :
  (i < 0)%Z \/ (Z.of_nat (length (Embedding.weight self)) <= i)%Z ->
  Embedding.lookup self i = Raise IndexError.
Proof.
  intros Hi. unfold Embedding.lookup.
  destruct (Z.ltb_spec i 0) as [Hneg|Hpos]; [reflexivity|].
  destruct (nth_error (Embedding.weight self) (Z.to_nat i)) eqn:Hnth; [|reflexivity].
  assert (Hlt : (Z.to_nat i < length (Embedding.weight self))%nat)
    by (apply nth_error_Some; congruence).
  lia.
Qed.

Lemma lookup_raises_IndexError (self : Embedding.t) (i : Z) (e : exception) :
  Embedding.lookup self i = Raise e -> e = IndexError.
Proof.
  unfold Embedding.lookup.
  destruct (i <? 0)%Z; [congruence|].
  destruct (nth_error _ _); congruence.
Qed.

Lemma embedding_forward_in_range (self : Embedding.t) (inputs : index_tensor) :
  in_range (length (Embedding.weight self)) inputs ->
  exists embedded,
    Embedding.forward self inputs = Ok embedded /\
    Forall2 (fun r er => length er = length r) inputs embedded.
Proof.
  intros Hin. unfold Embedding.forward.
  destruct (mapM_Ok (mapM (Embedding.lookup self)) inputs) as [emb [Hemb Hall]].
  - eapply Forall_impl; [|exact Hin]. intros r Hr.
    destruct (mapM_Ok (Embedding.lookup self) r) as [er [Her _]].
    + eapply Forall_impl; [|exact Hr]. intros i Hi. now apply lookup_in_range.
    + eauto.
  - exists emb; split; [assumption|].
    eapply Forall2_impl; [|exact Hall]. intros r er Hr.
    now apply mapM_length in Hr.
Qed.

Lemma embedding_forward_out_of_range (self : Embedding.t) (inputs : index_tensor) :
  out_of_range (length (Embedding.weight self)) inputs ->
  Embedding.forward self inputs = Raise IndexError.
Proof.
  intros Hbad. unfold Embedding.forward.
  apply mapM_Raise.
  - intros r e'. apply mapM_Raise_only. intros i e''. apply lookup_raises_IndexError.
  - eapply Exists_impl; [|exact Hbad]. intros r Hr. cbv beta in Hr.
    apply mapM_Raise.
    + intros i e'. apply lookup_raises_IndexError.
    + eapply Exists_impl; [|exact Hr]. intros i Hi. now apply lookup_out_of_range.
Qed.

(** ** The encoder on valid input *)

Lemma LSTM_forward_nonempty (self : LSTM.t) (input : tensor3) (hx : option hidden_pair) :
  (0 < size1 input)%nat ->
  exists outputs hs, LSTM.forward self input hx = Ok (outputs, hs).
Proof.
  intros Hpos. unfold LSTM.forward.
  destruct (Nat.eqb_spec (size1 input) 0) as [Hz|_]; [lia|].
  destruct (LSTM.l0_reverse self); eauto.
Qed.

Lemma Forall2_size1 {A B : Type} (t : list (list A)) (t' : list (list B)) :
  Forall2 (fun r r' => length r' = length r) t t' -> size1 t' = size1 t.
Proof. destruct 1; simpl; auto. Qed.

Lemma encoder_forward_returns (self : Encoder.t) (inputs : index_tensor) :
  in_range (length (Embedding.weight (Encoder.embedding_layer self))) inputs ->
  (0 < size1 inputs)%nat ->
  exists encoder_outputs encoder_hidden,
    Encoder.forward self inputs = Ok (encoder_outputs, encoder_hidden).
Proof.
  intros Hin Hpos. unfold Encoder.forward.
  destruct (embedding_forward_in_range _ _ Hin) as [emb [Hemb Hlen]].
  rewrite Hemb; simpl.
  destruct (LSTM_forward_nonempty (Encoder.recurrent_layer self) emb None)
    as [outputs [hs Hrun]].
  - now rewrite (Forall2_size1 _ _ Hlen).
  - rewrite Hrun; simpl. eauto.
Qed.

(** ** Invalid token indices *)

(** C8: a forward call whose source sequence holds an index outside the
    source vocabulary, or whose source is valid and non-empty and whose
    target sequence holds an index outside the target vocabulary, raises
    [IndexError]; the exception comes from the embedding lookup of the
    encoder, respectively of the decoder, and no pair of scores and
    predictions is returned. *)
Theorem forward_index_out_of_range
        (self : Seq2Seq.t) (inputs : index_tensor) (targets : option index_tensor)
        (max_len : Z) :
  out_of_range (source_vocab_size self) inputs \/
  (in_range (source_vocab_size self) inputs /\ (0 < size1 inputs)%nat /\
   exists tg, targets = Some tg /\ out_of_range (target_vocab_size self) tg) ->
  Seq2Seq.forward self inputs targets max_len = Raise IndexError /\
  (out_of_range (source_vocab_size self) inputs ->
   Embedding.forward (Encoder.embedding_layer (Seq2Seq.encoder self)) inputs
   = Raise IndexError) /\
  (forall tg, targets = Some tg -> out_of_range (target_vocab_size self) tg ->
   Embedding.forward (Decoder.embedding_layer (Seq2Seq.decoder self)) tg
   = Raise IndexError).
Proof.
  intros H. split; [|split].
  - unfold Seq2Seq.forward. destruct H as [Hsrc | (Hsrc & Hpos & tg & -> & Htg)].
    + unfold Encoder.forward.
      rewrite (embedding_forward_out_of_range _ _ Hsrc). reflexivity.
    + destruct (encoder_forward_returns _ _ Hsrc Hpos) as [eo [eh Henc]].
      rewrite Henc; simpl.
      unfold Seq2Seq.decode_forced, Decoder.forward.
      rewrite (embedding_forward_out_of_range _ _ Htg). reflexivity.
  - apply embedding_forward_out_of_range.
  - intros tg _. apply embedding_forward_out_of_range.
Qed.

Lemma forward_index_out_of_range_witness :
  Seq2Seq.forward (tiny_model false) [[0; 5]%Z] None 50 = Raise IndexError /\
  (out_of_range (source_vocab_size (tiny_model false)) [[0; 5]%Z] ->
   Embedding.forward (Encoder.embedding_layer (Seq2Seq.encoder (tiny_model false)))
                     [[0; 5]%Z] = Raise IndexError) /\
  (forall tg, None = Some tg -> out_of_range (target_vocab_size (tiny_model false)) tg ->
   Embedding.forward (Decoder.embedding_layer (Seq2Seq.decoder (tiny_model false))) tg
   = Raise IndexError).
Proof.
  apply (forward_index_out_of_range (tiny_model false) [[0; 5]%Z] None 50).
  left. constructor. apply Exists_cons_tl. constructor. right. simpl. lia.
Defined.

(** ** Greedy decoding without steps *)

(** C10: with [max_len <= 0] the greedy loop performs no decoder step, its
    accumulator of scores stays empty, and [decode_greedy] raises when it
    concatenates that accumulator; it returns no pair of empty sequences. *)
Theorem decode_greedy_nonpositive_max_len
        (self : Seq2Seq.t) (encoder_outputs : tensor3) (encoder_hidden : hidden_pair)
        (max_len : Z) :
  (max_len <= 0)%Z ->
  (exists st,
      Seq2Seq.decode_greedy_loop self encoder_outputs encoder_hidden max_len = Ok st /\
      steps_performed st = 0%nat /\ Seq2Seq.scores st = []) /\
  Seq2Seq.decode_greedy self encoder_outputs encoder_hidden max_len = Raise RuntimeError.
Proof.
  intros Hle.
  assert (Hn : Z.to_nat max_len = 0%nat) by lia.
  unfold Seq2Seq.decode_greedy, Seq2Seq.decode_greedy_loop. rewrite Hn. simpl.
  split; [|reflexivity].
  eexists; repeat split.
Qed.

Lemma decode_greedy_nonpositive_max_len_witness :
  (exists st,
      Seq2Seq.decode_greedy_loop (tiny_model false) [[[0; 0]]] ([[[0]]], [[[0]]]) 0 = Ok st /\
      steps_performed st = 0%nat /\ Seq2Seq.scores st = []) /\
  Seq2Seq.decode_greedy (tiny_model false) [[[0; 0]]] ([[[0]]], [[[0]]]) 0
  = Raise RuntimeError.
Proof.
  apply (decode_greedy_nonpositive_max_len (tiny_model false) [[[0; 0]]] ([[[0]]], [[[0]]]) 0).
  apply Z.le_refl.
Defined.

(** ** Attention *)

Lemma exp_ratio_one (x : R) : exp x / exp x = 1.
Proof. pose proof (exp_pos x). now field; apply Rgt_not_eq. Qed.

(** Normalising down the columns of a matrix with a single row gives ones. *)
Lemma softmax_columns_single_row (r : vector) :
  softmax_columns [r] = [map (fun _ => 1) r].
Proof.
  unfold softmax_columns; simpl. f_equal.
  rewrite zipWith_same, map_map.
  apply map_ext. intros x. apply exp_ratio_one.
Qed.

Lemma attn_scores_rows (self : Attention.t) (last_hidden : hidden_pair)
      (encoder_outputs : tensor3) :
  Attention.attn_scores self last_hidden encoder_outputs
  = zipWith (fun h e => [row_times (Linear.apply (Attention.attn_layer self) h) (transpose e)])
            (last (fst last_hidden) []) encoder_outputs.
Proof.
  unfold Attention.attn_scores, bmm, Linear.forward3, unsqueeze1.
  rewrite map_map, zipWith_map_l, zipWith_map_r. reflexivity.
Qed.

Lemma attn_weights_rows (self : Attention.t) (last_hidden : hidden_pair)
      (encoder_outputs : tensor3) :
  Attention.attn_weights self last_hidden encoder_outputs
  = zipWith (fun h e =>
               [map (fun _ => 1)
                    (row_times (Linear.apply (Attention.attn_layer self) h) (transpose e))])
            (last (fst last_hidden) []) encoder_outputs.
Proof.
  unfold Attention.attn_weights, softmax_dim1.
  rewrite attn_scores_rows, map_zipWith.
  apply zipWith_ext. intros h e _ _. apply softmax_columns_single_row.
Qed.

Lemma attn_weights_ones (self : Attention.t) (last_hidden : hidden_pair)
      (encoder_outputs : tensor3) :
  Forall (Forall (Forall (fun w => w = 1)))
         (Attention.attn_weights self last_hidden encoder_outputs).
Proof.
  rewrite attn_weights_rows. apply zipWith_Forall. intros h e _ _.
  constructor; [|constructor].
  apply Forall_forall. intros w Hw. apply in_map_iff in Hw.
  now destruct Hw as [x [<- _]].
Qed.

Lemma transpose_rows_length (m : matrix) (L D : nat) :
  shape2 m L D -> Forall (fun c => length c = L) (transpose m).
Proof.
  revert L; induction m as [|r m IH]; intros L [Hlen Hrows].
  - constructor.
  - destruct m as [|r' m'].
    + simpl in *; subst L. apply Forall_forall. intros c Hc.
      apply in_map_iff in Hc. now destruct Hc as [x [<- _]].
    + inversion Hrows as [|? ? _ Hrows']; subst.
      change (transpose (r :: r' :: m')) with (zipWith cons r (transpose (r' :: m'))).
      apply zipWith_Forall. intros x c _ Hc.
      assert (H' : shape2 (r' :: m') (length (r' :: m')) D) by (split; auto).
      specialize (IH _ H'). rewrite Forall_forall in IH.
      simpl. f_equal. now apply IH.
Qed.

Lemma transpose_cons2 (r r' : vector) (m : matrix) :
  transpose (r :: r' :: m) = zipWith cons r (transpose (r' :: m)).
Proof. reflexivity. Qed.

Lemma transpose_length (m : matrix) (L D : nat) :
  shape2 m L D -> (0 < L)%nat -> length (transpose m) = D.
Proof.
  revert L; induction m as [|r m IH]; intros L [Hlen Hrows] Hpos.
  - simpl in Hlen; lia.
  - inversion Hrows as [|? ? Hr Hrows']; subst.
    destruct m as [|r' m'].
    + simpl. now rewrite length_map.
    + rewrite transpose_cons2, zipWith_length.
      assert (E : length (transpose (r' :: m')) = length r).
      { apply (IH (length (r' :: m'))); [split; auto | simpl; lia]. }
      unfold vector in *. rewrite E. apply Nat.min_id.
Qed.

Lemma row_times_length (a : vector) (b : matrix) :
  Forall (fun r => length r = size1 b) b ->
  length (row_times a b) = size1 b.
Proof.
  unfold row_times. generalize (size1 b) as n. intros n Hb.
  revert a; induction b as [|r b IH]; intros a.
  - destruct a; simpl; apply repeat_length.
  - destruct a as [|x a]; simpl; [apply repeat_length|].
    inversion Hb; subst.
    unfold vadd at 1. rewrite zipWith_length. unfold vscale. rewrite length_map.
    rewrite IH by assumption. lia.
Qed.

Lemma vscale_one (v : vector) : vscale 1 v = v.
Proof.
  unfold vscale. rewrite <- (map_id v) at 2. apply map_ext. intros x. apply Rmult_1_l.
Qed.

Lemma row_times_ones {X : Type} (s : list X) (b : matrix) :
  length s = length b ->
  row_times (map (fun _ => 1) s) b = sum_positions b.
Proof.
  unfold row_times, sum_positions. generalize (repeat 0 (size1 b)) as z. intros z.
  revert s; induction b as [|r b IH]; intros [|x s] Hlen; simpl in *; try lia; auto.
  rewrite vscale_one. f_equal. apply IH. lia.
Qed.

Lemma length_zero_eq {X : Type} (l l' : list X) :
  length l = 0%nat -> length l' = 0%nat -> l = l'.
Proof. destruct l, l'; simpl; intros; congruence || lia. Qed.

Lemma sum_positions_length (m : matrix) :
  Forall (fun r => length r = size1 m) m -> length (sum_positions m) = size1 m.
Proof.
  unfold sum_positions. generalize (size1 m) as n. intros n Hm.
  induction Hm as [|r m Hr _ IH]; simpl.
  - apply repeat_length.
  - unfold vadd at 1. rewrite zipWith_length, IH. lia.
Qed.

Lemma shape2_rows_size1 {X : Type} (m : list (list X)) (L D : nat) :
  shape2 m L D -> Forall (fun r => length r = size1 m) m.
Proof.
  intros [_ H]. destruct m as [|r m]; [constructor|].
  simpl. inversion H; subst. constructor; [reflexivity|assumption].
Qed.

(** With all weights equal to one, applying them to the encoder outputs of
    a batch item sums these outputs over the source positions. *)
Lemma ones_applied (q : vector) (e : matrix) (L D : nat) :
  shape2 e L D ->
  row_times (map (fun _ => 1) (row_times q (transpose e))) e = sum_positions e.
Proof.
  intros He. destruct D as [|D].
  - (* empty encoder vectors: both sides are empty *)
    pose proof (shape2_rows_size1 _ _ _ He) as Hsz.
    apply length_zero_eq.
    + rewrite row_times_length by assumption.
      destruct He as [_ He]. destruct e; [reflexivity|]. now inversion He.
    + rewrite sum_positions_length by assumption.
      destruct He as [_ He]. destruct e; [reflexivity|]. now inversion He.
  - destruct L as [|L].
    + destruct He as [Hl _]. destruct e; [|discriminate].
      unfold row_times at 1. rewrite combine_nil. reflexivity.
    + apply row_times_ones.
      pose proof (transpose_rows_length _ _ _ He) as Hrows.
      pose proof (transpose_length _ _ _ He (Nat.lt_0_succ L)) as Hlen.
      rewrite row_times_length.
      * destruct (transpose e) as [|c t]; [discriminate|].
        simpl. inversion Hrows; subst. destruct He as [HeL _].
        unfold matrix, vector in *. congruence.
      * destruct (transpose e) as [|c t]; [constructor|].
        simpl. inversion Hrows; subst. constructor; [reflexivity|].
        eapply Forall_impl; [|eassumption]. simpl.
        unfold matrix, vector in *. intros; congruence.
Qed.

Lemma zipWith_const_l {X Y Z' : Type} (f : X -> Y -> Z') (g : Y -> Z') (l1 : list X) (l2 : list Y) :
  length l1 = length l2 ->
  (forall x y, In x l1 -> In y l2 -> f x y = g y) ->
  zipWith f l1 l2 = map g l2.
Proof.
  revert l2; induction l1 as [|x l1 IH]; intros [|y l2] Hlen H; simpl in *; try lia; auto.
  f_equal.
  - apply H; left; reflexivity.
  - apply IH; [lia|]. intros; apply H; right; assumption.
Qed.

Lemma attention_applied_sum (self : Attention.t) (last_hidden : hidden_pair)
      (encoder_outputs : tensor3) (B L D : nat) :
  shape3 encoder_outputs B L D ->
  length (last (fst last_hidden) []) = B ->
  Attention.attention_applied self last_hidden encoder_outputs
  = map (fun e => [sum_positions e]) encoder_outputs.
Proof.
  intros [HB Henc] Hh.
  unfold Attention.attention_applied, bmm.
  rewrite attn_weights_rows.
  rewrite Forall_forall in Henc.
  transitivity (zipWith (fun (h : vector) (e : matrix) => [sum_positions e])
                        (last (fst last_hidden) []) encoder_outputs).
  - remember (last (fst last_hidden) []) as hs eqn:Ehs. clear Ehs.
    clear HB Hh. revert hs. induction encoder_outputs as [|e t IH]; intros [|h hs];
      simpl in *; auto.
    unfold matmul at 1; simpl. f_equal.
    + f_equal. eapply ones_applied. apply Henc. now left.
    + apply IH. intros; apply Henc; now right.
  - apply zipWith_const_l; [congruence | reflexivity].
Qed.

Lemma scores_row_length (q : vector) (e : matrix) (L D : nat) :
  shape2 e L D -> (0 < D)%nat -> length (row_times q (transpose e)) = L.
Proof.
  intros He HD. destruct L as [|L].
  - destruct He as [Hl _]. destruct e; [|discriminate].
    unfold row_times. simpl transpose. now rewrite combine_nil.
  - pose proof (transpose_rows_length _ _ _ He) as Hrows.
    pose proof (transpose_length _ _ _ He (Nat.lt_0_succ L)) as Hlen.
    destruct (transpose e) as [|c t] eqn:Et; [simpl in Hlen; lia|].
    rewrite row_times_length.
    + simpl. now inversion Hrows.
    + simpl. inversion Hrows; subst. constructor; [reflexivity|].
      eapply Forall_impl; [|eassumption]. simpl.
      unfold matrix, vector in *. intros; congruence.
Qed.

Lemma attn_weights_shape (self : Attention.t) (last_hidden : hidden_pair)
      (encoder_outputs : tensor3) (B L D : nat) :
  shape3 encoder_outputs B L D ->
  length (last (fst last_hidden) []) = B ->
  (0 < D)%nat ->
  shape3 (Attention.attn_weights self last_hidden encoder_outputs) B 1 L.
Proof.
  intros [HB Henc] Hh HD. rewrite attn_weights_rows. split.
  - rewrite zipWith_length. lia.
  - apply zipWith_Forall. intros h e _ He.
    rewrite Forall_forall in Henc. specialize (Henc _ He).
    split; [reflexivity|]. constructor; [|constructor].
    rewrite length_map. eapply scores_row_length; eauto.
Qed.

(** C9: every attention weight returned by [Attention.forward] is 1, the
    softmax being taken along an axis of size 1.  For encoder outputs of shape
    (B, L, D) and a state of batch size B, the weights have shape (B, 1, L)
    (when D is positive), the attention-applied context of each batch item is
    the plain sum of its encoder outputs over the L source positions, and it
    is the same for every decoder state and every attention projection. *)
Theorem attention_weights_are_one
        (self : Attention.t) (decoder_output : tensor3) (last_hidden : hidden_pair)
        (encoder_outputs : tensor3) (B L D : nat) :
  shape3 encoder_outputs B L D ->
  length (last (fst last_hidden) []) = B ->
  let result := Attention.forward self decoder_output last_hidden encoder_outputs in
  Forall (Forall (Forall (fun w => w = 1))) (snd result) /\
  ((0 < D)%nat -> shape3 (snd result) B 1 L) /\
  Attention.attention_applied self last_hidden encoder_outputs
  = map (fun e => [sum_positions e]) encoder_outputs /\
  fst result
  = map (map (map tanh))
        (unsqueeze1
           (Linear.forward2 (Attention.combine_layer self)
              (zipWith (@app R) (squeeze1 decoder_output)
                       (map sum_positions encoder_outputs)))) /\
  (forall (self' : Attention.t) (last_hidden' : hidden_pair),
      length (last (fst last_hidden') []) = B ->
      Attention.attention_applied self' last_hidden' encoder_outputs
      = Attention.attention_applied self last_hidden encoder_outputs).
Proof.
  intros Henc Hh result. subst result. unfold Attention.forward. simpl.
  split; [apply attn_weights_ones|].
  split; [intros HD; eapply attn_weights_shape; eauto|].
  pose proof (attention_applied_sum self _ _ _ _ _ Henc Hh) as Happlied.
  split; [exact Happlied|].
  split.
  - unfold Attention.attention_applied in Happlied. rewrite Happlied.
    unfold squeeze1 at 2. rewrite map_map. reflexivity.
  - intros self' last_hidden' Hh'.
    rewrite Happlied. eapply attention_applied_sum; eauto.
Qed.

Lemma attention_weights_are_one_witness :
  let result :=
    Attention.forward tiny_attention [[[0]]] ([[[0]]], [[[0]]]) [[[1; 2]; [3; 4]; [5; 6]]] in
  Forall (Forall (Forall (fun w => w = 1))) (snd result) /\
  ((0 < 2)%nat -> shape3 (snd result) 1 1 3) /\
  Attention.attention_applied tiny_attention ([[[0]]], [[[0]]]) [[[1; 2]; [3; 4]; [5; 6]]]
  = map (fun e => [sum_positions e]) [[[1; 2]; [3; 4]; [5; 6]]] /\
  fst result
  = map (map (map tanh))
        (unsqueeze1
           (Linear.forward2 (Attention.combine_layer tiny_attention)
              (zipWith (@app R) (squeeze1 [[[0]]])
                       (map sum_positions [[[1; 2]; [3; 4]; [5; 6]]])))) /\
  (forall (self' : Attention.t) (last_hidden' : hidden_pair),
      length (last (fst last_hidden') []) = 1%nat ->
      Attention.attention_applied self' last_hidden' [[[1; 2]; [3; 4]; [5; 6]]]
      = Attention.attention_applied tiny_attention ([[[0]]], [[[0]]])
                                    [[[1; 2]; [3; 4]; [5; 6]]]).
Proof.
  apply (attention_weights_are_one tiny_attention [[[0]]] ([[[0]]], [[[0]]])
                                   [[[1; 2]; [3; 4]; [5; 6]]] 1 3 2).
  - split; [reflexivity|]. repeat constructor.
  - reflexivity.
Defined.

Lemma vsum_ones {X : Type} (s : list X) : vsum (map (fun _ => 1) s) = INR (length s).
Proof.
  induction s as [|x s IH]; [reflexivity|].
  change (1 + vsum (map (fun _ => 1) s) = INR (S (length s))).
  rewrite IH, S_INR. lra.
Qed.

(** Along the source-position axis the weights of every batch item sum to
    the number of source positions. *)
Lemma attn_weights_sum_src_len (self : Attention.t) (last_hidden : hidden_pair)
      (encoder_outputs : tensor3) (B L D b : nat) :
  shape3 encoder_outputs B L D ->
  length (last (fst last_hidden) []) = B ->
  (0 < D)%nat -> (b < B)%nat ->
  vsum (nth 0 (nth b (Attention.attn_weights self last_hidden encoder_outputs) []) [])
  = INR L.
Proof.
  intros [HB Henc] Hh HD Hb. rewrite attn_weights_rows. list_types.
  rewrite (zipWith_nth _ _ _ b [] [] []) by lia.
  cbn [nth]. rewrite vsum_ones. f_equal.
  eapply scores_row_length; [|exact HD].
  rewrite Forall_forall in Henc. apply Henc. apply nth_In. list_types; lia.
Qed.

(** C1 fails on the code: with two source positions the attention weights
    returned by [Attention.forward] are both 1, so they sum to 2 along the
    source-position axis, not to 1. *)
Theorem attention_weights_sum_two_positions :
  let weights :=
    snd (Attention.forward tiny_attention [[[0]]] ([[[0]]], [[[0]]]) [[[1; 2]; [3; 4]]]) in
  weights = [[[1; 1]]] /\
  vsum (nth 0 (nth 0 weights []) []) = 2 /\
  vsum (nth 0 (nth 0 weights []) []) <> 1.
Proof.
  intros weights.
  assert (E : weights = [[[1; 1]]]).
  { subst weights. unfold Attention.forward. simpl snd.
    rewrite attn_weights_rows. reflexivity. }
  rewrite E. simpl. repeat split; lra.
Qed.

(** ** Shapes in the encoder *)

Lemma vadd_length (u v : vector) : length (vadd u v) = Nat.min (length u) (length v).
Proof. apply zipWith_length. Qed.

Lemma vmul_length (u v : vector) : length (vmul u v) = Nat.min (length u) (length v).
Proof. apply zipWith_length. Qed.

Lemma chunk_length (H k : nat) (v : vector) :
  ((k + 1) * H <= length v)%nat -> length (LSTM.chunk H k v) = H.
Proof.
  intros Hle. unfold LSTM.chunk. rewrite length_firstn, length_skipn. nia.
Qed.

Lemma cell_lengths (H : nat) (w : LSTM.weights) (x : vector) (hc : vector * vector) :
  wf_weights H w -> length (snd hc) = H ->
  length (fst (LSTM.cell H w x hc)) = H /\ length (snd (LSTM.cell H w x hc)) = H.
Proof.
  intros (Hih & Hhh & Hbi & Hbh) Hc. destruct hc as [h c]. simpl in Hc.
  unfold LSTM.cell.
  set (gates := vadd _ _).
  assert (Hg : length gates = (4 * H)%nat).
  { subst gates. rewrite !vadd_length, !length_map. lia. }
  clearbody gates. cbn [fst snd].
  repeat rewrite ?vmul_length, ?vadd_length, ?length_map.
  rewrite !chunk_length by (rewrite Hg; lia). lia.
Qed.

Lemma run_lengths (H : nat) (w : LSTM.weights) (xs : list vector) (hc : vector * vector) :
  wf_weights H w -> length (fst hc) = H -> length (snd hc) = H ->
  length (fst (LSTM.run H w xs hc)) = length xs /\
  Forall (fun y => length y = H) (fst (LSTM.run H w xs hc)) /\
  length (fst (snd (LSTM.run H w xs hc))) = H /\
  length (snd (snd (LSTM.run H w xs hc))) = H.
Proof.
  intros Hw. revert hc. induction xs as [|x xs IH]; intros hc Hh Hc; simpl.
  - auto.
  - destruct (cell_lengths H w x hc Hw Hc) as [Hh' Hc'].
    specialize (IH (LSTM.cell H w x hc) Hh' Hc').
    destruct (LSTM.run H w xs (LSTM.cell H w x hc)) as [ys lst]. simpl in *.
    destruct IH as (I1 & I2 & I3 & I4). repeat split; auto.
Qed.

Lemma run_reverse_lengths (H : nat) (w : LSTM.weights) (xs : list vector)
      (hc : vector * vector) :
  wf_weights H w -> length (fst hc) = H -> length (snd hc) = H ->
  length (fst (LSTM.run_reverse H w xs hc)) = length xs /\
  Forall (fun y => length y = H) (fst (LSTM.run_reverse H w xs hc)) /\
  length (fst (snd (LSTM.run_reverse H w xs hc))) = H /\
  length (snd (snd (LSTM.run_reverse H w xs hc))) = H.
Proof.
  intros Hw Hh Hc. unfold LSTM.run_reverse.
  pose proof (run_lengths H w (rev xs) hc Hw Hh Hc) as (I1 & I2 & I3 & I4).
  destruct (LSTM.run H w (rev xs) hc) as [ys lst]. simpl in *.
  rewrite length_rev in *. repeat split; auto.
  apply Forall_rev. assumption.
Qed.

Lemma in_zero_state (B H : nat) (hc : vector * vector) :
  In hc (combine (LSTM.zeros B H) (LSTM.zeros B H)) ->
  length (fst hc) = H /\ length (snd hc) = H.
Proof.
  destruct hc as [h c]. intros Hin.
  pose proof (in_combine_l _ _ _ _ Hin) as Hl.
  pose proof (in_combine_r _ _ _ _ Hin) as Hr.
  apply repeat_spec in Hl, Hr. subst. simpl. now rewrite repeat_length.
Qed.

Lemma zero_state_length (B H : nat) :
  length (combine (LSTM.zeros B H) (LSTM.zeros B H)) = B.
Proof. unfold LSTM.zeros. rewrite length_combine, repeat_length. lia. Qed.

Lemma direction_zero_state
      (run : list vector -> vector * vector -> list vector * (vector * vector))
      (input : tensor3) (B L H : nat) :
  (forall xs hc, length (fst hc) = H -> length (snd hc) = H ->
                 direction_ok (length xs) H (run xs hc)) ->
  shape2 input B L ->
  let rs := zipWith run input (combine (LSTM.zeros (length input) H)
                                       (LSTM.zeros (length input) H)) in
  length rs = B /\ Forall (direction_ok L H) rs.
Proof.
  intros Hrun [HB Hrows] rs. subst rs. split.
  - rewrite zipWith_length, zero_state_length. list_types. list_types; lia.
  - apply zipWith_Forall. intros xs hc Hxs Hhc.
    rewrite Forall_forall in Hrows. rewrite <- (Hrows _ Hxs).
    apply in_zero_state in Hhc. destruct Hhc. now apply Hrun.
Qed.

Lemma states_shape (rs : list (list vector * (vector * vector)))
      (f : list vector * (vector * vector) -> vector) (P : nat) (B L H : nat) :
  length rs = B -> Forall (direction_ok L H) rs ->
  (forall r, direction_ok L H r -> length (f r) = P) ->
  shape2 (map f rs) B P.
Proof.
  intros HB Hrs Hf. split.
  - now rewrite length_map.
  - apply Forall_map. eapply Forall_impl; [|exact Hrs]. exact Hf.
Qed.

Lemma outputs_shape_bidirectional (fw bw : list (list vector * (vector * vector)))
      (B L H : nat) :
  length fw = B -> Forall (direction_ok L H) fw ->
  length bw = B -> Forall (direction_ok L H) bw ->
  shape3 (zipWith (zipWith (@app R)) (map fst fw) (map fst bw)) B L (2 * H).
Proof.
  intros Hf Hfw Hb Hbw. split.
  - rewrite zipWith_length, !length_map. list_types; lia.
  - apply zipWith_Forall. intros yf yb Hyf Hyb.
    apply in_map_iff in Hyf, Hyb.
    destruct Hyf as [rf [<- Hrf]]. destruct Hyb as [rb [<- Hrb]].
    rewrite Forall_forall in Hfw, Hbw.
    destruct (Hfw _ Hrf) as (F1 & F2 & _). destruct (Hbw _ Hrb) as (B1 & B2 & _).
    split.
    + rewrite zipWith_length. list_types; lia.
    + apply zipWith_Forall. intros u v Hu Hv.
      rewrite Forall_forall in F2, B2.
      rewrite length_app, (F2 _ Hu), (B2 _ Hv). list_types; lia.
Qed.

Lemma lstm_bidirectional_shapes (self : LSTM.t) (wr : LSTM.weights) (input : tensor3)
      (B L H : nat) :
  LSTM.hidden_size self = H ->
  wf_weights H (LSTM.l0 self) ->
  LSTM.l0_reverse self = Some wr -> wf_weights H wr ->
  shape2 input B L -> (0 < B)%nat -> (0 < L)%nat ->
  exists outputs h_n c_n,
    LSTM.forward self input None = Ok (outputs, (h_n, c_n)) /\
    shape3 outputs B L (2 * H) /\ shape3 h_n 2 B H /\ shape3 c_n 2 B H.
Proof.
  intros HH Hw Hrev Hwr Hin HB HL.
  unfold LSTM.forward.
  rewrite (shape2_size1 _ _ _ Hin HB).
  destruct (Nat.eqb_spec L 0) as [->|_]; [lia|].
  rewrite Hrev, HH.
  destruct (direction_zero_state (LSTM.run H (LSTM.l0 self)) input B L H) as [Lf Ff];
    [|assumption|].
  { intros xs hc Hh Hc. destruct (run_lengths H _ xs hc Hw Hh Hc) as (?&?&?&?).
    repeat split; assumption. }
  destruct (direction_zero_state (LSTM.run_reverse H wr) input B L H) as [Lb Fb];
    [|assumption|].
  { intros xs hc Hh Hc. destruct (run_reverse_lengths H _ xs hc Hwr Hh Hc) as (?&?&?&?).
    repeat split; assumption. }
  do 3 eexists. split; [reflexivity|].
  split; [now apply outputs_shape_bidirectional|].
  split; (split; [reflexivity|]);
    repeat (constructor; [eapply states_shape; eauto; intros r (?&?&?&?); assumption|]);
    constructor.
Qed.

Lemma sum0_pair (a b : matrix) : sum0 [a; b] = zipWith vadd a b.
Proof. reflexivity. Qed.

Lemma sum0_pair_shape (t : tensor3) (B H : nat) :
  shape3 t 2 B H -> shape3 [sum0 t] 1 B H.
Proof.
  intros [Hlen Hm].
  destruct t as [|a [|b [|? ?]]]; try discriminate.
  inversion Hm as [|? ? [Ha1 Ha2] Hm']; subst.
  inversion Hm' as [|? ? [Hb1 Hb2] _]; subst.
  split; [reflexivity|]. constructor; [|constructor].
  rewrite sum0_pair. split.
  - rewrite zipWith_length. list_types; lia.
  - apply zipWith_Forall. intros u v Hu Hv.
    rewrite Forall_forall in Ha2, Hb2.
    rewrite vadd_length, (Ha2 _ Hu), (Hb2 _ Hv). list_types; lia.
Qed.

Lemma sum0_pair_entries (t : tensor3) (B H : nat) :
  shape3 t 2 B H ->
  forall b j, (b < B)%nat -> (j < H)%nat ->
    nth j (nth b (sum0 t) []) 0
    = nth j (nth b (nth 0 t []) []) 0 + nth j (nth b (nth 1 t []) []) 0.
Proof.
  intros [Hlen Hm] b j Hb Hj.
  destruct t as [|m0 [|m1 [|? ?]]]; try discriminate.
  inversion Hm as [|? ? [Ha1 Ha2] Hm']; subst.
  inversion Hm' as [|? ? [Hb1 Hb2] _]; subst.
  rewrite sum0_pair. cbn [nth].
  rewrite (zipWith_nth vadd m0 m1 b [] [] []) by (list_types; lia).
  rewrite Forall_forall in Ha2, Hb2.
  unfold vadd. apply zipWith_nth.
  - rewrite Ha2; [assumption|]. apply nth_In. list_types; lia.
  - rewrite Hb2; [assumption|]. apply nth_In. list_types; lia.
Qed.

(** C6: for a source batch of shape (B, L) with valid indices,
    [Encoder.forward] returns outputs of shape (B, L, 2 * hidden_size)
    together with a hidden and a cell state of shape (1, B, hidden_size)
    each, which are the sums over the direction axis of the final states
    (2, B, hidden_size) of the bidirectional recurrent layer. *)
Theorem encoder_forward_shapes
        (self : Encoder.t) (inputs : index_tensor) (V H B L : nat) :
  wf_encoder V H self ->
  shape2 inputs B L -> (0 < B)%nat -> (0 < L)%nat ->
  in_range V inputs ->
  exists embedded encoder_outputs h_n c_n,
    Embedding.forward (Encoder.embedding_layer self) inputs = Ok embedded /\
    LSTM.forward (Encoder.recurrent_layer self) embedded None
    = Ok (encoder_outputs, (h_n, c_n)) /\
    Encoder.forward self inputs = Ok (encoder_outputs, ([sum0 h_n], [sum0 c_n])) /\
    shape3 encoder_outputs B L (2 * H) /\
    shape3 h_n 2 B H /\ shape3 c_n 2 B H /\
    shape3 [sum0 h_n] 1 B H /\ shape3 [sum0 c_n] 1 B H /\
    (forall b j, (b < B)%nat -> (j < H)%nat ->
       nth j (nth b (sum0 h_n) []) 0
       = nth j (nth b (nth 0 h_n []) []) 0 + nth j (nth b (nth 1 h_n []) []) 0) /\
    (forall b j, (b < B)%nat -> (j < H)%nat ->
       nth j (nth b (sum0 c_n) []) 0
       = nth j (nth b (nth 0 c_n []) []) 0 + nth j (nth b (nth 1 c_n []) []) 0).
Proof.
  intros (HV & HH & Hw & wr & Hrev & Hwr) Hshape HB HL Hin.
  rewrite <- HV in Hin.
  destruct (embedding_forward_in_range _ _ Hin) as [emb [Hemb Hlen]].
  assert (Hembshape : shape2 emb B L).
  { destruct Hshape as [Hb Hrows]. split.
    - rewrite (Forall2_length_eq _ _ _ Hlen). assumption.
    - clear - Hlen Hrows.
      induction Hlen; constructor; inversion Hrows; subst; auto; list_types; congruence. }
  destruct (lstm_bidirectional_shapes _ wr emb B L H HH Hw Hrev Hwr Hembshape HB HL)
    as (outs & h_n & c_n & Hrun & Sout & Sh & Sc).
  exists emb, outs, h_n, c_n.
  split; [assumption|]. split; [assumption|].
  split. { unfold Encoder.forward. rewrite Hemb; simpl. rewrite Hrun; reflexivity. }
  split; [assumption|]. split; [assumption|]. split; [assumption|].
  split; [eapply sum0_pair_shape; eauto|].
  split; [eapply sum0_pair_shape; eauto|].
  split; eapply sum0_pair_entries; eauto.
Qed.

Lemma encoder_forward_shapes_witness :
  exists encoder_outputs h_n c_n,
    Encoder.forward tiny_encoder [[0; 1]; [2; 0]]%Z
    = Ok (encoder_outputs, ([sum0 h_n], [sum0 c_n])) /\
    shape3 encoder_outputs 2 2 2 /\
    shape3 [sum0 h_n] 1 2 1 /\ shape3 [sum0 c_n] 1 2 1.
Proof.
  assert (Hwf : wf_encoder 3 1 tiny_encoder).
  { repeat split. exists zero_weights. repeat split. }
  assert (Hshape : shape2 [[0; 1]; [2; 0]]%Z 2 2).
  { split; [reflexivity|]. repeat constructor. }
  assert (Hin : in_range 3 [[0; 1]; [2; 0]]%Z).
  { repeat constructor; simpl; lia. }
  destruct (encoder_forward_shapes tiny_encoder [[0; 1]; [2; 0]]%Z 3 1 2 2
              Hwf Hshape (Nat.lt_0_succ 1) (Nat.lt_0_succ 1) Hin)
    as (emb & outs & h_n & c_n & _ & _ & Hfw & Sout & _ & _ & Sh & Sc & _).
  exists outs, h_n, c_n.
  split; [exact Hfw|]. split; [exact Sout|]. split; [exact Sh | exact Sc].
Defined.

(** ** Shapes in the decoder *)

Lemma linear_apply_length (n : nat) (self : Linear.t) (x : vector) :
  wf_linear n self -> length (Linear.apply self x) = n.
Proof.
  intros [Hw Hb]. unfold Linear.apply.
  destruct (Linear.bias self) as [b|].
  - rewrite vadd_length, length_map. list_types; lia.
  - now rewrite length_map.
Qed.

Lemma attention_output_shape (self : Attention.t) (decoder_output : tensor3)
      (last_hidden : hidden_pair) (encoder_outputs : tensor3) (B : nat) :
  length decoder_output = B ->
  length (last (fst last_hidden) []) = B ->
  length encoder_outputs = B ->
  shape2 (fst (Attention.forward self decoder_output last_hidden encoder_outputs)) B 1.
Proof.
  intros Hd Hh He. unfold Attention.forward. cbn [fst]. split.
  - unfold unsqueeze1, Linear.forward2, squeeze1, bmm.
    rewrite !length_map, zipWith_length, !length_map, zipWith_length.
    rewrite attn_weights_rows, zipWith_length. list_types; lia.
  - unfold unsqueeze1. rewrite map_map. apply Forall_map.
    apply Forall_forall. intros v _. reflexivity.
Qed.

(** One step of a unidirectional recurrent layer on a batch of [B] rows. *)
Lemma lstm_single_step (self : LSTM.t) (x : matrix) (hs : hidden_pair) (B : nat) :
  LSTM.l0_reverse self = None ->
  (0 < B)%nat -> length x = B -> state_batch hs B ->
  exists step_output hs',
    LSTM.forward self (unsqueeze1 x) (Some hs) = Ok (step_output, hs') /\
    length step_output = B /\
    state_batch hs' B /\ length (last (fst hs') []) = B.
Proof.
  intros Huni HB Hx [Hh Hc]. destruct hs as [h0 c0]. simpl in Hh, Hc.
  unfold LSTM.forward.
  assert (Hsz : size1 (unsqueeze1 x) = 1%nat).
  { destruct x; simpl in *; [lia | reflexivity]. }
  rewrite Hsz, Huni. simpl Nat.eqb. cbv iota.
  do 2 eexists. split; [reflexivity|].
  assert (Hlen : length (zipWith (LSTM.run (LSTM.hidden_size self) (LSTM.l0 self))
                                 (unsqueeze1 x) (combine (nth 0 h0 []) (nth 0 c0 []))) = B).
  { rewrite zipWith_length, length_combine. unfold unsqueeze1. rewrite length_map.
    list_types; lia. }
  unfold state_batch. cbn [fst snd nth last]. rewrite !length_map. auto.
Qed.

Lemma decoder_steps_ok (self : Decoder.t) (encoder_outputs embedded_inputs : tensor3)
      (positions : list nat) (outputs : list tensor3) (hs : hidden_pair) (B : nat) :
  LSTM.l0_reverse (Decoder.recurrent_layer self) = None ->
  (0 < B)%nat -> length embedded_inputs = B -> length encoder_outputs = B ->
  state_batch hs B ->
  Forall (fun o => shape2 o B 1) outputs ->
  exists outputs' hs',
    Decoder.steps self encoder_outputs embedded_inputs positions outputs hs
    = Ok (outputs', hs') /\
    length outputs' = (length outputs + length positions)%nat /\
    Forall (fun o => shape2 o B 1) outputs' /\
    state_batch hs' B.
Proof.
  intros Huni HB Hemb Henc. revert outputs hs.
  induction positions as [|step positions IH]; intros outputs hs Hhs Houts;
    cbn [Decoder.steps].
  - exists outputs, hs. repeat split; try assumption; try apply Hhs. simpl; lia.
  - destruct (lstm_single_step (Decoder.recurrent_layer self)
                (select1 step embedded_inputs) hs B Huni HB) as
        (so & hs' & Hrun & Hso & Hhs' & Hlast); [| assumption |].
    { unfold select1. now rewrite length_map. }
    rewrite Hrun. cbn [bind].
    pose proof (attention_output_shape (Decoder.attention_layer self) so hs'
                  encoder_outputs B Hso Hlast Henc) as Hatt.
    destruct (Attention.forward (Decoder.attention_layer self) so hs' encoder_outputs)
      as [step_output w]. cbn [fst] in Hatt.
    destruct (IH (outputs ++ [step_output]) hs' Hhs') as (o' & h' & Hst & Hl & Ho & Hh).
    { apply Forall_app. split; [assumption | repeat constructor; apply Hatt]. }
    exists o', h'. split; [assumption|]. split; [|split; assumption].
    rewrite Hl, length_app. simpl. lia.
Qed.

Lemma cat_fold_shape {X : Type} (ts : list (list (list X))) (t0 : list (list X))
      (B n : nat) :
  shape2 t0 B n -> Forall (fun t => shape2 t B 1) ts ->
  shape2 (fold_left (zipWith (@app X)) ts t0) B (n + length ts).
Proof.
  revert t0 n. induction ts as [|t ts IH]; intros t0 n H0 Hts; simpl.
  - now rewrite Nat.add_0_r.
  - inversion Hts as [|? ? Ht Hts']; subst.
    replace (n + S (length ts))%nat with ((n + 1) + length ts)%nat by lia.
    apply IH; [|assumption].
    destruct H0 as [L0 R0]. destruct Ht as [L1 R1]. split.
    + rewrite zipWith_length. lia.
    + apply zipWith_Forall. intros a b Ha Hb.
      rewrite Forall_forall in R0, R1.
      rewrite length_app, (R0 _ Ha), (R1 _ Hb). reflexivity.
Qed.

Lemma cat1_shape {X : Type} (ts : list (list (list X))) (B : nat) :
  Forall (fun t => shape2 t B 1) ts -> (0 < length ts)%nat ->
  exists c, cat1 ts = Ok c /\ shape2 c B (length ts).
Proof.
  intros Hts Hpos. destruct ts as [|t ts]; [simpl in Hpos; lia|].
  inversion Hts; subst.
  eexists. split; [reflexivity|].
  change (length (t :: ts)) with (1 + length ts)%nat.
  now apply cat_fold_shape.
Qed.

Lemma forward3_shape (self : Linear.t) (x : tensor3) (B T V : nat) :
  wf_linear V self -> shape2 x B T -> shape3 (Linear.forward3 self x) B T V.
Proof.
  intros Hwf [HB HT]. unfold Linear.forward3. split.
  - now rewrite length_map.
  - apply Forall_map. eapply Forall_impl; [|exact HT]. intros m Hm. split.
    + now rewrite length_map.
    + apply Forall_map. apply Forall_forall. intros v _.
      now apply linear_apply_length.
Qed.

Lemma decoder_forward_ok (self : Decoder.t) (inputs : index_tensor)
      (encoder_outputs : tensor3) (hs : hidden_pair) (V B T : nat) :
  wf_decoder V self ->
  shape2 inputs B T -> (0 < B)%nat -> (0 < T)%nat ->
  in_range V inputs ->
  length encoder_outputs = B -> state_batch hs B ->
  exists logits hs',
    Decoder.forward self inputs encoder_outputs hs = Ok (logits, hs') /\
    shape3 logits B T V /\ state_batch hs' B.
Proof.
  intros (HV & Huni & Hout) Hshape HB HT Hin Henc Hhs.
  rewrite <- HV in Hin.
  destruct (embedding_forward_in_range _ _ Hin) as [emb [Hemb Hlen]].
  unfold Decoder.forward. rewrite Hemb. simpl.
  rewrite (shape2_size1 _ _ _ Hshape HB).
  destruct (decoder_steps_ok self encoder_outputs emb (seq 0 T) [] hs B Huni HB)
    as (outs & hs' & Hsteps & Hl & Houts & Hhs'); try assumption.
  { pose proof (Forall2_length_eq _ _ _ Hlen) as E. destruct Hshape as [Hs _].
    list_types; congruence. }
  { constructor. }
  rewrite Hsteps. simpl. rewrite length_seq in Hl. simpl in Hl.
  destruct (cat1_shape outs B Houts) as [c [Hc Sc]]; [list_types; lia|].
  rewrite Hc. simpl.
  assert (Sc' : shape2 c B T) by (list_types; rewrite <- Hl; exact Sc).
  exists (Linear.forward3 (Decoder.output_layer self) c), hs'.
  split; [reflexivity|]. split; [now apply forward3_shape | assumption].
Qed.

(** ** Argmax and log-softmax *)

Lemma argmax_from_spec (v : vector) :
  forall (best_i : nat) (best : R) (i : nat),
    (best_i < i)%nat ->
    let r := argmax_from best_i best i v in
    (r = best_i /\ Forall (fun x => x <= best) v) \/
    ((i <= r < i + length v)%nat /\ best < nth (r - i) v 0 /\
     Forall (fun x => x <= nth (r - i) v 0) v).
Proof.
  induction v as [|x v IH]; intros best_i best i Hlt; simpl.
  - left. split; [reflexivity | constructor].
  - destruct (Rlt_dec best x) as [Hbx | Hbx].
    + destruct (IH i x (S i) (Nat.lt_succ_diag_r i)) as [[Er Hall] | (Hr & Hx & Hall)].
      * right. rewrite Er. rewrite Nat.sub_diag. simpl.
        split; [lia|]. split; [assumption|].
        constructor; [apply Rle_refl | assumption].
      * right. set (r := argmax_from i x (S i) v) in *.
        replace (r - i)%nat with (S (r - S i)) by lia. simpl.
        split; [lia|]. split; [lra|].
        constructor; [lra | assumption].
    + destruct (IH best_i best (S i) (Nat.lt_lt_succ_r _ _ Hlt))
        as [[Er Hall] | (Hr & Hx & Hall)].
      * left. split; [assumption|]. constructor; [lra | assumption].
      * right. set (r := argmax_from best_i best (S i) v) in *.
        replace (r - i)%nat with (S (r - S i)) by lia. simpl.
        split; [lia|]. split; [assumption|].
        constructor; [lra | assumption].
Qed.

(** The index returned for a non-empty vector is a position of the vector
    and no entry exceeds the entry at that position. *)
Lemma argmax_spec (v : vector) :
  (0 < length v)%nat ->
  (argmax v < length v)%nat /\ Forall (fun x => x <= nth (argmax v) v 0) v.
Proof.
  destruct v as [|x v]; simpl; [lia|]. intros _.
  destruct (argmax_from_spec v 0 x 1 Nat.lt_0_1) as [[Er Hall] | (Hr & Hx & Hall)].
  - rewrite Er. split; [lia|]. constructor; [apply Rle_refl | assumption].
  - set (r := argmax_from 0 x 1 v) in *.
    destruct r as [|r]; [lia|]. simpl in *. rewrite Nat.sub_0_r in *.
    split; [lia|]. constructor; [lra | assumption].
Qed.

Lemma vsum_exp_pos (v : vector) : (0 < length v)%nat -> 0 < vsum (map exp v).
Proof.
  destruct v as [|x v]; simpl; [lia|]. intros _.
  assert (H : 0 <= vsum (map exp v)).
  { induction v as [|y v IH]; simpl; [lra|]. pose proof (exp_pos y). lra. }
  pose proof (exp_pos x). lra.
Qed.

Lemma vsum_map_div (f : R -> R) (s : R) (v : vector) :
  s <> 0 -> vsum (map (fun x => f x / s) v) = vsum (map f v) / s.
Proof.
  intros Hs. induction v as [|x v IH]; simpl.
  - now field.
  - rewrite IH. now field.
Qed.

(** A row of log-softmax scores is a log-probability distribution. *)
Lemma log_softmax_normalised (v : vector) :
  (0 < length v)%nat -> vsum (map exp (log_softmax_vec v)) = 1.
Proof.
  intros Hpos. pose proof (vsum_exp_pos v Hpos) as Hs.
  unfold log_softmax_vec. rewrite map_map.
  rewrite (map_ext _ (fun x => exp x / vsum (map exp v))).
  - rewrite vsum_map_div by lra. field. lra.
  - intros x. unfold Rminus. rewrite exp_plus, exp_Ropp, exp_ln by assumption.
    reflexivity.
Qed.

Lemma nth_map_in {X Y : Type} (f : X -> Y) (l : list X) (i : nat) (dx : X) (dy : Y) :
  (i < length l)%nat -> nth i (map f l) dy = f (nth i l dx).
Proof.
  intros Hi. rewrite (nth_indep _ dy (f dx)) by now rewrite length_map.
  apply map_nth.
Qed.

Lemma shape3_entry (t : tensor3) (B T V i k : nat) :
  shape3 t B T V -> (i < B)%nat -> (k < T)%nat ->
  length (nth i t []) = T /\ length (nth k (nth i t []) []) = V.
Proof.
  intros [HB Hm] Hi Hk. rewrite Forall_forall in Hm.
  destruct (Hm (nth i t [])) as [HT Hrows]; [apply nth_In; list_types; lia|].
  split; [assumption|].
  rewrite Forall_forall in Hrows. apply Hrows. apply nth_In. list_types; lia.
Qed.

Lemma log_softmax_dim2_shape (t : tensor3) (B T V : nat) :
  shape3 t B T V -> shape3 (log_softmax_dim2 t) B T V.
Proof.
  intros [HB Hm]. unfold log_softmax_dim2. split; [now rewrite length_map|].
  apply Forall_map. eapply Forall_impl; [|exact Hm]. intros m [HT Hrows]. split.
  - now rewrite length_map.
  - apply Forall_map. eapply Forall_impl; [|exact Hrows]. intros v Hv.
    unfold log_softmax_vec. now rewrite length_map.
Qed.

Lemma argmax_dim2_shape (t : tensor3) (B T V : nat) :
  shape3 t B T V -> shape2 (argmax_dim2 t) B T.
Proof.
  intros [HB Hm]. unfold argmax_dim2. split; [now rewrite length_map|].
  apply Forall_map. eapply Forall_impl; [|exact Hm]. intros m [HT _].
  now rewrite length_map.
Qed.

Lemma argmax_dim2_entry (t : tensor3) (B T V i k : nat) :
  shape3 t B T V -> (i < B)%nat -> (k < T)%nat ->
  nth k (nth i (argmax_dim2 t) []) 0%Z = Z.of_nat (argmax (nth k (nth i t []) [])).
Proof.
  intros Ht Hi Hk. destruct (shape3_entry t B T V i k Ht Hi Hk) as [HT _].
  destruct Ht as [HB _]. unfold argmax_dim2. list_types.
  rewrite (nth_map_in _ t i []) by lia.
  rewrite (nth_map_in _ _ k []) by lia. reflexivity.
Qed.

Lemma log_softmax_dim2_entry (t : tensor3) (B T V i k : nat) :
  shape3 t B T V -> (i < B)%nat -> (k < T)%nat ->
  nth k (nth i (log_softmax_dim2 t) []) [] = log_softmax_vec (nth k (nth i t []) []).
Proof.
  intros Ht Hi Hk. destruct (shape3_entry t B T V i k Ht Hi Hk) as [HT _].
  destruct Ht as [HB _]. unfold log_softmax_dim2. list_types.
  rewrite (nth_map_in _ t i []) by lia.
  rewrite (nth_map_in _ _ k []) by lia. reflexivity.
Qed.

Lemma in_range_vocab_positive (V B T : nat) (t : index_tensor) :
  in_range V t -> shape2 t B T -> (0 < B)%nat -> (0 < T)%nat -> (0 < V)%nat.
Proof.
  intros Hin [HB HT] Bpos Tpos.
  destruct t as [|r t]; [simpl in HB; lia|].
  inversion Hin as [|? ? Hr _]; subst. inversion HT as [|? ? Hlen _]; subst.
  destruct r as [|i r]; [simpl in Tpos; lia|].
  inversion Hr; subst. lia.
Qed.

(** The index that [max(dim=2)] returns for a row is a position of the
    row, and no entry of the row exceeds the entry at that position. *)
Lemma argmax_dim2_maximal (t : tensor3) (B T V i k : nat) :
  shape3 t B T V -> (0 < V)%nat -> (i < B)%nat -> (k < T)%nat ->
  let row := nth k (nth i t []) [] in
  let p := nth k (nth i (argmax_dim2 t) []) 0%Z in
  (0 <= p < Z.of_nat V)%Z /\
  forall j, (j < V)%nat -> nth j row 0 <= nth (Z.to_nat p) row 0.
Proof.
  intros Ht HV Hi Hk row p.
  destruct (shape3_entry t B T V i k Ht Hi Hk) as [_ Hrow]. fold row in Hrow.
  assert (Ep : p = Z.of_nat (argmax row)).
  { subst p row. eapply argmax_dim2_entry; eauto. }
  destruct (argmax_spec row) as [Hlt Hmax]; [list_types; lia|].
  split; [rewrite Ep; list_types; lia|].
  intros j Hj. rewrite Ep, Nat2Z.id.
  rewrite Forall_forall in Hmax. apply Hmax. apply nth_In. list_types; lia.
Qed.

(** The log-softmax of a row subtracts one number from all its entries: a
    position of a maximal logit is a position of a maximal score. *)
Lemma argmax_dim2_maximal_score (logits : tensor3) (B T V i k : nat) :
  shape3 logits B T V -> (0 < V)%nat -> (i < B)%nat -> (k < T)%nat ->
  let score_row := nth k (nth i (log_softmax_dim2 logits) []) [] in
  let p := nth k (nth i (argmax_dim2 logits) []) 0%Z in
  (0 <= p < Z.of_nat V)%Z /\
  forall j, (j < V)%nat -> nth j score_row 0 <= nth (Z.to_nat p) score_row 0.
Proof.
  intros Ht HV Hi Hk score_row p.
  destruct (argmax_dim2_maximal logits B T V i k Ht HV Hi Hk) as [Hp Hmax].
  fold p in Hp, Hmax.
  destruct (shape3_entry logits B T V i k Ht Hi Hk) as [_ Hrow].
  split; [assumption|]. intros j Hj.
  subst score_row. rewrite (log_softmax_dim2_entry logits B T V i k Ht Hi Hk).
  unfold log_softmax_vec.
  rewrite (nth_map_in _ _ j 0) by (list_types; lia).
  rewrite (nth_map_in _ _ (Z.to_nat p) 0) by (list_types; lia).
  specialize (Hmax j Hj). lra.
Qed.

Lemma log_softmax_dim2_shape_inv (t : tensor3) (B T V : nat) :
  shape3 (log_softmax_dim2 t) B T V -> shape3 t B T V.
Proof.
  intros [HB Hm]. unfold log_softmax_dim2 in HB, Hm. rewrite length_map in HB.
  split; [assumption|].
  rewrite Forall_map in Hm. eapply Forall_impl; [|exact Hm].
  intros m [HT Hrows]. cbv beta in *. rewrite length_map in HT.
  split; [assumption|].
  rewrite Forall_map in Hrows. eapply Forall_impl; [|exact Hrows].
  intros v Hv. cbv beta in Hv. unfold log_softmax_vec in Hv.
  now rewrite length_map in Hv.
Qed.

(** ** Teacher-forced decoding *)

(** C2: for targets of shape (B, T) with valid indices, [decode_forced]
    returns scores of shape (B, T, V) that are the log-softmax of the decoder
    logits along the vocabulary axis, and predictions of shape (B, T) where
    each prediction is a position of a maximal logit of its row. *)
Theorem decode_forced_scores_and_predictions
        (self : Seq2Seq.t) (targets : index_tensor) (encoder_outputs : tensor3)
        (encoder_hidden : hidden_pair) (V B T : nat) :
  wf_decoder V (Seq2Seq.decoder self) ->
  shape2 targets B T -> (0 < B)%nat -> (0 < T)%nat ->
  in_range V targets ->
  length encoder_outputs = B -> state_batch encoder_hidden B ->
  exists logits hidden' scores preds,
    Decoder.forward (Seq2Seq.decoder self) targets encoder_outputs encoder_hidden
    = Ok (logits, hidden') /\
    Seq2Seq.decode_forced self targets encoder_outputs encoder_hidden
    = Ok (scores, preds) /\
    shape3 logits B T V /\
    shape3 scores B T V /\ scores = log_softmax_dim2 logits /\
    shape2 preds B T /\
    forall i t, (i < B)%nat -> (t < T)%nat ->
      let row := nth t (nth i logits []) [] in
      let score_row := nth t (nth i scores []) [] in
      let p := nth t (nth i preds []) 0%Z in
      (0 <= p < Z.of_nat V)%Z /\
      (forall j, (j < V)%nat -> nth j row 0 <= nth (Z.to_nat p) row 0) /\
      (forall j, (j < V)%nat ->
         nth j score_row 0 = nth j row 0 - ln (vsum (map exp row))) /\
      vsum (map exp score_row) = 1.
Proof.
  intros Hwf Hshape HB HT Hin Henc Hhs.
  pose proof (in_range_vocab_positive V B T targets Hin Hshape HB HT) as HV.
  destruct (decoder_forward_ok _ _ _ _ V B T Hwf Hshape HB HT Hin Henc Hhs)
    as (logits & hs' & Hfw & Slog & _).
  exists logits, hs', (log_softmax_dim2 logits), (argmax_dim2 logits).
  split; [assumption|].
  split. { unfold Seq2Seq.decode_forced. rewrite Hfw. reflexivity. }
  split; [assumption|].
  split; [now apply log_softmax_dim2_shape|].
  split; [reflexivity|].
  split; [eapply argmax_dim2_shape; eauto|].
  intros i t Hi Ht row score_row p.
  destruct (shape3_entry logits B T V i t Slog Hi Ht) as [_ Hrow].
  fold row in Hrow.
  assert (Ep : p = Z.of_nat (argmax row)).
  { subst p row. eapply argmax_dim2_entry; eauto. }
  assert (Es : score_row = log_softmax_vec row).
  { subst score_row row. eapply log_softmax_dim2_entry; eauto. }
  destruct (argmax_spec row) as [Hlt Hmax]; [list_types; lia|].
  split; [rewrite Ep; list_types; lia|].
  split.
  - intros j Hj. rewrite Ep, Nat2Z.id.
    rewrite Forall_forall in Hmax. apply Hmax. apply nth_In. list_types; lia.
  - split.
    + intros j Hj. rewrite Es. unfold log_softmax_vec.
      rewrite (nth_map_in _ row j 0) by (list_types; lia). reflexivity.
    + rewrite Es. apply log_softmax_normalised. list_types; lia.
Qed.

(** ** The greedy loop *)

Lemma zipWith_app_nil_l {X : Type} (t : list (list X)) :
  zipWith (@app X) (repeat [] (length t)) t = t.
Proof. induction t as [|r t IH]; simpl; congruence. Qed.

Lemma cat_fold_shape3 (ts : list tensor3) (t0 : tensor3) (B n V : nat) :
  shape3 t0 B n V -> Forall (fun t => shape3 t B 1 V) ts ->
  shape3 (fold_left (zipWith (@app vector)) ts t0) B (n + length ts) V.
Proof.
  revert t0 n. induction ts as [|t ts IH]; intros t0 n H0 Hts; simpl.
  - now rewrite Nat.add_0_r.
  - inversion Hts as [|? ? Ht Hts']; subst.
    replace (n + S (length ts))%nat with ((n + 1) + length ts)%nat by lia.
    apply IH; [|assumption].
    destruct H0 as [L0 R0]. destruct Ht as [L1 R1]. split.
    + rewrite zipWith_length. list_types; lia.
    + apply zipWith_Forall. intros a b Ha Hb.
      rewrite Forall_forall in R0, R1.
      destruct (R0 _ Ha) as [A1 A2]. destruct (R1 _ Hb) as [B1 B2]. split.
      * rewrite length_app. list_types; lia.
      * apply Forall_app. split; assumption.
Qed.

Lemma cat_so_far_shape (B V : nat) (scores : list tensor3) :
  Forall (fun s => shape3 s B 1 V) scores ->
  shape3 (cat_so_far B scores) B (length scores) V.
Proof.
  intros H. unfold cat_so_far.
  change (length scores) with (0 + length scores)%nat.
  apply cat_fold_shape3; [|assumption].
  split; [apply repeat_length|].
  apply Forall_forall. intros m Hm. apply repeat_spec in Hm. subst m.
  split; [reflexivity | constructor].
Qed.

Lemma cat_so_far_snoc (B : nat) (scores : list tensor3) (s : tensor3) :
  cat_so_far B (scores ++ [s]) = zipWith (@app vector) (cat_so_far B scores) s.
Proof. unfold cat_so_far. now rewrite fold_left_app. Qed.

Lemma cat1_cat_so_far (B V : nat) (scores : list tensor3) :
  Forall (fun s => shape3 s B 1 V) scores -> (0 < length scores)%nat ->
  cat1 scores = Ok (cat_so_far B scores).
Proof.
  intros H Hpos. destruct scores as [|t ts]; [simpl in Hpos; lia|].
  inversion H as [|? ? [Ht _] _]; subst.
  unfold cat1, cat_so_far. simpl. f_equal. f_equal. symmetry. apply zipWith_app_nil_l.
Qed.

Lemma argmax_dim2_app (a b : tensor3) :
  argmax_dim2 (zipWith (@app vector) a b)
  = zipWith (@app Z) (argmax_dim2 a) (argmax_dim2 b).
Proof.
  unfold argmax_dim2. rewrite map_zipWith, zipWith_map_l, zipWith_map_r.
  apply zipWith_ext. intros x y _ _. apply map_app.
Qed.

Lemma zipWith_app_cons {X : Type} (x : X) (a b : list (list X)) :
  zipWith (@app X) (map (cons x) a) b = map (cons x) (zipWith (@app X) a b).
Proof. rewrite zipWith_map_l, map_zipWith. reflexivity. Qed.

Lemma narrow_tail_cons {X : Type} (x : X) (t : list (list X)) :
  narrow_tail (map (cons x) t) = t.
Proof.
  unfold narrow_tail. rewrite map_map. simpl. apply map_id.
Qed.

Lemma last_slice_single {X : Type} (t : list (list X)) (B : nat) :
  shape2 t B 1 -> last_slice t = t.
Proof.
  intros [_ H]. unfold last_slice. rewrite <- (map_id t) at 2.
  apply map_ext_in. intros r Hr. rewrite Forall_forall in H.
  now rewrite (H _ Hr).
Qed.

Lemma last_slice_shape {X : Type} (t : list (list X)) (B n : nat) :
  shape2 t B (S n) -> shape2 (last_slice t) B 1.
Proof.
  intros [HB H]. unfold last_slice. split; [now rewrite length_map|].
  apply Forall_map. eapply Forall_impl; [|exact H]. intros r Hr. cbv beta in *.
  rewrite length_skipn. lia.
Qed.

Lemma last_slice_in_range (V : nat) (t : index_tensor) :
  in_range V t -> in_range V (last_slice t).
Proof.
  intros H. unfold in_range, last_slice. apply Forall_map.
  eapply Forall_impl; [|exact H]. intros r Hr. now apply Forall_skipn.
Qed.

Lemma argmax_dim2_in_range (t : tensor3) (B T V : nat) :
  shape3 t B T V -> (0 < V)%nat -> in_range V (argmax_dim2 t).
Proof.
  intros [_ Hm] HV. unfold in_range, argmax_dim2.
  apply Forall_map. eapply Forall_impl; [|exact Hm]. intros m [_ Hrows].
  apply Forall_map. eapply Forall_impl; [|exact Hrows]. intros v Hv.
  destruct (argmax_spec v) as [Hlt _]; list_types; lia.
Qed.

Lemma inv_preds_shape (self : Seq2Seq.t) (V B : nat) (st : Seq2Seq.loop_state) :
  greedy_inv self V B st ->
  shape2 (Seq2Seq.preds st) B (S (steps_performed st)).
Proof.
  intros (Hs & Hp & _). rewrite Hp.
  pose proof (argmax_dim2_shape _ _ _ _ (cat_so_far_shape B V _ Hs)) as [HB HT].
  split; [now rewrite length_map|].
  apply Forall_map. eapply Forall_impl; [|exact HT]. intros r Hr.
  simpl. unfold steps_performed. now rewrite Hr.
Qed.

Lemma inv_preds_in_range (self : Seq2Seq.t) (V B : nat) (st : Seq2Seq.loop_state) :
  (0 <= Seq2Seq.START_INDEX self < Z.of_nat V)%Z ->
  greedy_inv self V B st ->
  in_range V (Seq2Seq.preds st).
Proof.
  intros Hstart (Hs & Hp & _). rewrite Hp.
  assert (HV : (0 < V)%nat) by lia.
  pose proof (argmax_dim2_in_range _ _ _ _ (cat_so_far_shape B V _ Hs) HV) as Hin.
  unfold in_range in *. apply Forall_map.
  eapply Forall_impl; [|exact Hin]. intros r Hr. now constructor.
Qed.

Lemma prefix_of_appended {X : Type} (p q : list (list X)) (m : nat) :
  Forall (fun r => length r = m) p -> length q = length p ->
  map (firstn m) (zipWith (@app X) p q) = p.
Proof.
  revert q. induction p as [|r p IH]; intros [|s q] Hp Hq; simpl in *; try lia; auto.
  inversion Hp as [|? ? Hr Hp']; subst. f_equal.
  - rewrite firstn_app, Nat.sub_diag, firstn_all. simpl. apply app_nil_r.
  - apply IH; [assumption | lia].
Qed.

Lemma prefix_of_prefix {X : Type} (t : list (list X)) (m m' : nat) :
  (m <= m')%nat -> map (firstn m) (map (firstn m') t) = map (firstn m) t.
Proof.
  intros Hle. rewrite map_map. apply map_ext. intros r.
  rewrite firstn_firstn. now rewrite Nat.min_l.
Qed.

Lemma prefix_all {X : Type} (t : list (list X)) (B m : nat) :
  shape2 t B m -> map (firstn m) t = t.
Proof.
  intros [_ H]. rewrite <- (map_id t) at 2. apply map_ext_in. intros r Hr.
  rewrite Forall_forall in H. rewrite <- (H _ Hr). apply firstn_all.
Qed.

Lemma count_true_all (l : list bool) :
  Forall (fun b => b = true) l -> Seq2Seq.count_true l = length l.
Proof.
  unfold Seq2Seq.count_true. induction 1 as [|b l Hb _ IH]; simpl; [reflexivity|].
  rewrite Hb. simpl. now rewrite IH.
Qed.

Lemma count_true_positive (z : Z) (r : list Z) :
  In z r -> (0 < Seq2Seq.count_true (map (Z.eqb z) r))%nat.
Proof.
  unfold Seq2Seq.count_true. induction r as [|x r IH]; simpl; [tauto|].
  intros [-> | Hin].
  - rewrite Z.eqb_refl. simpl. lia.
  - destruct (z =? x)%Z; simpl; [lia | auto].
Qed.

(** When every row holds the end token, the test of the loop succeeds. *)
Lemma all_finished_true (self : Seq2Seq.t) (preds : index_tensor) (B : nat) :
  length preds = B ->
  Forall (fun r => In (Seq2Seq.END_INDEX self) r) preds ->
  Seq2Seq.all_finished self preds B = true.
Proof.
  intros HB Hall. unfold Seq2Seq.all_finished.
  rewrite count_true_all.
  - rewrite !length_map, HB. apply Nat.eqb_refl.
  - rewrite map_map. apply Forall_map.
    eapply Forall_impl; [|exact Hall]. intros r Hr. cbv beta.
    apply Nat.ltb_lt. now apply count_true_positive.
Qed.

Section GreedyLoop.
Variable self : Seq2Seq.t.
Variable encoder_outputs : tensor3.
Variables V B : nat.
Hypothesis Hwf : wf_decoder V (Seq2Seq.decoder self).
Hypothesis Hstart : (0 <= Seq2Seq.START_INDEX self < Z.of_nat V)%Z.
Hypothesis HB : (0 < B)%nat.
Hypothesis Henc : length encoder_outputs = B.

Lemma greedy_init_inv (encoder_hidden : hidden_pair) :
  state_batch encoder_hidden B ->
  greedy_inv self V B (Seq2Seq.greedy_init self encoder_outputs encoder_hidden).
Proof.
  intros Hhs. unfold greedy_inv, Seq2Seq.greedy_init. simpl.
  split; [constructor|]. split; [|assumption].
  rewrite Henc. unfold cat_so_far, argmax_dim2. simpl.
  clear. induction B as [|n IH]; simpl; congruence.
Qed.

(** One iteration succeeds, keeps the invariant, counts one step and
    extends every row of predictions by one token. *)
Lemma greedy_step_ok (st : Seq2Seq.loop_state) :
  greedy_inv self V B st ->
  exists st',
    Seq2Seq.greedy_step self encoder_outputs st = Ok st' /\
    greedy_inv self V B st' /\
    steps_performed st' = S (steps_performed st) /\
    map (firstn (S (steps_performed st))) (Seq2Seq.preds st') = Seq2Seq.preds st.
Proof.
  intros Hinv.
  pose proof (inv_preds_shape _ _ _ _ Hinv) as Hshape.
  pose proof (inv_preds_in_range _ _ _ _ Hstart Hinv) as Hrange.
  destruct Hinv as (Hs & Hp & Hhs).
  destruct (decoder_forward_ok (Seq2Seq.decoder self) (last_slice (Seq2Seq.preds st))
              encoder_outputs (Seq2Seq.hidden st) V B 1 Hwf)
    as (logits & hs' & Hfw & Slog & Hhs'); try assumption.
  { eapply last_slice_shape; eauto. }
  { apply Nat.lt_0_1. }
  { now apply last_slice_in_range. }
  unfold Seq2Seq.greedy_step. rewrite Hfw. cbn [bind].
  eexists. split; [reflexivity|].
  assert (Sslice : shape3 (last_slice logits) B 1 V).
  { rewrite (last_slice_single logits B); [assumption|].
    destruct Slog as [L1 R1]. split; [assumption|].
    eapply Forall_impl; [|exact R1]. intros m [Hm _]. exact Hm. }
  pose proof (log_softmax_dim2_shape _ _ _ _ Sslice) as Sscores.
  split; [|split].
  - unfold greedy_inv. cbn [Seq2Seq.scores Seq2Seq.preds Seq2Seq.hidden].
    split; [|split; [|assumption]].
    + apply Forall_app. split; [assumption | repeat constructor; apply Sscores].
    + rewrite cat_so_far_snoc, argmax_dim2_app, <- zipWith_app_cons.
      now rewrite <- Hp.
  - unfold steps_performed. cbn [Seq2Seq.scores]. rewrite length_app. simpl. lia.
  - cbn [Seq2Seq.preds]. apply prefix_of_appended; [apply Hshape|].
    pose proof (argmax_dim2_shape _ _ _ _ Sscores) as [HL _].
    destruct Hshape as [HP _]. list_types; congruence.
Qed.

(** The loop with [n] iterations left: it ends in a state that keeps the
    invariant; it made at most [n] further steps, exactly [n] in training
    mode and at least one when [n] is positive; the rows of predictions
    only grew; and at no earlier step was the test for [break] true. *)
Lemma greedy_loop_spec (n : nat) :
  forall st, greedy_inv self V B st ->
  exists st',
    Seq2Seq.greedy_loop self encoder_outputs B n st = Ok st' /\
    greedy_inv self V B st' /\
    (steps_performed st <= steps_performed st' <= steps_performed st + n)%nat /\
    (Seq2Seq.training self = true ->
     steps_performed st' = (steps_performed st + n)%nat) /\
    ((0 < n)%nat -> (steps_performed st < steps_performed st')%nat) /\
    map (firstn (S (steps_performed st))) (Seq2Seq.preds st') = Seq2Seq.preds st /\
    (forall m, (steps_performed st < m < steps_performed st')%nat ->
       Seq2Seq.all_finished self (map (firstn (S m)) (Seq2Seq.preds st')) B
       && negb (Seq2Seq.training self) = false).
Proof.
  induction n as [|n IH]; intros st Hinv; cbn [Seq2Seq.greedy_loop].
  - exists st. split; [reflexivity|]. split; [assumption|].
    split; [lia|]. split; [intros; lia|]. split; [intros; lia|].
    split; [|intros; lia].
    eapply prefix_all. eapply inv_preds_shape; eauto.
  - destruct (greedy_step_ok st Hinv) as (st1 & Hstep & Hinv1 & Hsteps1 & Hprefix1).
    rewrite Hstep. cbn [bind].
    destruct (Seq2Seq.all_finished self (Seq2Seq.preds st1) B
              && negb (Seq2Seq.training self)) eqn:Hbreak.
    + exists st1. split; [reflexivity|]. split; [assumption|].
      split; [lia|].
      split. { intros Htr. rewrite Htr, andb_false_r in Hbreak. discriminate. }
      split; [intros; lia|]. split; [assumption|]. intros; lia.
    + destruct (IH st1 Hinv1) as (st' & Hloop & Hinv' & Hbound & Htrain & Hpos & Hprefix & Hearlier).
      exists st'. split; [assumption|]. split; [assumption|].
      split; [lia|]. split; [intros Htr; rewrite (Htrain Htr); lia|].
      split; [intros; lia|].
      split.
      * rewrite <- Hprefix1, <- Hprefix, Hsteps1.
        rewrite !prefix_of_prefix by lia. reflexivity.
      * intros m Hm.
        destruct (Nat.eq_dec m (steps_performed st1)) as [->|Hne].
        -- now rewrite Hprefix.
        -- apply Hearlier. lia.
Qed.

(** After at least one step, [decode_greedy] returns the concatenated
    scores and the predictions without the start token. *)
Lemma greedy_outcome (st : Seq2Seq.loop_state) :
  greedy_inv self V B st -> (0 < steps_performed st)%nat ->
  let scores := cat_so_far B (Seq2Seq.scores st) in
  let preds := narrow_tail (Seq2Seq.preds st) in
  cat1 (Seq2Seq.scores st) = Ok scores /\
  Seq2Seq.preds st = map (cons (Seq2Seq.START_INDEX self)) preds /\
  preds = argmax_dim2 scores /\
  shape3 scores B (steps_performed st) V /\
  shape2 preds B (steps_performed st).
Proof.
  intros (Hs & Hp & _) Hpos scores preds.
  assert (Epreds : preds = argmax_dim2 scores).
  { subst preds scores. rewrite Hp. apply narrow_tail_cons. }
  pose proof (cat_so_far_shape B V _ Hs) as Sscores.
  split; [eapply cat1_cat_so_far; eauto|].
  split; [rewrite Epreds; exact Hp|].
  split; [assumption|]. split; [assumption|].
  rewrite Epreds. eapply argmax_dim2_shape; eauto.
Qed.
End GreedyLoop.

(** ** Greedy decoding *)

(** C3: in evaluation mode the greedy loop performs at most [max_len]
    decoder steps (none when [max_len] is negative), and when every batch
    row holds the end token among its first [k] predictions it performs at
    most [k] steps.  For a positive [max_len], [decode_greedy] returns the
    scores and predictions of exactly these steps. *)
Theorem decode_greedy_eval_stops_early
        (self : Seq2Seq.t) (encoder_outputs : tensor3) (encoder_hidden : hidden_pair)
        (max_len : Z) (V B : nat) :
  Seq2Seq.training self = false ->
  wf_decoder V (Seq2Seq.decoder self) ->
  (0 <= Seq2Seq.START_INDEX self < Z.of_nat V)%Z ->
  (0 < B)%nat -> length encoder_outputs = B -> state_batch encoder_hidden B ->
  exists st,
    Seq2Seq.decode_greedy_loop self encoder_outputs encoder_hidden max_len = Ok st /\
    (Z.of_nat (steps_performed st) <= Z.max 0 max_len)%Z /\
    (forall k,
       Forall (fun row => In (Seq2Seq.END_INDEX self) (firstn k row))
              (narrow_tail (Seq2Seq.preds st)) ->
       (steps_performed st <= k)%nat) /\
    ((0 < max_len)%Z ->
     exists scores,
       Seq2Seq.decode_greedy self encoder_outputs encoder_hidden max_len
       = Ok (scores, narrow_tail (Seq2Seq.preds st)) /\
       shape3 scores B (steps_performed st) V /\
       shape2 (narrow_tail (Seq2Seq.preds st)) B (steps_performed st)).
Proof.
  intros Heval Hwf Hstart HB Henc Hhs.
  pose proof (greedy_init_inv self encoder_outputs V B Henc encoder_hidden Hhs) as Hinit.
  destruct (greedy_loop_spec self encoder_outputs V B Hwf Hstart HB Henc
              (Z.to_nat max_len) _ Hinit)
    as (st & Hloop & Hinv & Hbound & _ & Hpos & _ & Hearlier).
  change (steps_performed (Seq2Seq.greedy_init self encoder_outputs encoder_hidden))
    with 0%nat in *.
  assert (Hrun : Seq2Seq.decode_greedy_loop self encoder_outputs encoder_hidden max_len
                 = Ok st).
  { unfold Seq2Seq.decode_greedy_loop. now rewrite Henc. }
  exists st. split; [assumption|].
  split; [lia|]. split.
  - intros k Hall.
    destruct (Nat.le_gt_cases (steps_performed st) k) as [Hle | Hgt]; [assumption|].
    exfalso.
    pose proof (inv_preds_shape _ _ _ _ Hinv) as [Hlen _].
    assert (Hk : (0 < k)%nat).
    { (* a non-empty batch cannot hold the end token among no predictions *)
      destruct k as [|k]; [|apply Nat.lt_0_succ]. exfalso.
      destruct (Seq2Seq.preds st) as [|row rows]; [simpl in Hlen; lia|].
      inversion Hall as [|? ? Hrow _]. destruct Hrow. }
    specialize (Hearlier k (conj Hk Hgt)).
    rewrite Heval, andb_true_r in Hearlier.
    destruct Hinv as (_ & Hp & _).
    rewrite Hp, narrow_tail_cons in Hall.
    rewrite all_finished_true in Hearlier; [discriminate | |].
    + now rewrite length_map.
    + rewrite Hp, map_map. apply Forall_map.
      eapply Forall_impl; [|exact Hall]. intros row Hrow. simpl. now right.
  - intros Hmax.
    destruct (greedy_outcome self V B st Hinv) as (Hcat & _ & _ & Sscores & Spreds);
      [apply Hpos; lia|].
    eexists. split; [|split; eassumption].
    unfold Seq2Seq.decode_greedy. rewrite Hrun. cbn [bind]. rewrite Hcat. reflexivity.
Qed.

(** C4: in training mode the greedy loop performs exactly [max_len] decoder
    steps (none for a negative [max_len]), whatever tokens were predicted;
    for a positive [max_len], [decode_greedy] returns scores and predictions
    of [max_len] steps. *)
Theorem decode_greedy_training_runs_max_len
        (self : Seq2Seq.t) (encoder_outputs : tensor3) (encoder_hidden : hidden_pair)
        (max_len : Z) (V B : nat) :
  Seq2Seq.training self = true ->
  wf_decoder V (Seq2Seq.decoder self) ->
  (0 <= Seq2Seq.START_INDEX self < Z.of_nat V)%Z ->
  (0 < B)%nat -> length encoder_outputs = B -> state_batch encoder_hidden B ->
  exists st,
    Seq2Seq.decode_greedy_loop self encoder_outputs encoder_hidden max_len = Ok st /\
    Z.of_nat (steps_performed st) = Z.max 0 max_len /\
    ((0 < max_len)%Z ->
     exists scores,
       Seq2Seq.decode_greedy self encoder_outputs encoder_hidden max_len
       = Ok (scores, narrow_tail (Seq2Seq.preds st)) /\
       shape3 scores B (Z.to_nat max_len) V /\
       shape2 (narrow_tail (Seq2Seq.preds st)) B (Z.to_nat max_len)).
Proof.
  intros Htrain Hwf Hstart HB Henc Hhs.
  pose proof (greedy_init_inv self encoder_outputs V B Henc encoder_hidden Hhs) as Hinit.
  destruct (greedy_loop_spec self encoder_outputs V B Hwf Hstart HB Henc
              (Z.to_nat max_len) _ Hinit)
    as (st & Hloop & Hinv & _ & Hexact & _).
  specialize (Hexact Htrain).
  change (steps_performed (Seq2Seq.greedy_init self encoder_outputs encoder_hidden))
    with 0%nat in Hexact. simpl in Hexact.
  assert (Hrun : Seq2Seq.decode_greedy_loop self encoder_outputs encoder_hidden max_len
                 = Ok st).
  { unfold Seq2Seq.decode_greedy_loop. now rewrite Henc. }
  exists st. split; [assumption|]. split; [lia|].
  intros Hmax.
  destruct (greedy_outcome self V B st Hinv) as (Hcat & _ & _ & Sscores & Spreds); [lia|].
  rewrite Hexact in Sscores, Spreds.
  eexists. split; [|split; eassumption].
  unfold Seq2Seq.decode_greedy. rewrite Hrun. cbn [bind]. rewrite Hcat. reflexivity.
Qed.

(** C5: a greedy decode with a positive [max_len] performs [n >= 1] steps
    and returns predictions of shape (B, n) without the start token that
    seeded the loop, and scores of shape (B, n, V); the prediction at step
    [t] of batch item [i] is the argmax of the score row at step [t] of
    item [i]: it is the index that [max(dim=2)] gives for that row, a
    position of the row at which the score is maximal. *)
Theorem decode_greedy_predictions_match_scores
        (self : Seq2Seq.t) (encoder_outputs : tensor3) (encoder_hidden : hidden_pair)
        (max_len : Z) (V B : nat) :
  wf_decoder V (Seq2Seq.decoder self) ->
  (0 <= Seq2Seq.START_INDEX self < Z.of_nat V)%Z ->
  (0 < B)%nat -> length encoder_outputs = B -> state_batch encoder_hidden B ->
  (0 < max_len)%Z ->
  exists st scores preds,
    Seq2Seq.decode_greedy_loop self encoder_outputs encoder_hidden max_len = Ok st /\
    Seq2Seq.decode_greedy self encoder_outputs encoder_hidden max_len = Ok (scores, preds) /\
    (1 <= steps_performed st)%nat /\
    Seq2Seq.preds st = map (cons (Seq2Seq.START_INDEX self)) preds /\
    shape2 preds B (steps_performed st) /\
    shape3 scores B (steps_performed st) V /\
    forall i t, (i < B)%nat -> (t < steps_performed st)%nat ->
      let score_row := nth t (nth i scores []) [] in
      let p := nth t (nth i preds []) 0%Z in
      p = Z.of_nat (argmax score_row) /\
      (0 <= p < Z.of_nat V)%Z /\
      forall j, (j < V)%nat -> nth j score_row 0 <= nth (Z.to_nat p) score_row 0.
Proof.
  intros Hwf Hstart HB Henc Hhs Hmax.
  pose proof (greedy_init_inv self encoder_outputs V B Henc encoder_hidden Hhs) as Hinit.
  destruct (greedy_loop_spec self encoder_outputs V B Hwf Hstart HB Henc
              (Z.to_nat max_len) _ Hinit)
    as (st & Hloop & Hinv & _ & _ & Hpos & _).
  change (steps_performed (Seq2Seq.greedy_init self encoder_outputs encoder_hidden))
    with 0%nat in Hpos.
  assert (Hrun : Seq2Seq.decode_greedy_loop self encoder_outputs encoder_hidden max_len
                 = Ok st).
  { unfold Seq2Seq.decode_greedy_loop. now rewrite Henc. }
  assert (Hn : (0 < steps_performed st)%nat) by (apply Hpos; lia).
  destruct (greedy_outcome self V B st Hinv Hn)
    as (Hcat & Hseed & Hargmax & Sscores & Spreds).
  exists st, (cat_so_far B (Seq2Seq.scores st)), (narrow_tail (Seq2Seq.preds st)).
  split; [assumption|].
  split. { unfold Seq2Seq.decode_greedy. rewrite Hrun. cbn [bind]. now rewrite Hcat. }
  split; [lia|]. split; [assumption|]. split; [assumption|]. split; [assumption|].
  intros i t Hi Ht score_row p.
  assert (HV : (0 < V)%nat) by lia.
  split.
  - subst p score_row. rewrite Hargmax. eapply argmax_dim2_entry; eauto.
  - subst p score_row. rewrite Hargmax.
    exact (argmax_dim2_maximal _ B (steps_performed st) V i t Sscores HV Hi Ht).
Qed.

(** ** The small model at work

    Its output layer has zero weights and bias (0, 0, 1): whatever the
    decoder state, token 2, the end token, has the largest score. *)

Lemma tiny_output_argmax (x : vector) :
  argmax (log_softmax_vec (Linear.apply (Decoder.output_layer tiny_decoder) x)) = 2%nat.
Proof.
  unfold Linear.apply. cbn [tiny_decoder Decoder.output_layer Linear.weight Linear.bias map].
  generalize (dot x [0]) as d. intros d.
  unfold vadd, log_softmax_vec. cbn [zipWith map].
  set (l := ln _). unfold argmax, argmax_from.
  destruct (Rlt_dec (d + 0 - l) (d + 0 - l)) as [H1|H1]; [lra|].
  destruct (Rlt_dec (d + 0 - l) (d + 1 - l)) as [H2|H2]; [reflexivity | lra].
Qed.

Lemma decoder_logits_form (self : Decoder.t) (inputs : index_tensor)
      (encoder_outputs : tensor3) (hs : hidden_pair) (logits : tensor3) (hs' : hidden_pair) :
  Decoder.forward self inputs encoder_outputs hs = Ok (logits, hs') ->
  exists outputs, logits = Linear.forward3 (Decoder.output_layer self) outputs.
Proof.
  unfold Decoder.forward. intros H.
  apply bind_Ok in H. destruct H as (emb & _ & H).
  apply bind_Ok in H. destruct H as ([outs hs1] & _ & H).
  apply bind_Ok in H. destruct H as (c & _ & H).
  injection H as <- _. eauto.
Qed.

Lemma tiny_step_predicts_end (training : bool) (encoder_outputs : tensor3)
      (st st' : Seq2Seq.loop_state) :
  Seq2Seq.greedy_step (tiny_model training) encoder_outputs st = Ok st' ->
  exists step_preds,
    Seq2Seq.preds st' = zipWith (@app Z) (Seq2Seq.preds st) step_preds /\
    Forall (Forall (fun p => p = 2%Z)) step_preds.
Proof.
  unfold Seq2Seq.greedy_step. intros H.
  apply bind_Ok in H. destruct H as ([logits hs'] & Hfw & H).
  injection H as <-. cbn [Seq2Seq.preds].
  eexists. split; [reflexivity|].
  destruct (decoder_logits_form _ _ _ _ _ _ Hfw) as [outs ->].
  unfold argmax_dim2, log_softmax_dim2, last_slice, Linear.forward3.
  rewrite !map_map. apply Forall_forall. intros r Hr.
  apply in_map_iff in Hr. destruct Hr as [m [<- _]].
  rewrite !map_map. apply Forall_map. apply Forall_skipn.
  apply Forall_map. apply Forall_forall. intros v _.
  cbn [tiny_model Seq2Seq.decoder]. now rewrite tiny_output_argmax.
Qed.

Lemma tiny_step (training : bool) (st : Seq2Seq.loop_state) (row : list Z) :
  greedy_inv (tiny_model training) 3 1 st ->
  Seq2Seq.preds st = [row] ->
  exists st',
    Seq2Seq.greedy_step (tiny_model training) [[[0; 0]]] st = Ok st' /\
    greedy_inv (tiny_model training) 3 1 st' /\
    steps_performed st' = S (steps_performed st) /\
    Seq2Seq.preds st' = [row ++ [2%Z]].
Proof.
  intros Hinv Hrow.
  assert (Hwf : wf_decoder 3 (Seq2Seq.decoder (tiny_model training))).
  { repeat split. }
  assert (Hstart : (0 <= Seq2Seq.START_INDEX (tiny_model training) < Z.of_nat 3)%Z).
  { simpl. lia. }
  destruct (greedy_step_ok (tiny_model training) [[[0; 0]]] 3 1 Hwf Hstart
              Nat.lt_0_1 eq_refl st Hinv) as (st' & Hstep & Hinv' & Hsteps & _).
  exists st'. split; [assumption|]. split; [assumption|]. split; [assumption|].
  destruct (tiny_step_predicts_end _ _ _ _ Hstep) as (sp & Hsp & Hall).
  pose proof (inv_preds_shape _ _ _ _ Hinv) as [_ Hlen].
  pose proof (inv_preds_shape _ _ _ _ Hinv') as [Hone Hlen'].
  rewrite Hsp, Hrow in *. rewrite Hsteps in Hlen'.
  destruct sp as [|s sp]; [discriminate|].
  cbn [zipWith] in *. f_equal. f_equal.
  inversion Hlen as [|? ? Lr _]; subst. inversion Hlen' as [|? ? Lr' _]; subst.
  inversion Hall as [|? ? Hs _]; subst.
  rewrite length_app, Lr in Lr'.
  destruct s as [|x [|y s]]; simpl in Lr'; try lia.
  inversion Hs; subst. reflexivity.
Qed.

Lemma tiny_init_inv (training : bool) :
  greedy_inv (tiny_model training) 3 1
             (Seq2Seq.greedy_init (tiny_model training) [[[0; 0]]] ([[[0]]], [[[0]]])).
Proof.
  apply greedy_init_inv; [reflexivity|]. split; reflexivity.
Qed.

(** In evaluation mode the small model stops after its first step, which
    predicts the end token, although [max_len] is 5. *)
Example tiny_eval_stops_after_first_step :
  exists st,
    Seq2Seq.decode_greedy_loop (tiny_model false) [[[0; 0]]] ([[[0]]], [[[0]]]) 5 = Ok st /\
    steps_performed st = 1%nat /\ Seq2Seq.preds st = [[1; 2]%Z].
Proof.
  destruct (tiny_step false _ [1%Z] (tiny_init_inv false) eq_refl)
    as (st1 & Hstep & _ & Hsteps & Hpreds).
  exists st1. split; [|split; assumption].
  unfold Seq2Seq.decode_greedy_loop. change (Z.to_nat 5) with 5%nat.
  cbn [Seq2Seq.greedy_loop]. rewrite Hstep. cbn [bind]. rewrite Hpreds. reflexivity.
Qed.

(** In training mode it performs all three steps of [max_len = 3] and
    predicts the end token at each of them. *)
Example tiny_training_runs_three_steps :
  exists st,
    Seq2Seq.decode_greedy_loop (tiny_model true) [[[0; 0]]] ([[[0]]], [[[0]]]) 3 = Ok st /\
    steps_performed st = 3%nat /\ Seq2Seq.preds st = [[1; 2; 2; 2]%Z].
Proof.
  destruct (tiny_step true _ [1%Z] (tiny_init_inv true) eq_refl)
    as (st1 & Hstep1 & Hinv1 & Hsteps1 & Hpreds1).
  destruct (tiny_step true st1 _ Hinv1 Hpreds1)
    as (st2 & Hstep2 & Hinv2 & Hsteps2 & Hpreds2).
  destruct (tiny_step true st2 _ Hinv2 Hpreds2)
    as (st3 & Hstep3 & Hinv3 & Hsteps3 & Hpreds3).
  exists st3. split; [|split].
  - unfold Seq2Seq.decode_greedy_loop. change (Z.to_nat 3) with 3%nat.
    cbn [Seq2Seq.greedy_loop].
    rewrite Hstep1. cbn [bind]. rewrite Hpreds1.
    replace (Seq2Seq.all_finished _ _ _ && _) with false by reflexivity.
    rewrite Hstep2. cbn [bind]. rewrite Hpreds2.
    replace (Seq2Seq.all_finished _ _ _ && _) with false by reflexivity.
    rewrite Hstep3. cbn [bind]. rewrite Hpreds3. reflexivity.
  - rewrite Hsteps3, Hsteps2, Hsteps1. reflexivity.
  - exact Hpreds3.
Qed.

(** ** The theorems at the small model *)

Lemma tiny_wf_decoder (training : bool) :
  wf_decoder 3 (Seq2Seq.decoder (tiny_model training)).
Proof. repeat split. Defined.

Lemma tiny_start_in_range (training : bool) :
  (0 <= Seq2Seq.START_INDEX (tiny_model training) < Z.of_nat 3)%Z.
Proof. simpl. lia. Defined.

Lemma tiny_state_batch : state_batch ([[[0]]], [[[0]]]) 1.
Proof. split; reflexivity. Defined.

Lemma decode_forced_scores_and_predictions_witness :
  exists scores preds,
    Seq2Seq.decode_forced (tiny_model true) [[1; 0]%Z] [[[0; 0]]] ([[[0]]], [[[0]]])
    = Ok (scores, preds) /\
    shape3 scores 1 2 3 /\ shape2 preds 1 2.
Proof.
  assert (Hshape : shape2 [[1; 0]%Z] 1 2).
  { split; [reflexivity|]. repeat constructor. }
  assert (Hin : in_range 3 [[1; 0]%Z]).
  { repeat constructor; simpl; lia. }
  destruct (decode_forced_scores_and_predictions
              (tiny_model true) [[1; 0]%Z] [[[0; 0]]] ([[[0]]], [[[0]]]) 3 1 2
              (tiny_wf_decoder true) Hshape Nat.lt_0_1 (Nat.lt_0_succ 1) Hin
              eq_refl tiny_state_batch)
    as (logits & hs' & scores & preds & _ & Hforced & _ & Sscores & _ & Spreds & _).
  exists scores, preds.
  split; [exact Hforced|]. split; [exact Sscores | exact Spreds].
Defined.

Lemma decode_greedy_eval_stops_early_witness :
  exists st,
    Seq2Seq.decode_greedy_loop (tiny_model false) [[[0; 0]]] ([[[0]]], [[[0]]]) 5 = Ok st /\
    (steps_performed st <= 1)%nat.
Proof.
  destruct (decode_greedy_eval_stops_early
              (tiny_model false) [[[0; 0]]] ([[[0]]], [[[0]]]) 5 3 1
              eq_refl (tiny_wf_decoder false) (tiny_start_in_range false)
              Nat.lt_0_1 eq_refl tiny_state_batch)
    as (st & Hrun & _ & Hk & _).
  exists st. split; [exact Hrun|].
  apply Hk.
  destruct tiny_eval_stops_after_first_step as (st0 & Hrun0 & _ & Hpreds0).
  rewrite Hrun in Hrun0. injection Hrun0 as <-.
  rewrite Hpreds0. repeat constructor.
Defined.

Lemma decode_greedy_training_runs_max_len_witness :
  exists st,
    Seq2Seq.decode_greedy_loop (tiny_model true) [[[0; 0]]] ([[[0]]], [[[0]]]) 3 = Ok st /\
    Z.of_nat (steps_performed st) = 3%Z.
Proof.
  destruct (decode_greedy_training_runs_max_len
              (tiny_model true) [[[0; 0]]] ([[[0]]], [[[0]]]) 3 3 1
              eq_refl (tiny_wf_decoder true) (tiny_start_in_range true)
              Nat.lt_0_1 eq_refl tiny_state_batch)
    as (st & Hrun & Hsteps & _).
  exists st. split; [exact Hrun | exact Hsteps].
Defined.

Lemma decode_greedy_predictions_match_scores_witness :
  exists st scores preds,
    Seq2Seq.decode_greedy (tiny_model false) [[[0; 0]]] ([[[0]]], [[[0]]]) 5
    = Ok (scores, preds) /\
    Seq2Seq.preds st = map (cons 1%Z) preds /\
    shape2 preds 1 (steps_performed st) /\
    shape3 scores 1 (steps_performed st) 3.
Proof.
  destruct (decode_greedy_predictions_match_scores
              (tiny_model false) [[[0; 0]]] ([[[0]]], [[[0]]]) 5 3 1
              (tiny_wf_decoder false) (tiny_start_in_range false)
              Nat.lt_0_1 eq_refl tiny_state_batch eq_refl)
    as (st & scores & preds & _ & Hdec & _ & Hseed & Spreds & Sscores & _).
  exists st, scores, preds.
  split; [exact Hdec|]. split; [exact Hseed|]. split; [exact Spreds | exact Sscores].
Defined.

(** * Further properties of the decoding code *)

(** ** Predictions and scores of teacher forcing *)

(** X1: teacher forcing takes its predictions from the raw logits and its
    scores from their log-softmax; every prediction that [decode_forced]
    returns is a position of its row of the returned scores at which the
    score is maximal. *)
Theorem decode_forced_predictions_maximise_scores
        (self : Seq2Seq.t) (targets : index_tensor) (encoder_outputs : tensor3)
        (encoder_hidden : hidden_pair) (V B T : nat) :
  wf_decoder V (Seq2Seq.decoder self) ->
  shape2 targets B T -> (0 < B)%nat -> (0 < T)%nat ->
  in_range V targets ->
  length encoder_outputs = B -> state_batch encoder_hidden B ->
  exists scores preds,
    Seq2Seq.decode_forced self targets encoder_outputs encoder_hidden
    = Ok (scores, preds) /\
    shape3 scores B T V /\ shape2 preds B T /\
    forall i t, (i < B)%nat -> (t < T)%nat ->
      let score_row := nth t (nth i scores []) [] in
      let p := nth t (nth i preds []) 0%Z in
      (0 <= p < Z.of_nat V)%Z /\
      forall j, (j < V)%nat -> nth j score_row 0 <= nth (Z.to_nat p) score_row 0.
Proof.
  intros Hwf Hshape HB HT Hin Henc Hhs.
  pose proof (in_range_vocab_positive V B T targets Hin Hshape HB HT) as HV.
  destruct (decoder_forward_ok _ _ _ _ V B T Hwf Hshape HB HT Hin Henc Hhs)
    as (logits & hs' & Hfw & Slog & _).
  exists (log_softmax_dim2 logits), (argmax_dim2 logits).
  split. { unfold Seq2Seq.decode_forced. rewrite Hfw. reflexivity. }
  split; [now apply log_softmax_dim2_shape|].
  split; [eapply argmax_dim2_shape; eauto|].
  intros i t Hi Ht.
  exact (argmax_dim2_maximal_score logits B T V i t Slog HV Hi Ht).
Qed.

Lemma decode_forced_predictions_maximise_scores_witness :
  exists scores preds,
    Seq2Seq.decode_forced (tiny_model true) [[1; 0]%Z] [[[0; 0]]] ([[[0]]], [[[0]]])
    = Ok (scores, preds) /\
    forall j, (j < 3)%nat ->
      nth j (nth 1 (nth 0 scores []) []) 0
      <= nth (Z.to_nat (nth 1 (nth 0 preds []) 0%Z)) (nth 1 (nth 0 scores []) []) 0.
Proof.
  assert (Hshape : shape2 [[1; 0]%Z] 1 2).
  { split; [reflexivity|]. repeat constructor. }
  assert (Hin : in_range 3 [[1; 0]%Z]).
  { repeat constructor; simpl; lia. }
  destruct (decode_forced_predictions_maximise_scores
              (tiny_model true) [[1; 0]%Z] [[[0; 0]]] ([[[0]]], [[[0]]]) 3 1 2
              (tiny_wf_decoder true) Hshape Nat.lt_0_1 (Nat.lt_0_succ 1) Hin
              eq_refl tiny_state_batch)
    as (scores & preds & Hforced & _ & _ & Hmax).
  exists scores, preds. split; [exact Hforced|].
  exact (proj2 (Hmax 0%nat 1%nat Nat.lt_0_1 (Nat.lt_succ_diag_r 1))).
Defined.

(** ** Empty target sequences *)

Lemma mapM_all_nil {X Y : Type} (f : X -> result Y) (t : list (list X)) :
  Forall (fun r => r = []) t ->
  mapM (mapM f) t = Ok (map (fun _ => []) t).
Proof.
  induction 1 as [|r t Hr _ IH]; simpl; [reflexivity|].
  rewrite Hr. simpl. now rewrite IH.
Qed.

(** X2: for a batch of targets of length 0 the decoder runs no step and
    [torch.cat] is given an empty list: [Decoder.forward] and with it
    [decode_forced] raise [RuntimeError]; no empty result is returned. *)
Theorem decode_forced_empty_targets
        (self : Seq2Seq.t) (targets : index_tensor) (encoder_outputs : tensor3)
        (encoder_hidden : hidden_pair) (B : nat) :
  shape2 targets B 0 -> (0 < B)%nat ->
  Decoder.forward (Seq2Seq.decoder self) targets encoder_outputs encoder_hidden
  = Raise RuntimeError /\
  Seq2Seq.decode_forced self targets encoder_outputs encoder_hidden
  = Raise RuntimeError.
Proof.
  intros Hshape HB.
  assert (Hfw : Decoder.forward (Seq2Seq.decoder self) targets encoder_outputs
                                encoder_hidden = Raise RuntimeError).
  { unfold Decoder.forward, Embedding.forward.
    rewrite (shape2_size1 _ _ _ Hshape HB).
    rewrite mapM_all_nil; [reflexivity|].
    destruct Hshape as [_ Hrows].
    eapply Forall_impl; [|exact Hrows]. intros r Hr. now destruct r. }
  split; [assumption|].
  unfold Seq2Seq.decode_forced. now rewrite Hfw.
Qed.

Lemma decode_forced_empty_targets_witness :
  Decoder.forward (Seq2Seq.decoder (tiny_model true)) [[]; []] [[[0; 0]]; [[0; 0]]]
                  ([[[0]; [0]]], [[[0]; [0]]]) = Raise RuntimeError /\
  Seq2Seq.decode_forced (tiny_model true) [[]; []] [[[0; 0]]; [[0; 0]]]
                        ([[[0]; [0]]], [[[0]; [0]]]) = Raise RuntimeError.
Proof.
  apply (decode_forced_empty_targets (tiny_model true) [[]; []] _ _ 2).
  - split; [reflexivity|]. repeat constructor.
  - apply Nat.lt_0_succ.
Defined.

(** ** A start token outside the target vocabulary *)

(** X3: the greedy loop feeds [START_INDEX] to the decoder's embedding at
    its first step; when [START_INDEX] is negative or not below the size of
    the target vocabulary, [decode_greedy] on a non-empty batch with a
    positive [max_len] raises [IndexError]. *)
Theorem decode_greedy_start_out_of_range
        (self : Seq2Seq.t) (encoder_outputs : tensor3) (encoder_hidden : hidden_pair)
        (max_len : Z) :
  (Seq2Seq.START_INDEX self < 0)%Z \/
  (Z.of_nat (target_vocab_size self) <= Seq2Seq.START_INDEX self)%Z ->
  (0 < length encoder_outputs)%nat -> (0 < max_len)%Z ->
  Seq2Seq.decode_greedy self encoder_outputs encoder_hidden max_len = Raise IndexError.
Proof.
  intros Hbad HB Hmax.
  unfold Seq2Seq.decode_greedy, Seq2Seq.decode_greedy_loop.
  destruct (Z.to_nat max_len) as [|n] eqn:En; [lia|].
  cbn [Seq2Seq.greedy_loop]. unfold Seq2Seq.greedy_step, Decoder.forward.
  rewrite embedding_forward_out_of_range; [reflexivity|].
  cbn [Seq2Seq.greedy_init Seq2Seq.preds].
  destruct (length encoder_outputs) as [|b]; [lia|].
  simpl. left. left. exact Hbad.
Qed.

Lemma decode_greedy_start_out_of_range_witness :
  Seq2Seq.decode_greedy
    {| Seq2Seq.encoder := tiny_encoder; Seq2Seq.decoder := tiny_decoder;
       Seq2Seq.START_INDEX := 3; Seq2Seq.END_INDEX := 2; Seq2Seq.training := false |}
    [[[0; 0]]] ([[[0]]], [[[0]]]) 5 = Raise IndexError.
Proof.
  apply decode_greedy_start_out_of_range.
  - right. simpl. lia.
  - apply Nat.lt_0_1.
  - reflexivity.
Defined.

(** ** More on the greedy loop *)

Lemma greedy_step_unfold (self : Seq2Seq.t) (encoder_outputs : tensor3)
      (st st' : Seq2Seq.loop_state) :
  Seq2Seq.greedy_step self encoder_outputs st = Ok st' ->
  exists logits hs',
    Decoder.forward (Seq2Seq.decoder self) (last_slice (Seq2Seq.preds st))
                    encoder_outputs (Seq2Seq.hidden st) = Ok (logits, hs') /\
    Seq2Seq.preds st'
    = zipWith (@app Z) (Seq2Seq.preds st)
              (argmax_dim2 (log_softmax_dim2 (last_slice logits))) /\
    Seq2Seq.scores st' = Seq2Seq.scores st ++ [log_softmax_dim2 (last_slice logits)] /\
    Seq2Seq.hidden st' = hs'.
Proof.
  unfold Seq2Seq.greedy_step. intros H.
  apply bind_Ok in H. destruct H as ([logits hs'] & Hfw & H).
  injection H as <-. exists logits, hs'. repeat split. exact Hfw.
Qed.

Lemma greedy_step_counts (self : Seq2Seq.t) (encoder_outputs : tensor3)
      (st st' : Seq2Seq.loop_state) :
  Seq2Seq.greedy_step self encoder_outputs st = Ok st' ->
  steps_performed st' = S (steps_performed st).
Proof.
  intros H. destruct (greedy_step_unfold _ _ _ _ H) as (l & h & _ & _ & Hs & _).
  unfold steps_performed. rewrite Hs, length_app. simpl. lia.
Qed.

(** The step of the loop looks at the decoder only. *)
Lemma greedy_step_decoder_only (self self' : Seq2Seq.t) (encoder_outputs : tensor3)
      (st : Seq2Seq.loop_state) :
  Seq2Seq.decoder self = Seq2Seq.decoder self' ->
  Seq2Seq.greedy_step self encoder_outputs st
  = Seq2Seq.greedy_step self' encoder_outputs st.
Proof. unfold Seq2Seq.greedy_step. now intros ->. Qed.

(** A property kept by every step is kept by the loop. *)
Lemma greedy_loop_invariant (self : Seq2Seq.t) (encoder_outputs : tensor3) (B : nat)
      (P : Seq2Seq.loop_state -> Prop) :
  (forall st st', P st -> Seq2Seq.greedy_step self encoder_outputs st = Ok st' -> P st') ->
  forall n st st',
    P st -> Seq2Seq.greedy_loop self encoder_outputs B n st = Ok st' -> P st'.
Proof.
  intros Hstep. induction n as [|n IH]; intros st st' HP Hloop;
    cbn [Seq2Seq.greedy_loop] in Hloop.
  - now injection Hloop as <-.
  - apply bind_Ok in Hloop. destruct Hloop as (st1 & H1 & Hloop).
    pose proof (Hstep _ _ HP H1) as HP1.
    destruct (Seq2Seq.all_finished self (Seq2Seq.preds st1) B
              && negb (Seq2Seq.training self)).
    + now injection Hloop as <-.
    + eapply IH; eauto.
Qed.

(** The loop ends before its bound only through [break]. *)
Lemma greedy_loop_stop (self : Seq2Seq.t) (encoder_outputs : tensor3) (B : nat) :
  forall n st st',
    Seq2Seq.greedy_loop self encoder_outputs B n st = Ok st' ->
    (steps_performed st <= steps_performed st' <= steps_performed st + n)%nat /\
    ((steps_performed st' < steps_performed st + n)%nat ->
     Seq2Seq.all_finished self (Seq2Seq.preds st') B = true /\
     Seq2Seq.training self = false) /\
    exists new, Seq2Seq.scores st' = Seq2Seq.scores st ++ new.
Proof.
  induction n as [|n IH]; intros st st' Hloop; cbn [Seq2Seq.greedy_loop] in Hloop.
  - injection Hloop as <-. split; [lia|]. split; [lia|].
    exists []. now rewrite app_nil_r.
  - apply bind_Ok in Hloop. destruct Hloop as (st1 & H1 & Hloop).
    pose proof (greedy_step_counts _ _ _ _ H1) as Hc.
    destruct (greedy_step_unfold _ _ _ _ H1) as (l & h & _ & _ & Hs & _).
    destruct (Seq2Seq.all_finished self (Seq2Seq.preds st1) B
              && negb (Seq2Seq.training self)) eqn:Hbreak.
    + injection Hloop as <-. split; [lia|]. split; [|eauto].
      intros _. apply andb_prop in Hbreak. destruct Hbreak as [Hf Ht].
      split; [assumption|]. now destruct (Seq2Seq.training self).
    + destruct (IH _ _ Hloop) as (Hb & Hearly & new & Hnew).
      split; [lia|]. split.
      * intros Hlt. apply Hearly. lia.
      * exists ([log_softmax_dim2 (last_slice l)] ++ new).
        now rewrite Hnew, Hs, <- app_assoc.
Qed.

Lemma count_true_le (l : list bool) : (Seq2Seq.count_true l <= length l)%nat.
Proof.
  unfold Seq2Seq.count_true. induction l as [|b l IH]; simpl; [lia|].
  destruct b; simpl; lia.
Qed.

Lemma count_true_full (l : list bool) :
  Seq2Seq.count_true l = length l -> Forall (fun b => b = true) l.
Proof.
  induction l as [|b l IH]; intros H; [constructor|].
  pose proof (count_true_le l) as Hle.
  unfold Seq2Seq.count_true in *. destruct b; simpl in H.
  - constructor; [reflexivity|]. apply IH. lia.
  - lia.
Qed.

Lemma count_true_hit (z : Z) (r : list Z) :
  (0 < Seq2Seq.count_true (map (Z.eqb z) r))%nat -> In z r.
Proof.
  unfold Seq2Seq.count_true. induction r as [|x r IH]; simpl; [lia|].
  destruct (Z.eqb_spec z x) as [->|Hne]; simpl; [now left|].
  intros H. right. now apply IH.
Qed.

(** On a batch of [B] rows the test of the loop holds exactly when every
    row holds the end token. *)
Lemma all_finished_rows (self : Seq2Seq.t) (preds : index_tensor) :
  Seq2Seq.all_finished self preds (length preds) = true <->
  Forall (fun r => In (Seq2Seq.END_INDEX self) r) preds.
Proof.
  split; [|now apply all_finished_true].
  unfold Seq2Seq.all_finished. intros H. apply Nat.eqb_eq in H.
  assert (Hall : Forall (fun b => b = true)
                   (map (fun n => (0 <? n)%nat)
                      (map (fun r => Seq2Seq.count_true
                                       (map (Z.eqb (Seq2Seq.END_INDEX self)) r)) preds))).
  { apply count_true_full. now rewrite !length_map. }
  rewrite map_map in Hall. apply Forall_map in Hall.
  eapply Forall_impl; [|exact Hall]. intros r Hr. cbv beta in Hr.
  apply count_true_hit. now apply Nat.ltb_lt.
Qed.

(** X4: in evaluation mode, when the greedy loop ends before [max_len]
    steps, every row of its running predictions, the start token included,
    holds the end token; and after no earlier step did every row hold it.
    The loop stops at the first step at which the whole batch is finished. *)
Theorem decode_greedy_eval_stop_point
        (self : Seq2Seq.t) (encoder_outputs : tensor3) (encoder_hidden : hidden_pair)
        (max_len : Z) (V B : nat) :
  Seq2Seq.training self = false ->
  wf_decoder V (Seq2Seq.decoder self) ->
  (0 <= Seq2Seq.START_INDEX self < Z.of_nat V)%Z ->
  (0 < B)%nat -> length encoder_outputs = B -> state_batch encoder_hidden B ->
  exists st,
    Seq2Seq.decode_greedy_loop self encoder_outputs encoder_hidden max_len = Ok st /\
    ((steps_performed st < Z.to_nat max_len)%nat ->
     Forall (fun row => In (Seq2Seq.END_INDEX self) row) (Seq2Seq.preds st)) /\
    (forall m, (0 < m < steps_performed st)%nat ->
       ~ Forall (fun row => In (Seq2Seq.END_INDEX self) (firstn (S m) row))
                (Seq2Seq.preds st)).
Proof.
  intros Heval Hwf Hstart HB Henc Hhs.
  pose proof (greedy_init_inv self encoder_outputs V B Henc encoder_hidden Hhs) as Hinit.
  destruct (greedy_loop_spec self encoder_outputs V B Hwf Hstart HB Henc
              (Z.to_nat max_len) _ Hinit)
    as (st & Hloop & Hinv & _ & _ & _ & _ & Hearlier).
  change (steps_performed (Seq2Seq.greedy_init self encoder_outputs encoder_hidden))
    with 0%nat in *.
  pose proof (inv_preds_shape _ _ _ _ Hinv) as [Hlen _].
  exists st. split; [unfold Seq2Seq.decode_greedy_loop; now rewrite Henc|]. split.
  - intros Hlt.
    destruct (greedy_loop_stop _ _ _ _ _ _ Hloop) as (_ & Hearly & _).
    destruct Hearly as [Hfin _]; [exact Hlt|].
    apply all_finished_rows. now rewrite Hlen.
  - intros m Hm Hall.
    specialize (Hearlier m Hm). rewrite Heval, andb_true_r in Hearlier.
    rewrite all_finished_true in Hearlier; [discriminate | |].
    + now rewrite length_map.
    + now apply Forall_map.
Qed.

Lemma decode_greedy_eval_stop_point_witness :
  exists st,
    Seq2Seq.decode_greedy_loop (tiny_model false) [[[0; 0]]] ([[[0]]], [[[0]]]) 5 = Ok st /\
    Forall (fun row => In 2%Z row) (Seq2Seq.preds st).
Proof.
  destruct (decode_greedy_eval_stop_point
              (tiny_model false) [[[0; 0]]] ([[[0]]], [[[0]]]) 5 3 1
              eq_refl (tiny_wf_decoder false) (tiny_start_in_range false)
              Nat.lt_0_1 eq_refl tiny_state_batch)
    as (st & Hrun & Hearly & _).
  exists st. split; [exact Hrun|].
  apply Hearly.
  destruct tiny_eval_stops_after_first_step as (st0 & Hrun0 & Hsteps0 & _).
  rewrite Hrun in Hrun0. injection Hrun0 as <-.
  rewrite Hsteps0. simpl. lia.
Defined.

(** X5: the test for [break] compares the whole of [preds], whose first
    column is the start token, with [END_INDEX].  With
    [START_INDEX = END_INDEX] every row counts as finished from the start:
    in evaluation mode the loop performs exactly one step for every
    positive [max_len], whatever the model predicts. *)
Theorem decode_greedy_eval_start_is_end
        (self : Seq2Seq.t) (encoder_outputs : tensor3) (encoder_hidden : hidden_pair)
        (max_len : Z) (V B : nat) :
  Seq2Seq.training self = false ->
  Seq2Seq.START_INDEX self = Seq2Seq.END_INDEX self ->
  wf_decoder V (Seq2Seq.decoder self) ->
  (0 <= Seq2Seq.START_INDEX self < Z.of_nat V)%Z ->
  (0 < B)%nat -> length encoder_outputs = B -> state_batch encoder_hidden B ->
  (0 < max_len)%Z ->
  exists st,
    Seq2Seq.decode_greedy_loop self encoder_outputs encoder_hidden max_len = Ok st /\
    steps_performed st = 1%nat.
Proof.
  intros Heval Hse Hwf Hstart HB Henc Hhs Hmax.
  pose proof (greedy_init_inv self encoder_outputs V B Henc encoder_hidden Hhs) as Hinit.
  destruct (greedy_loop_spec self encoder_outputs V B Hwf Hstart HB Henc
              (Z.to_nat max_len) _ Hinit)
    as (st & Hloop & Hinv & _ & _ & Hpos & _ & Hearlier).
  change (steps_performed (Seq2Seq.greedy_init self encoder_outputs encoder_hidden))
    with 0%nat in *.
  exists st. split; [unfold Seq2Seq.decode_greedy_loop; now rewrite Henc|].
  assert (H1 : (0 < steps_performed st)%nat) by (apply Hpos; lia).
  destruct (Nat.le_gt_cases (steps_performed st) 1) as [Hle | Hgt]; [lia|].
  exfalso.
  specialize (Hearlier 1%nat (conj Nat.lt_0_1 Hgt)).
  rewrite Heval, andb_true_r in Hearlier.
  pose proof (inv_preds_shape _ _ _ _ Hinv) as [Hlen _].
  destruct Hinv as (_ & Hp & _).
  rewrite all_finished_true in Hearlier; [discriminate | |].
  - now rewrite length_map.
  - rewrite Hp, map_map. apply Forall_map. apply Forall_forall.
    intros row _. simpl. left. exact Hse.
Qed.

Lemma decode_greedy_eval_start_is_end_witness :
  exists st,
    Seq2Seq.decode_greedy_loop
      {| Seq2Seq.encoder := tiny_encoder; Seq2Seq.decoder := tiny_decoder;
         Seq2Seq.START_INDEX := 0; Seq2Seq.END_INDEX := 0; Seq2Seq.training := false |}
      [[[0; 0]]] ([[[0]]], [[[0]]]) 5 = Ok st /\
    steps_performed st = 1%nat.
Proof.
  apply (decode_greedy_eval_start_is_end _ [[[0; 0]]] ([[[0]]], [[[0]]]) 5 3 1).
  - reflexivity.
  - reflexivity.
  - repeat split.
  - simpl. lia.
  - apply Nat.lt_0_1.
  - reflexivity.
  - exact tiny_state_batch.
  - reflexivity.
Defined.

(** ** Evaluation mode against training mode *)

Lemma training_loop_app (self : Seq2Seq.t) (encoder_outputs : tensor3) (B : nat) :
  Seq2Seq.training self = true ->
  forall k j st,
    Seq2Seq.greedy_loop self encoder_outputs B (k + j) st
    = bind (Seq2Seq.greedy_loop self encoder_outputs B k st)
           (Seq2Seq.greedy_loop self encoder_outputs B j).
Proof.
  intros Htr. induction k as [|k IH]; intros j st; [reflexivity|].
  cbn [Nat.add Seq2Seq.greedy_loop].
  destruct (Seq2Seq.greedy_step self encoder_outputs st) as [st1|e]; [|reflexivity].
  cbn [bind]. rewrite Htr, andb_false_r. apply IH.
Qed.

(** A run in evaluation mode is the run in training mode with the number
    of steps that the evaluation made. *)
Lemma eval_loop_as_training (self : Seq2Seq.t) (encoder_outputs : tensor3) (B : nat) :
  forall n st st',
    Seq2Seq.greedy_loop (set_training false self) encoder_outputs B n st = Ok st' ->
    Seq2Seq.greedy_loop (set_training true self) encoder_outputs B
                        (steps_performed st' - steps_performed st) st = Ok st'.
Proof.
  induction n as [|n IH]; intros st st' Hloop; cbn [Seq2Seq.greedy_loop] in Hloop.
  - injection Hloop as <-. now rewrite Nat.sub_diag.
  - apply bind_Ok in Hloop. destruct Hloop as (st1 & H1 & Hloop).
    pose proof (greedy_step_counts _ _ _ _ H1) as Hc.
    rewrite (greedy_step_decoder_only _ (set_training true self)) in H1 by reflexivity.
    destruct (Seq2Seq.all_finished (set_training false self) (Seq2Seq.preds st1) B
              && negb (Seq2Seq.training (set_training false self))).
    + injection Hloop as <-. rewrite Hc.
      replace (S (steps_performed st) - steps_performed st)%nat with 1%nat by lia.
      cbn [Seq2Seq.greedy_loop]. rewrite H1. cbn [bind].
      cbn [set_training Seq2Seq.training negb]. now rewrite andb_false_r.
    + destruct (greedy_loop_stop _ _ _ _ _ _ Hloop) as (Hb & _).
      replace (steps_performed st' - steps_performed st)%nat
        with (S (steps_performed st' - steps_performed st1)) by lia.
      cbn [Seq2Seq.greedy_loop]. rewrite H1. cbn [bind].
      cbn [set_training Seq2Seq.training negb]. rewrite andb_false_r.
      now apply IH.
Qed.

(** X6: the mode only decides where the greedy loop stops.  For the same
    model and inputs the run in evaluation mode makes no more steps than
    the run in training mode, and its predictions and scores are the first
    columns, respectively entries, of those of the training run. *)
Theorem decode_greedy_eval_prefix_of_training
        (self : Seq2Seq.t) (encoder_outputs : tensor3) (encoder_hidden : hidden_pair)
        (max_len : Z) (V B : nat) :
  wf_decoder V (Seq2Seq.decoder self) ->
  (0 <= Seq2Seq.START_INDEX self < Z.of_nat V)%Z ->
  (0 < B)%nat -> length encoder_outputs = B -> state_batch encoder_hidden B ->
  exists st_eval st_train,
    Seq2Seq.decode_greedy_loop (set_training false self) encoder_outputs encoder_hidden
                               max_len = Ok st_eval /\
    Seq2Seq.decode_greedy_loop (set_training true self) encoder_outputs encoder_hidden
                               max_len = Ok st_train /\
    (steps_performed st_eval <= steps_performed st_train)%nat /\
    map (firstn (S (steps_performed st_eval))) (Seq2Seq.preds st_train)
    = Seq2Seq.preds st_eval /\
    firstn (steps_performed st_eval) (Seq2Seq.scores st_train) = Seq2Seq.scores st_eval.
Proof.
  intros Hwf Hstart HB Henc Hhs.
  set (n := Z.to_nat max_len).
  set (init := Seq2Seq.greedy_init self encoder_outputs encoder_hidden).
  assert (Hinit_e : greedy_inv (set_training false self) V B init).
  { apply (greedy_init_inv (set_training false self) encoder_outputs V B Henc _ Hhs). }
  assert (Hinit_t : greedy_inv (set_training true self) V B init).
  { apply (greedy_init_inv (set_training true self) encoder_outputs V B Henc _ Hhs). }
  destruct (greedy_loop_spec (set_training false self) encoder_outputs V B Hwf Hstart
              HB Henc n init Hinit_e) as (st_e & Hloop_e & _).
  destruct (greedy_loop_stop _ _ _ _ _ _ Hloop_e) as (Hbound & _).
  pose proof (eval_loop_as_training _ _ _ _ _ _ Hloop_e) as Hsame.
  change (steps_performed init) with 0%nat in *. rewrite Nat.sub_0_r in Hsame.
  assert (Hinv_e : greedy_inv (set_training true self) V B st_e).
  { destruct (greedy_loop_spec (set_training true self) encoder_outputs V B Hwf Hstart
                HB Henc (steps_performed st_e) init Hinit_t) as (st & Hl & Hi & _).
    rewrite Hsame in Hl. now injection Hl as <-. }
  destruct (greedy_loop_spec (set_training true self) encoder_outputs V B Hwf Hstart
              HB Henc (n - steps_performed st_e) st_e Hinv_e)
    as (st_t & Hloop_t & _ & Hb_t & _ & _ & Hprefix & _).
  destruct (greedy_loop_stop _ _ _ _ _ _ Hloop_t) as (_ & _ & new & Hnew).
  exists st_e, st_t.
  split; [unfold Seq2Seq.decode_greedy_loop; now rewrite Henc|].
  split.
  { unfold Seq2Seq.decode_greedy_loop. rewrite Henc.
    change (Seq2Seq.greedy_init (set_training true self) encoder_outputs encoder_hidden)
      with init.
    change (Z.to_nat max_len) with n.
    replace n with (steps_performed st_e + (n - steps_performed st_e))%nat by lia.
    rewrite training_loop_app by reflexivity.
    rewrite Hsame. exact Hloop_t. }
  split; [lia|]. split; [exact Hprefix|].
  rewrite Hnew. unfold steps_performed.
  rewrite firstn_app, Nat.sub_diag, firstn_all. simpl. apply app_nil_r.
Qed.

Lemma decode_greedy_eval_prefix_of_training_witness :
  exists st_eval st_train,
    Seq2Seq.decode_greedy_loop (set_training false (tiny_model true)) [[[0; 0]]]
                               ([[[0]]], [[[0]]]) 3 = Ok st_eval /\
    Seq2Seq.decode_greedy_loop (set_training true (tiny_model true)) [[[0; 0]]]
                               ([[[0]]], [[[0]]]) 3 = Ok st_train /\
    map (firstn (S (steps_performed st_eval))) (Seq2Seq.preds st_train)
    = Seq2Seq.preds st_eval.
Proof.
  destruct (decode_greedy_eval_prefix_of_training
              (tiny_model true) [[[0; 0]]] ([[[0]]], [[[0]]]) 3 3 1
              (tiny_wf_decoder true) (tiny_start_in_range true)
              Nat.lt_0_1 eq_refl tiny_state_batch)
    as (st_e & st_t & He & Ht & _ & Hprefix & _).
  exists st_e, st_t. split; [exact He|]. split; [exact Ht | exact Hprefix].
Defined.

(** ** What greedy decoding returns *)

Lemma cat_fold_Forall {X : Type} (P : X -> Prop) (ts : list (list (list X)))
      (t0 : list (list X)) :
  Forall (Forall P) t0 -> Forall (Forall (Forall P)) ts ->
  Forall (Forall P) (fold_left (zipWith (@app X)) ts t0).
Proof.
  revert t0. induction ts as [|t ts IH]; intros t0 H0 Hts; simpl; [assumption|].
  inversion Hts as [|? ? Ht Hts']; subst.
  apply IH; [|assumption].
  apply zipWith_Forall. intros a b Ha Hb.
  rewrite Forall_forall in H0, Ht.
  apply Forall_app. split; auto.
Qed.

Lemma cat_so_far_Forall (P : vector -> Prop) (B : nat) (scores : list tensor3) :
  Forall (Forall (Forall P)) scores -> Forall (Forall P) (cat_so_far B scores).
Proof.
  intros H. unfold cat_so_far. apply cat_fold_Forall; [|assumption].
  apply Forall_forall. intros m Hm. apply repeat_spec in Hm. subst m. constructor.
Qed.

(** The scores that a step appends are log-softmax rows of logits of the
    output layer. *)
Lemma step_scores_distribution (self : Seq2Seq.t) (V : nat) (outputs : tensor3) :
  wf_linear V (Decoder.output_layer (Seq2Seq.decoder self)) -> (0 < V)%nat ->
  Forall (Forall log_distribution)
         (log_softmax_dim2
            (last_slice (Linear.forward3 (Decoder.output_layer (Seq2Seq.decoder self))
                                         outputs))).
Proof.
  intros Hwf HV. unfold log_softmax_dim2, last_slice, Linear.forward3.
  rewrite !map_map. apply Forall_map. apply Forall_forall. intros m _.
  apply Forall_map. apply Forall_skipn. apply Forall_map.
  apply Forall_forall. intros v _.
  apply log_softmax_normalised.
  rewrite (linear_apply_length V); assumption.
Qed.

(** X7: with a positive [max_len], greedy decoding returns predictions
    that are indices of the target vocabulary, and scores whose every row
    is a log-probability distribution: the exponentials of its entries sum
    to 1. *)
Theorem decode_greedy_returns_distributions
        (self : Seq2Seq.t) (encoder_outputs : tensor3) (encoder_hidden : hidden_pair)
        (max_len : Z) (V B : nat) :
  wf_decoder V (Seq2Seq.decoder self) ->
  (0 <= Seq2Seq.START_INDEX self < Z.of_nat V)%Z ->
  (0 < B)%nat -> length encoder_outputs = B -> state_batch encoder_hidden B ->
  (0 < max_len)%Z ->
  exists scores preds,
    Seq2Seq.decode_greedy self encoder_outputs encoder_hidden max_len = Ok (scores, preds) /\
    in_range V preds /\
    Forall (Forall log_distribution) scores.
Proof.
  intros Hwf Hstart HB Henc Hhs Hmax.
  pose proof (greedy_init_inv self encoder_outputs V B Henc encoder_hidden Hhs) as Hinit.
  destruct (greedy_loop_spec self encoder_outputs V B Hwf Hstart HB Henc
              (Z.to_nat max_len) _ Hinit)
    as (st & Hloop & Hinv & _ & _ & Hpos & _).
  change (steps_performed (Seq2Seq.greedy_init self encoder_outputs encoder_hidden))
    with 0%nat in Hpos.
  assert (Hn : (0 < steps_performed st)%nat) by (apply Hpos; lia).
  destruct (greedy_outcome self V B st Hinv Hn)
    as (Hcat & _ & Hargmax & Sscores & _).
  assert (HV : (0 < V)%nat) by lia.
  assert (Hdist : Forall (Forall (Forall log_distribution)) (Seq2Seq.scores st)).
  { apply (greedy_loop_invariant self encoder_outputs B
             (fun s => Forall (Forall (Forall log_distribution)) (Seq2Seq.scores s)))
      with (n := Z.to_nat max_len)
           (st := Seq2Seq.greedy_init self encoder_outputs encoder_hidden);
      [|constructor|exact Hloop].
    intros s s' Hs Hstep.
    destruct (greedy_step_unfold _ _ _ _ Hstep) as (logits & hs' & Hfw & _ & Hsc & _).
    destruct (decoder_logits_form _ _ _ _ _ _ Hfw) as [outs ->].
    rewrite Hsc. apply Forall_app. split; [assumption|].
    constructor; [|constructor].
    apply (step_scores_distribution self V); [apply Hwf | assumption]. }
  exists (cat_so_far B (Seq2Seq.scores st)), (narrow_tail (Seq2Seq.preds st)).
  split.
  { unfold Seq2Seq.decode_greedy, Seq2Seq.decode_greedy_loop.
    rewrite Henc, Hloop. cbn [bind]. now rewrite Hcat. }
  split.
  - rewrite Hargmax. eapply argmax_dim2_in_range; eauto.
  - now apply cat_so_far_Forall.
Qed.

Lemma decode_greedy_returns_distributions_witness :
  exists scores preds,
    Seq2Seq.decode_greedy (tiny_model true) [[[0; 0]]] ([[[0]]], [[[0]]]) 3
    = Ok (scores, preds) /\
    in_range 3 preds /\
    Forall (Forall log_distribution) scores.
Proof.
  apply (decode_greedy_returns_distributions
           (tiny_model true) [[[0; 0]]] ([[[0]]], [[[0]]]) 3 3 1
           (tiny_wf_decoder true) (tiny_start_in_range true)
           Nat.lt_0_1 eq_refl tiny_state_batch eq_refl).
Defined.

(** ** Decoding a sequence in two parts *)

Lemma mapM_Forall2 {X Y : Type} (f : X -> result Y) (l : list X) (l' : list Y) :
  mapM f l = Ok l' -> Forall2 (fun a b => f a = Ok b) l l'.
Proof.
  revert l'. induction l as [|a l IH]; simpl; intros l' H.
  - injection H as <-. constructor.
  - destruct (f a) eqn:Ha; simpl in H; [|discriminate].
    destruct (mapM f l) eqn:Hl; simpl in H; [|discriminate].
    injection H as <-. constructor; auto.
Qed.

Lemma mapM_app {X Y : Type} (f : X -> result Y) (l1 l2 : list X) (r1 r2 : list Y) :
  mapM f l1 = Ok r1 -> mapM f l2 = Ok r2 -> mapM f (l1 ++ l2) = Ok (r1 ++ r2).
Proof.
  revert r1. induction l1 as [|a l1 IH]; simpl; intros r1 H1 H2.
  - now injection H1 as <-.
  - destruct (f a); simpl in *; [|discriminate].
    destruct (mapM f l1) eqn:Hl; simpl in H1; [|discriminate].
    injection H1 as <-. now rewrite (IH _ eq_refl H2).
Qed.

Lemma embedding_forward_lengths (self : Embedding.t) (t : index_tensor) (e : tensor3) :
  Embedding.forward self t = Ok e ->
  Forall2 (fun r er => length er = length r) t e.
Proof.
  intros H. apply mapM_Forall2 in H.
  eapply Forall2_impl; [|exact H]. intros r er Hr. now apply mapM_length in Hr.
Qed.

Lemma embedding_forward_app (self : Embedding.t) (a b : index_tensor) (ea eb : tensor3) :
  Embedding.forward self a = Ok ea -> Embedding.forward self b = Ok eb ->
  Embedding.forward self (zipWith (@app Z) a b) = Ok (zipWith (@app vector) ea eb).
Proof.
  unfold Embedding.forward. revert b ea eb.
  induction a as [|ra a IH]; intros b ea eb Ha Hb.
  - simpl in *. now injection Ha as <-.
  - simpl in Ha.
    destruct (mapM (Embedding.lookup self) ra) as [era|] eqn:Hra; simpl in Ha;
      [|discriminate].
    destruct (mapM (mapM (Embedding.lookup self)) a) as [ea'|] eqn:Hea; simpl in Ha;
      [|discriminate].
    injection Ha as <-.
    destruct b as [|rb b]; simpl in Hb.
    + injection Hb as <-. reflexivity.
    + destruct (mapM (Embedding.lookup self) rb) as [erb|] eqn:Hrb; simpl in Hb;
        [|discriminate].
      destruct (mapM (mapM (Embedding.lookup self)) b) as [eb'|] eqn:Heb; simpl in Hb;
        [|discriminate].
      injection Hb as <-.
      cbn [zipWith mapM]. rewrite (mapM_app _ _ _ _ _ Hra Hrb). cbn [bind].
      now rewrite (IH b ea' eb' eq_refl Heb).
Qed.

Lemma decoder_steps_app (self : Decoder.t) (encoder_outputs embedded : tensor3)
      (p1 p2 : list nat) :
  forall outputs hs,
    Decoder.steps self encoder_outputs embedded (p1 ++ p2) outputs hs
    = bind (Decoder.steps self encoder_outputs embedded p1 outputs hs)
           (fun r => Decoder.steps self encoder_outputs embedded p2 (fst r) (snd r)).
Proof.
  induction p1 as [|p p1 IH]; intros outputs hs; [reflexivity|].
  cbn [app Decoder.steps].
  destruct (LSTM.forward _ _ _) as [[so hs']|]; [|reflexivity]. cbn [bind].
  destruct (Attention.forward _ _ _ _) as [o w]. apply IH.
Qed.

(** The outputs collected before a run of steps stay in front of the new
    ones and do not change them. *)
Lemma decoder_steps_outputs (self : Decoder.t) (encoder_outputs embedded : tensor3)
      (ps : list nat) :
  forall outputs hs,
    Decoder.steps self encoder_outputs embedded ps outputs hs
    = bind (Decoder.steps self encoder_outputs embedded ps [] hs)
           (fun r => Ok (outputs ++ fst r, snd r)).
Proof.
  induction ps as [|p ps IH]; intros outputs hs.
  - simpl. now rewrite app_nil_r.
  - cbn [Decoder.steps].
    destruct (LSTM.forward _ _ _) as [[so hs']|]; [|reflexivity]. cbn [bind].
    destruct (Attention.forward _ _ _ _) as [o w].
    rewrite (IH (outputs ++ [o])), (IH ([] ++ [o])).
    destruct (Decoder.steps self encoder_outputs embedded ps [] hs') as [[os h]|];
      [|reflexivity].
    cbn [bind fst snd app]. now rewrite <- app_assoc.
Qed.

(** The steps read the embedded inputs only at their positions. *)
Lemma decoder_steps_ext (self : Decoder.t) (encoder_outputs e e' : tensor3) (n : nat) :
  forall p q outputs hs,
    (forall k, (k < n)%nat -> select1 (p + k) e = select1 (q + k) e') ->
    Decoder.steps self encoder_outputs e (seq p n) outputs hs
    = Decoder.steps self encoder_outputs e' (seq q n) outputs hs.
Proof.
  induction n as [|n IH]; intros p q outputs hs Hsel; [reflexivity|].
  cbn [seq Decoder.steps].
  pose proof (Hsel 0%nat (Nat.lt_0_succ n)) as H0. rewrite !Nat.add_0_r in H0.
  rewrite H0.
  destruct (LSTM.forward _ _ _) as [[so hs']|]; [|reflexivity]. cbn [bind].
  destruct (Attention.forward _ _ _ _) as [o w].
  apply IH. intros k Hk.
  specialize (Hsel (S k)). rewrite !Nat.add_succ_r in Hsel.
  simpl. apply Hsel. lia.
Qed.

Lemma select1_app_left (ea eb : tensor3) (T k : nat) :
  Forall (fun r => length r = T) ea -> length ea = length eb -> (k < T)%nat ->
  select1 k (zipWith (@app vector) ea eb) = select1 k ea.
Proof.
  unfold select1. revert eb. induction ea as [|ra ea IH]; intros [|rb eb] Hrows Hlen Hk;
    simpl in *; try lia; auto.
  inversion Hrows as [|? ? Hr Hrows']; subst. f_equal.
  - apply app_nth1. list_types; lia.
  - apply IH; auto.
Qed.

Lemma select1_app_right (ea eb : tensor3) (T k : nat) :
  Forall (fun r => length r = T) ea -> length ea = length eb ->
  select1 (T + k) (zipWith (@app vector) ea eb) = select1 k eb.
Proof.
  unfold select1. revert eb. induction ea as [|ra ea IH]; intros [|rb eb] Hrows Hlen;
    simpl in *; try lia; auto.
  inversion Hrows as [|? ? Hr Hrows']; subst. f_equal.
  - rewrite app_nth2 by (list_types; lia). f_equal. list_types; lia.
  - apply IH; auto.
Qed.

Lemma zipWith_app_assoc {X : Type} (a b c : list (list X)) :
  zipWith (@app X) (zipWith (@app X) a b) c
  = zipWith (@app X) a (zipWith (@app X) b c).
Proof.
  revert b c. induction a as [|x a IH]; intros [|y b] [|z c]; simpl; auto.
  now rewrite IH, app_assoc.
Qed.

Lemma cat_fold_assoc {X : Type} (ts : list (list (list X))) (c t : list (list X)) :
  fold_left (zipWith (@app X)) ts (zipWith (@app X) c t)
  = zipWith (@app X) c (fold_left (zipWith (@app X)) ts t).
Proof.
  revert c t. induction ts as [|u ts IH]; intros c t; simpl; [reflexivity|].
  now rewrite zipWith_app_assoc, IH.
Qed.

(** Concatenating two non-empty lists of tensors along axis 1 concatenates
    their concatenations. *)
Lemma cat1_app {X : Type} (o1 o2 : list (list (list X))) (c1 c2 : list (list X)) :
  cat1 o1 = Ok c1 -> cat1 o2 = Ok c2 ->
  cat1 (o1 ++ o2) = Ok (zipWith (@app X) c1 c2).
Proof.
  destruct o1 as [|t1 o1]; [discriminate|].
  destruct o2 as [|t2 o2]; [discriminate|].
  unfold cat1. intros H1 H2. injection H1 as <-. injection H2 as <-.
  cbn [app]. rewrite fold_left_app. cbn [fold_left].
  now rewrite cat_fold_assoc.
Qed.

Lemma forward3_app (self : Linear.t) (c1 c2 : tensor3) :
  Linear.forward3 self (zipWith (@app vector) c1 c2)
  = zipWith (@app vector) (Linear.forward3 self c1) (Linear.forward3 self c2).
Proof.
  unfold Linear.forward3. rewrite map_zipWith, zipWith_map_l, zipWith_map_r.
  apply zipWith_ext. intros x y _ _. apply map_app.
Qed.

Lemma log_softmax_dim2_app (a b : tensor3) :
  log_softmax_dim2 (zipWith (@app vector) a b)
  = zipWith (@app vector) (log_softmax_dim2 a) (log_softmax_dim2 b).
Proof.
  unfold log_softmax_dim2. rewrite map_zipWith, zipWith_map_l, zipWith_map_r.
  apply zipWith_ext. intros x y _ _. apply map_app.
Qed.

Lemma shape2_zipWith_app {X : Type} (a b : list (list X)) (B T1 T2 : nat) :
  shape2 a B T1 -> shape2 b B T2 -> shape2 (zipWith (@app X) a b) B (T1 + T2).
Proof.
  intros [La Ra] [Lb Rb]. split.
  - rewrite zipWith_length. lia.
  - apply zipWith_Forall. intros x y Hx Hy. rewrite Forall_forall in Ra, Rb.
    now rewrite length_app, (Ra _ Hx), (Rb _ Hy).
Qed.

(** Decoding [a] and then [b] from the state that [a] left is decoding the
    two sequences joined along the step axis. *)
Lemma decoder_forward_app (self : Decoder.t) (a b : index_tensor)
      (encoder_outputs : tensor3) (hs hs1 hs2 : hidden_pair) (la lb : tensor3)
      (B T1 T2 : nat) :
  shape2 a B T1 -> shape2 b B T2 -> (0 < B)%nat ->
  Decoder.forward self a encoder_outputs hs = Ok (la, hs1) ->
  Decoder.forward self b encoder_outputs hs1 = Ok (lb, hs2) ->
  Decoder.forward self (zipWith (@app Z) a b) encoder_outputs hs
  = Ok (zipWith (@app vector) la lb, hs2).
Proof.
  intros Sa Sb HB Ha Hb.
  unfold Decoder.forward in Ha, Hb.
  rewrite (shape2_size1 _ _ _ Sa HB) in Ha. rewrite (shape2_size1 _ _ _ Sb HB) in Hb.
  apply bind_Ok in Ha. destruct Ha as (ea & Hea & Ha).
  apply bind_Ok in Ha. destruct Ha as ([oa ha] & Hoa & Ha).
  apply bind_Ok in Ha. destruct Ha as (ca & Hca & Ha). injection Ha as <- <-.
  apply bind_Ok in Hb. destruct Hb as (eb & Heb & Hb).
  apply bind_Ok in Hb. destruct Hb as ([ob hb] & Hob & Hb).
  apply bind_Ok in Hb. destruct Hb as (cb & Hcb & Hb). injection Hb as <- <-.
  pose proof (embedding_forward_lengths _ _ _ Hea) as Lea.
  pose proof (embedding_forward_lengths _ _ _ Heb) as Leb.
  assert (Rea : Forall (fun r => length r = T1) ea).
  { destruct Sa as [_ Ra]. clear - Lea Ra.
    induction Lea; constructor; inversion Ra; subst; auto; list_types; congruence. }
  assert (Lab : length ea = length eb).
  { pose proof (Forall2_length_eq _ _ _ Lea). pose proof (Forall2_length_eq _ _ _ Leb).
    destruct Sa, Sb. list_types; congruence. }
  unfold Decoder.forward.
  rewrite (shape2_size1 _ _ _ (shape2_zipWith_app _ _ _ _ _ Sa Sb) HB).
  rewrite (embedding_forward_app _ _ _ _ _ Hea Heb). cbn [bind].
  rewrite seq_app, decoder_steps_app. cbn [Nat.add].
  rewrite (decoder_steps_ext self encoder_outputs _ ea T1 0 0).
  2:{ intros k Hk. cbn [Nat.add]. now apply (select1_app_left ea eb T1). }
  rewrite Hoa. cbn [bind fst snd].
  rewrite decoder_steps_outputs.
  rewrite (decoder_steps_ext self encoder_outputs _ eb T2 T1 0).
  2:{ intros k Hk. cbn [Nat.add]. now apply select1_app_right. }
  rewrite Hob. cbn [bind fst snd].
  pose proof (cat1_app _ _ _ _ Hca Hcb) as Hcat.
  pose proof (forward3_app (Decoder.output_layer self) ca cb) as Hlin.
  list_types. rewrite Hcat. cbn [bind]. now rewrite Hlin.
Qed.

(** X8: the state that [Decoder.forward] returns is the one to continue
    from.  Decoding a sequence [a] and then a sequence [b] from the state
    returned for [a] gives the logits and the final state of decoding the
    two sequences joined along the step axis in one call. *)
Theorem decoder_forward_in_two_parts
        (self : Decoder.t) (a b : index_tensor) (encoder_outputs : tensor3)
        (hs : hidden_pair) (V B T1 T2 : nat) :
  wf_decoder V self ->
  shape2 a B T1 -> shape2 b B T2 -> (0 < B)%nat -> (0 < T1)%nat -> (0 < T2)%nat ->
  in_range V a -> in_range V b ->
  length encoder_outputs = B -> state_batch hs B ->
  exists la hs1 lb hs2,
    Decoder.forward self a encoder_outputs hs = Ok (la, hs1) /\
    Decoder.forward self b encoder_outputs hs1 = Ok (lb, hs2) /\
    Decoder.forward self (zipWith (@app Z) a b) encoder_outputs hs
    = Ok (zipWith (@app vector) la lb, hs2).
Proof.
  intros Hwf Sa Sb HB HT1 HT2 Ia Ib Henc Hhs.
  destruct (decoder_forward_ok self a encoder_outputs hs V B T1 Hwf Sa HB HT1 Ia Henc Hhs)
    as (la & hs1 & Ha & _ & Hhs1).
  destruct (decoder_forward_ok self b encoder_outputs hs1 V B T2 Hwf Sb HB HT2 Ib Henc Hhs1)
    as (lb & hs2 & Hb & _ & _).
  exists la, hs1, lb, hs2. split; [assumption|]. split; [assumption|].
  eapply decoder_forward_app; eauto.
Qed.

Lemma decoder_forward_in_two_parts_witness :
  exists la hs1 lb hs2,
    Decoder.forward tiny_decoder [[1; 0]%Z] [[[0; 0]]] ([[[0]]], [[[0]]]) = Ok (la, hs1) /\
    Decoder.forward tiny_decoder [[2]%Z] [[[0; 0]]] hs1 = Ok (lb, hs2) /\
    Decoder.forward tiny_decoder [[1; 0; 2]%Z] [[[0; 0]]] ([[[0]]], [[[0]]])
    = Ok (zipWith (@app vector) la lb, hs2).
Proof.
  apply (decoder_forward_in_two_parts tiny_decoder [[1; 0]%Z] [[2]%Z] [[[0; 0]]]
           ([[[0]]], [[[0]]]) 3 1 2 1).
  - exact (tiny_wf_decoder true).
  - split; [reflexivity|]. repeat constructor.
  - split; [reflexivity|]. repeat constructor.
  - apply Nat.lt_0_1.
  - apply Nat.lt_0_succ.
  - apply Nat.lt_0_1.
  - repeat constructor; simpl; lia.
  - repeat constructor; simpl; lia.
  - reflexivity.
  - exact tiny_state_batch.
Defined.

(** ** Teacher forcing on what greedy decoding fed *)

Lemma removelast_snoc_rows {X : Type} (p q : list (list X)) :
  length q = length p -> Forall (fun r => length r = 1%nat) q ->
  map (@removelast X) (zipWith (@app X) p q) = p.
Proof.
  revert q. induction p as [|r p IH]; intros [|s q] Hlen Hq; simpl in *; try lia; auto.
  inversion Hq as [|? ? Hs Hq']; subst.
  destruct s as [|x [|y s]]; simpl in Hs; try lia.
  rewrite removelast_last. f_equal. apply IH; [lia | assumption].
Qed.

Lemma rows_removelast_last {X : Type} (p : list (list X)) (n : nat) :
  Forall (fun r => length r = S n) p ->
  zipWith (@app X) (map (@removelast X) p) (last_slice p) = p.
Proof.
  unfold last_slice. induction 1 as [|r p Hr _ IH]; simpl; [reflexivity|].
  rewrite IH. f_equal.
  destruct (exists_last (l := r)) as (r' & x & ->).
  { intros ->. discriminate. }
  rewrite removelast_last, length_app. simpl.
  replace (length r' + 1 - 1)%nat with (length r' + 0)%nat by lia.
  now rewrite skipn_app, Nat.add_0_r, skipn_all, Nat.sub_diag.
Qed.

Lemma shape2_removelast {X : Type} (p : list (list X)) (B n : nat) :
  shape2 p B (S n) -> shape2 (map (@removelast X) p) B n.
Proof.
  intros [HB Hr]. split; [now rewrite length_map|].
  apply Forall_map. eapply Forall_impl; [|exact Hr]. intros r Hlen. cbv beta in *.
  destruct (exists_last (l := r)) as (r' & x & ->).
  { intros ->. discriminate. }
  rewrite removelast_last. rewrite length_app in Hlen. simpl in Hlen. lia.
Qed.

Lemma fed_so_far_step (self : Seq2Seq.t) (encoder_outputs : tensor3)
      (encoder_hidden : hidden_pair) (V B : nat) (st st' : Seq2Seq.loop_state) :
  wf_decoder V (Seq2Seq.decoder self) ->
  (0 <= Seq2Seq.START_INDEX self < Z.of_nat V)%Z ->
  (0 < B)%nat -> length encoder_outputs = B ->
  greedy_inv self V B st /\ fed_so_far self encoder_outputs encoder_hidden B st ->
  Seq2Seq.greedy_step self encoder_outputs st = Ok st' ->
  greedy_inv self V B st' /\ fed_so_far self encoder_outputs encoder_hidden B st'.
Proof.
  intros Hwf Hstart HB Henc [Hinv Hfed] Hstep.
  destruct (greedy_step_ok self encoder_outputs V B Hwf Hstart HB Henc st Hinv)
    as (st1 & Hstep1 & Hinv' & _).
  rewrite Hstep in Hstep1. injection Hstep1 as <-.
  split; [assumption|]. right.
  destruct (greedy_step_unfold _ _ _ _ Hstep) as (lt & hs' & Hfw & Hp & Hs & Hh).
  pose proof (inv_preds_shape _ _ _ _ Hinv) as Spreds.
  pose proof (inv_preds_in_range _ _ _ _ Hstart Hinv) as Rpreds.
  assert (Slast : shape2 (last_slice (Seq2Seq.preds st)) B 1)
    by (eapply last_slice_shape; eauto).
  destruct (decoder_forward_ok (Seq2Seq.decoder self) (last_slice (Seq2Seq.preds st))
              encoder_outputs (Seq2Seq.hidden st) V B 1 Hwf Slast HB Nat.lt_0_1)
    as (lt' & hs'' & Hfw' & Slt & _);
    [now apply last_slice_in_range | assumption | apply Hinv |].
  rewrite Hfw in Hfw'. injection Hfw' as <- <-.
  assert (Eslice : last_slice lt = lt).
  { apply (last_slice_single lt B). destruct Slt as [L1 R1]. split; [assumption|].
    eapply Forall_impl; [|exact R1]. intros m [Hm _]. exact Hm. }
  rewrite Eslice in Hp, Hs.
  assert (Ssp : shape2 (argmax_dim2 (log_softmax_dim2 lt)) B 1).
  { eapply argmax_dim2_shape. apply log_softmax_dim2_shape. exact Slt. }
  assert (Efed : map (@removelast Z) (Seq2Seq.preds st') = Seq2Seq.preds st).
  { rewrite Hp. apply removelast_snoc_rows; [|apply Ssp].
    destruct Ssp as [L1 _]. destruct Spreds as [L2 _]. congruence. }
  rewrite Efed, Hs, Hh, cat_so_far_snoc.
  destruct Hfed as [-> | (L & HL & EL)].
  - (* first step: the decoder was fed the column of start tokens *)
    exists lt. split.
    + rewrite <- (last_slice_single _ B Spreds) at 1. exact Hfw.
    + unfold cat_so_far. cbn [Seq2Seq.greedy_init Seq2Seq.scores fold_left].
      destruct Slt as [L1 _]. rewrite <- L1.
      pose proof (zipWith_app_nil_l (log_softmax_dim2 lt)) as E.
      unfold log_softmax_dim2 in E at 1. rewrite length_map in E.
      symmetry. exact E.
  - exists (zipWith (@app vector) L lt). split.
    + destruct Spreds as [LB Rows].
      rewrite <- (rows_removelast_last (Seq2Seq.preds st) (steps_performed st) Rows) at 1.
      apply (decoder_forward_app _ _ _ _ _ (Seq2Seq.hidden st) _ _ _
                                 B (steps_performed st) 1);
        [apply shape2_removelast; split; assumption | assumption.. ].
    + rewrite log_softmax_dim2_app. now rewrite EL.
Qed.

Lemma removelast_cons_rows {X : Type} (x : X) (t : list (list X)) (n : nat) :
  Forall (fun r => length r = S n) t ->
  map (@removelast X) (map (cons x) t) = map (fun r => x :: removelast r) t.
Proof.
  intros H. rewrite map_map. apply map_ext_in. intros r Hr.
  rewrite Forall_forall in H. specialize (H _ Hr).
  destruct r; [discriminate | reflexivity].
Qed.

(** X9: teacher forcing with the tokens that greedy decoding fed to the
    decoder, that is the start token followed by all greedy predictions but
    the last, returns the scores of the greedy decoding.  Its predictions
    are taken from the logits and those of the greedy decoding from the
    scores: both are positions at which the score of their row is
    maximal. *)
Theorem decode_forced_on_greedy_predictions
        (self : Seq2Seq.t) (encoder_outputs : tensor3) (encoder_hidden : hidden_pair)
        (max_len : Z) (V B : nat) :
  wf_decoder V (Seq2Seq.decoder self) ->
  (0 <= Seq2Seq.START_INDEX self < Z.of_nat V)%Z ->
  (0 < B)%nat -> length encoder_outputs = B -> state_batch encoder_hidden B ->
  (0 < max_len)%Z ->
  exists n scores preds preds',
    (1 <= n)%nat /\
    Seq2Seq.decode_greedy self encoder_outputs encoder_hidden max_len = Ok (scores, preds) /\
    Seq2Seq.decode_forced self
      (map (fun row => Seq2Seq.START_INDEX self :: removelast row) preds)
      encoder_outputs encoder_hidden
    = Ok (scores, preds') /\
    shape3 scores B n V /\ shape2 preds B n /\ shape2 preds' B n /\
    forall i t, (i < B)%nat -> (t < n)%nat ->
      let score_row := nth t (nth i scores []) [] in
      let p := nth t (nth i preds []) 0%Z in
      let p' := nth t (nth i preds' []) 0%Z in
      (0 <= p < Z.of_nat V)%Z /\ (0 <= p' < Z.of_nat V)%Z /\
      forall j, (j < V)%nat ->
        nth j score_row 0 <= nth (Z.to_nat p) score_row 0 /\
        nth j score_row 0 <= nth (Z.to_nat p') score_row 0.
Proof.
  intros Hwf Hstart HB Henc Hhs Hmax.
  pose proof (greedy_init_inv self encoder_outputs V B Henc encoder_hidden Hhs) as Hinit.
  destruct (greedy_loop_spec self encoder_outputs V B Hwf Hstart HB Henc
              (Z.to_nat max_len) _ Hinit)
    as (st & Hloop & Hinv & _ & _ & Hpos & _).
  change (steps_performed (Seq2Seq.greedy_init self encoder_outputs encoder_hidden))
    with 0%nat in Hpos.
  assert (Hn : (0 < steps_performed st)%nat) by (apply Hpos; lia).
  destruct (greedy_outcome self V B st Hinv Hn)
    as (Hcat & Hseed & Hargmax & Sscores & Spreds).
  assert (Hfed : greedy_inv self V B st /\
                 fed_so_far self encoder_outputs encoder_hidden B st).
  { apply (greedy_loop_invariant self encoder_outputs B
             (fun s => greedy_inv self V B s /\
                       fed_so_far self encoder_outputs encoder_hidden B s))
      with (n := Z.to_nat max_len)
           (st := Seq2Seq.greedy_init self encoder_outputs encoder_hidden);
      [|split; [assumption | now left]|exact Hloop].
    intros s s'. now apply fed_so_far_step. }
  destruct Hfed as [_ [Einit | (L & HL & EL)]].
  { rewrite Einit in Hn. cbn in Hn. lia. }
  assert (HV : (0 < V)%nat) by lia.
  assert (SL : shape3 L B (steps_performed st) V).
  { apply log_softmax_dim2_shape_inv. rewrite EL. exact Sscores. }
  exists (steps_performed st), (cat_so_far B (Seq2Seq.scores st)),
         (narrow_tail (Seq2Seq.preds st)), (argmax_dim2 L).
  split; [lia|].
  split.
  { unfold Seq2Seq.decode_greedy, Seq2Seq.decode_greedy_loop.
    rewrite Henc, Hloop. cbn [bind]. now rewrite Hcat. }
  split.
  { destruct (steps_performed st) as [|n] eqn:En; [lia|].
    destruct Spreds as [_ Rows].
    rewrite <- (removelast_cons_rows _ _ n Rows).
    rewrite <- Hseed.
    unfold Seq2Seq.decode_forced. rewrite HL. cbn [bind].
    now rewrite EL. }
  split; [assumption|]. split; [assumption|].
  split; [eapply argmax_dim2_shape; eauto|].
  intros i t Hi Ht score_row p p'.
  destruct (argmax_dim2_maximal _ B (steps_performed st) V i t Sscores HV Hi Ht)
    as [Rp Mp].
  rewrite <- Hargmax in Rp, Mp. fold score_row p in Rp, Mp.
  destruct (argmax_dim2_maximal_score L B (steps_performed st) V i t SL HV Hi Ht)
    as [Rp' Mp'].
  rewrite EL in Mp'. fold score_row p' in Rp', Mp'.
  split; [assumption|]. split; [assumption|].
  intros j Hj. split; [now apply Mp | now apply Mp'].
Qed.

Lemma decode_forced_on_greedy_predictions_witness :
  exists n scores preds preds',
    (1 <= n)%nat /\
    Seq2Seq.decode_greedy (tiny_model true) [[[0; 0]]] ([[[0]]], [[[0]]]) 3
    = Ok (scores, preds) /\
    Seq2Seq.decode_forced (tiny_model true)
      (map (fun row => 1%Z :: removelast row) preds) [[[0; 0]]] ([[[0]]], [[[0]]])
    = Ok (scores, preds') /\
    shape3 scores 1 n 3 /\ shape2 preds 1 n /\ shape2 preds' 1 n.
Proof.
  destruct (decode_forced_on_greedy_predictions
              (tiny_model true) [[[0; 0]]] ([[[0]]], [[[0]]]) 3 3 1
              (tiny_wf_decoder true) (tiny_start_in_range true)
              Nat.lt_0_1 eq_refl tiny_state_batch eq_refl)
    as (n & scores & preds & preds' & Hn & Hg & Hf & Ss & Sp & Sp' & _).
  exists n, scores, preds, preds'.
  split; [exact Hn|]. split; [exact Hg|]. split; [exact Hf|].
  split; [exact Ss|]. split; [exact Sp | exact Sp'].
Defined.

(** ** From the constructor to the forward pass *)

Lemma linear_sized_wf (i o : nat) (b : bool) (self : Linear.t) :
  linear_sized i o b self -> wf_linear o self.
Proof.
  intros [[Hw _] Hb]. split; [assumption|].
  destruct (Linear.bias self); [apply Hb | exact I].
Qed.

Lemma weights_sized_wf (E H : nat) (w : LSTM.weights) :
  weights_sized E H w -> wf_weights H w.
Proof. intros ([H1 _] & [H2 _] & H3 & H4). repeat split; assumption. Qed.

Lemma encoder_sized_wf (E H V : nat) (self : Encoder.t) :
  encoder_sized E H V self -> wf_encoder V H self.
Proof.
  intros ([HV _] & HH & Hw & wr & Hr & Hwr).
  split; [assumption|]. split; [assumption|].
  split; [eapply weights_sized_wf; eauto|].
  exists wr. split; [assumption | eapply weights_sized_wf; eauto].
Qed.

Lemma decoder_sized_wf (E H V : nat) (self : Decoder.t) :
  decoder_sized E H V self -> wf_decoder V self.
Proof.
  intros ([HV _] & _ & _ & Huni & Hout & _).
  split; [assumption|]. split; [assumption|]. eapply linear_sized_wf; eauto.
Qed.

(** The encoder hands the decoder outputs and a state of its batch size. *)
Lemma encoder_forward_ready (self : Encoder.t) (inputs : index_tensor) (V H B L : nat) :
  wf_encoder V H self ->
  shape2 inputs B L -> (0 < B)%nat -> (0 < L)%nat ->
  in_range V inputs ->
  exists encoder_outputs encoder_hidden,
    Encoder.forward self inputs = Ok (encoder_outputs, encoder_hidden) /\
    shape3 encoder_outputs B L (2 * H) /\
    state_batch encoder_hidden B /\
    shape3 (fst encoder_hidden) 1 B H /\ shape3 (snd encoder_hidden) 1 B H.
Proof.
  intros (HV & HH & Hw & wr & Hrev & Hwr) Hshape HB HL Hin.
  rewrite <- HV in Hin.
  destruct (embedding_forward_in_range _ _ Hin) as [emb [Hemb Hlen]].
  assert (Hembshape : shape2 emb B L).
  { destruct Hshape as [Hb Hrows]. split.
    - rewrite (Forall2_length_eq _ _ _ Hlen). assumption.
    - clear - Hlen Hrows.
      induction Hlen; constructor; inversion Hrows; subst; auto; list_types; congruence. }
  destruct (lstm_bidirectional_shapes _ wr emb B L H HH Hw Hrev Hwr Hembshape HB HL)
    as (outs & h_n & c_n & Hrun & Sout & Sh & Sc).
  exists outs, ([sum0 h_n], [sum0 c_n]).
  split. { unfold Encoder.forward. rewrite Hemb; simpl. rewrite Hrun; reflexivity. }
  split; [assumption|].
  pose proof (sum0_pair_shape _ _ _ Sh) as Sh'.
  pose proof (sum0_pair_shape _ _ _ Sc) as Sc'.
  split; [|split; assumption].
  destruct Sh' as [_ Fh]. destruct Sc' as [_ Fc].
  inversion Fh as [|? ? [Lh _] _]. inversion Fc as [|? ? [Lc _] _].
  split; assumption.
Qed.

(** X10: a model sized by the constructor, with a start token of the target
    vocabulary, maps every non-empty batch of non-empty source sequences
    with valid indices, decoded greedily with a positive [max_len], to
    scores of shape (B, n, Vt) and predictions of shape (B, n) for some
    [1 <= n <= max_len]: the state merged by the encoder fits the decoder
    and no step of the pass raises. *)
Theorem forward_greedy_end_to_end
        (self : Seq2Seq.t) (inputs : index_tensor) (max_len : Z)
        (E H Vs Vt B L : nat) :
  constructed E H Vs Vt self ->
  (0 <= Seq2Seq.START_INDEX self < Z.of_nat Vt)%Z ->
  shape2 inputs B L -> (0 < B)%nat -> (0 < L)%nat ->
  in_range Vs inputs ->
  (0 < max_len)%Z ->
  exists scores preds n,
    Seq2Seq.forward self inputs None max_len = Ok (scores, preds) /\
    (1 <= n)%nat /\ (Z.of_nat n <= max_len)%Z /\
    shape3 scores B n Vt /\ shape2 preds B n /\ in_range Vt preds.
Proof.
  intros [Henc_s Hdec_s] Hstart Hshape HB HL Hin Hmax.
  pose proof (encoder_sized_wf _ _ _ _ Henc_s) as Hwe.
  pose proof (decoder_sized_wf _ _ _ _ Hdec_s) as Hwd.
  destruct (encoder_forward_ready _ _ _ _ _ _ Hwe Hshape HB HL Hin)
    as (eo & eh & Henc & [Leo _] & Hhs & _).
  pose proof (greedy_init_inv self eo Vt B Leo eh Hhs) as Hinit.
  destruct (greedy_loop_spec self eo Vt B Hwd Hstart HB Leo (Z.to_nat max_len) _ Hinit)
    as (st & Hloop & Hinv & Hbound & _ & Hpos & _).
  change (steps_performed (Seq2Seq.greedy_init self eo eh)) with 0%nat in *.
  assert (Hn : (0 < steps_performed st)%nat) by (apply Hpos; lia).
  destruct (greedy_outcome self Vt B st Hinv Hn)
    as (Hcat & _ & Hargmax & Sscores & Spreds).
  exists (cat_so_far B (Seq2Seq.scores st)), (narrow_tail (Seq2Seq.preds st)),
         (steps_performed st).
  split.
  { unfold Seq2Seq.forward. rewrite Henc. cbn [bind].
    unfold Seq2Seq.decode_greedy, Seq2Seq.decode_greedy_loop.
    rewrite Leo, Hloop. cbn [bind]. now rewrite Hcat. }
  split; [lia|]. split; [lia|]. split; [assumption|]. split; [assumption|].
  rewrite Hargmax. eapply argmax_dim2_in_range; eauto. lia.
Qed.

(** X11: with targets of shape (B, T) the same model returns scores of
    shape (B, T, Vt) and predictions of shape (B, T), and [max_len] plays no
    part: the result is the same for every [max_len]. *)
Theorem forward_forced_end_to_end
        (self : Seq2Seq.t) (inputs targets : index_tensor) (max_len : Z)
        (E H Vs Vt B L T : nat) :
  constructed E H Vs Vt self ->
  shape2 inputs B L -> (0 < B)%nat -> (0 < L)%nat -> in_range Vs inputs ->
  shape2 targets B T -> (0 < T)%nat -> in_range Vt targets ->
  exists scores preds,
    Seq2Seq.forward self inputs (Some targets) max_len = Ok (scores, preds) /\
    shape3 scores B T Vt /\ shape2 preds B T /\ in_range Vt preds /\
    Forall (Forall log_distribution) scores /\
    forall max_len',
      Seq2Seq.forward self inputs (Some targets) max_len' = Ok (scores, preds).
Proof.
  intros [Henc_s Hdec_s] Hshape HB HL Hin Htg HT Hintg.
  pose proof (encoder_sized_wf _ _ _ _ Henc_s) as Hwe.
  pose proof (decoder_sized_wf _ _ _ _ Hdec_s) as Hwd.
  destruct (encoder_forward_ready _ _ _ _ _ _ Hwe Hshape HB HL Hin)
    as (eo & eh & Henc & [Leo _] & Hhs & _).
  destruct (decoder_forward_ok _ _ _ _ Vt B T Hwd Htg HB HT Hintg Leo Hhs)
    as (logits & hs' & Hfw & Slog & _).
  pose proof (in_range_vocab_positive Vt B T targets Hintg Htg HB HT) as HV.
  assert (Hrun : forall ml,
             Seq2Seq.forward self inputs (Some targets) ml
             = Ok (log_softmax_dim2 logits, argmax_dim2 logits)).
  { intros ml. unfold Seq2Seq.forward. rewrite Henc. cbn [bind].
    unfold Seq2Seq.decode_forced. now rewrite Hfw. }
  exists (log_softmax_dim2 logits), (argmax_dim2 logits).
  split; [apply Hrun|].
  split; [now apply log_softmax_dim2_shape|].
  split; [eapply argmax_dim2_shape; eauto|].
  split; [eapply argmax_dim2_in_range; eauto|].
  split; [|exact Hrun].
  destruct Slog as [_ Fm]. unfold log_softmax_dim2.
  apply Forall_map. eapply Forall_impl; [|exact Fm]. intros m [_ Fr].
  apply Forall_map. eapply Forall_impl; [|exact Fr]. intros v Hv.
  apply log_softmax_normalised. list_types; lia.
Qed.

Lemma tiny_constructed (training : bool) : constructed 1 1 3 3 (tiny_model training).
Proof.
  unfold constructed, encoder_sized, decoder_sized, attention_sized, weights_sized,
    linear_sized, sized.
  cbn. repeat split; repeat constructor.
  exists zero_weights. cbn. repeat split; repeat constructor.
Defined.

Lemma forward_greedy_end_to_end_witness :
  exists scores preds n,
    Seq2Seq.forward (tiny_model false) [[0; 1]; [2; 0]]%Z None 5 = Ok (scores, preds) /\
    (1 <= n)%nat /\ (Z.of_nat n <= 5)%Z /\
    shape3 scores 2 n 3 /\ shape2 preds 2 n /\ in_range 3 preds.
Proof.
  apply (forward_greedy_end_to_end (tiny_model false) [[0; 1]; [2; 0]]%Z 5 1 1 3 3 2 2).
  - exact (tiny_constructed false).
  - simpl. lia.
  - split; [reflexivity|]. repeat constructor.
  - apply Nat.lt_0_succ.
  - apply Nat.lt_0_succ.
  - repeat constructor; simpl; lia.
  - reflexivity.
Defined.

Lemma forward_forced_end_to_end_witness :
  exists scores preds,
    Seq2Seq.forward (tiny_model true) [[0; 1]; [2; 0]]%Z (Some [[1; 2; 0]; [1; 0; 2]]%Z) 50
    = Ok (scores, preds) /\
    shape3 scores 2 3 3 /\ shape2 preds 2 3.
Proof.
  destruct (forward_forced_end_to_end
              (tiny_model true) [[0; 1]; [2; 0]]%Z [[1; 2; 0]; [1; 0; 2]]%Z 50
              1 1 3 3 2 2 3)
    as (scores & preds & Hrun & Ss & Sp & _).
  - exact (tiny_constructed true).
  - split; [reflexivity|]. repeat constructor.
  - apply Nat.lt_0_succ.
  - apply Nat.lt_0_succ.
  - repeat constructor; simpl; lia.
  - split; [reflexivity|]. repeat constructor.
  - apply Nat.lt_0_succ.
  - repeat constructor; simpl; lia.
  - exists scores, preds. split; [exact Hrun|]. split; [exact Ss | exact Sp].
Defined.

(** ** The output of the attention *)

Lemma tanh_bounds (x : R) : -1 <= tanh x <= 1.
Proof.
  unfold tanh, sinh, cosh.
  pose proof (exp_pos x) as Ha. pose proof (exp_pos (- x)) as Hb.
  set (a := exp x) in *. set (b := exp (- x)) in *.
  assert (E : (a - b) / 2 / ((a + b) / 2) * (a + b) = a - b) by (field; lra).
  split; apply Rlt_le.
  - apply Rmult_lt_reg_r with (a + b); [lra|]. rewrite E. lra.
  - apply Rmult_lt_reg_r with (a + b); [lra|]. rewrite E. lra.
Qed.

(** X12: the combined representation that [Attention.forward] returns for
    a batch of [B] rows has shape (B, 1, hidden_size), and each of its
    entries lies in the interval from -1 to 1, the range of [tanh]. *)
Theorem attention_output_bounded
        (self : Attention.t) (decoder_output : tensor3) (last_hidden : hidden_pair)
        (encoder_outputs : tensor3) (H B : nat) :
  attention_sized H self ->
  length decoder_output = B ->
  length (last (fst last_hidden) []) = B ->
  length encoder_outputs = B ->
  let output := fst (Attention.forward self decoder_output last_hidden encoder_outputs) in
  shape3 output B 1 H /\
  Forall (Forall (Forall (fun x => -1 <= x <= 1))) output.
Proof.
  intros [_ Hcomb] Hd Hh He output.
  pose proof (attention_output_shape self decoder_output last_hidden encoder_outputs B
                Hd Hh He) as [HB Hrows].
  fold output in HB, Hrows.
  assert (Hform : exists merged,
             output = map (map (map tanh))
                          (unsqueeze1 (Linear.forward2 (Attention.combine_layer self) merged))).
  { eexists. reflexivity. }
  destruct Hform as [merged Hform].
  split.
  - split; [assumption|]. rewrite Hform.
    unfold unsqueeze1, Linear.forward2. rewrite !map_map.
    apply Forall_map. apply Forall_forall. intros v _. cbn [map].
    split; [reflexivity|]. constructor; [|constructor].
    rewrite length_map. eapply linear_apply_length. eapply linear_sized_wf; eauto.
  - rewrite Hform. apply Forall_map. apply Forall_forall. intros m _.
    apply Forall_map. apply Forall_forall. intros v _.
    apply Forall_map. apply Forall_forall. intros x _. apply tanh_bounds.
Qed.

Lemma attention_output_bounded_witness :
  let output :=
    fst (Attention.forward tiny_attention [[[0]]] ([[[0]]], [[[0]]]) [[[1; 2]; [3; 4]]]) in
  shape3 output 1 1 1 /\
  Forall (Forall (Forall (fun x => -1 <= x <= 1))) output.
Proof.
  apply (attention_output_bounded tiny_attention [[[0]]] ([[[0]]], [[[0]]])
                                  [[[1; 2]; [3; 4]]] 1 1).
  - unfold attention_sized, linear_sized, sized. cbn. repeat split; repeat constructor.
  - reflexivity.
  - reflexivity.
  - reflexivity.
Defined.

(** ** Batches side by side

    Every operation of the model works on the rows of a batch one by one:
    on two batches put one after the other it gives the results for the
    first followed by the results for the second. *)

Lemma zipWith_app_both {X Y W : Type} (f : X -> Y -> W) (a1 a2 : list X) (b1 b2 : list Y) :
  length a1 = length b1 ->
  zipWith f (a1 ++ a2) (b1 ++ b2) = zipWith f a1 b1 ++ zipWith f a2 b2.
Proof.
  revert b1. induction a1 as [|x a1 IH]; intros [|y b1] Hlen; simpl in *; try lia; auto.
  f_equal. apply IH. lia.
Qed.

Lemma combine_app_both {X Y : Type} (a1 a2 : list X) (b1 b2 : list Y) :
  length a1 = length b1 ->
  combine (a1 ++ a2) (b1 ++ b2) = combine a1 b1 ++ combine a2 b2.
Proof.
  revert b1. induction a1 as [|x a1 IH]; intros [|y b1] Hlen; simpl in *; try lia; auto.
  f_equal. apply IH. lia.
Qed.

Lemma size1_app {X : Type} (a b : list (list X)) :
  (0 < length a)%nat -> size1 (a ++ b) = size1 a.
Proof. destruct a; simpl; [lia | reflexivity]. Qed.

Lemma zeros_app (B1 B2 H : nat) :
  LSTM.zeros (B1 + B2) H = LSTM.zeros B1 H ++ LSTM.zeros B2 H.
Proof. unfold LSTM.zeros. apply repeat_app. Qed.

(** The attention on two batches side by side. *)
Lemma attention_forward_batches (self : Attention.t) (d1 d2 : tensor3)
      (h1 h2 : matrix) (c c1 c2 : tensor3) (e1 e2 : tensor3) :
  length d1 = length h1 -> length h1 = length e1 ->
  fst (Attention.forward self (d1 ++ d2) ([h1 ++ h2], c) (e1 ++ e2))
  = fst (Attention.forward self d1 ([h1], c1) e1)
    ++ fst (Attention.forward self d2 ([h2], c2) e2).
Proof.
  intros Hd He.
  unfold Attention.forward, Attention.attn_weights, Attention.attn_scores,
    softmax_dim1, bmm, squeeze1, unsqueeze1, Linear.forward2, Linear.forward3.
  cbn [fst last].
  rewrite !map_app.
  rewrite (zipWith_app_both matmul) by (rewrite !length_map; exact He).
  rewrite map_app.
  rewrite (zipWith_app_both matmul)
    by (rewrite length_map, zipWith_length, !length_map; list_types; lia).
  rewrite map_app.
  rewrite (zipWith_app_both (@app R))
    by (rewrite !length_map, zipWith_length, length_map, zipWith_length, !length_map;
        list_types; lia).
  now rewrite !map_app.
Qed.

(** One direction of a recurrent layer on the rows of a batch, each row
    from its own state. *)
Lemma lstm_rows_app (run : list vector -> vector * vector -> list vector * (vector * vector))
      (x1 x2 : tensor3) (s1 s2 : list (vector * vector)) :
  length x1 = length s1 ->
  zipWith run (x1 ++ x2) (s1 ++ s2) = zipWith run x1 s1 ++ zipWith run x2 s2.
Proof. apply zipWith_app_both. Qed.

(** A step of a recurrent layer of one direction on two batches side by
    side, from states of one layer. *)
Lemma lstm_forward_batches (self : LSTM.t) (x1 x2 : tensor3) (h1 c1 h2 c2 : matrix)
      (o1 o2 : tensor3) (s1 s2 : hidden_pair) :
  LSTM.l0_reverse self = None ->
  length x1 = length h1 -> length h1 = length c1 ->
  LSTM.forward self x1 (Some ([h1], [c1])) = Ok (o1, s1) ->
  LSTM.forward self x2 (Some ([h2], [c2])) = Ok (o2, s2) ->
  LSTM.forward self (x1 ++ x2) (Some ([h1 ++ h2], [c1 ++ c2]))
  = Ok (o1 ++ o2,
        ([nth 0 (fst s1) [] ++ nth 0 (fst s2) []],
         [nth 0 (snd s1) [] ++ nth 0 (snd s2) []])).
Proof.
  intros Huni Hx Hc. unfold LSTM.forward. rewrite Huni. cbn [nth].
  destruct (Nat.eqb_spec (size1 x1) 0) as [|N1]; [discriminate|].
  destruct (Nat.eqb_spec (size1 x2) 0) as [|N2]; [discriminate|].
  intros E1 E2. injection E1 as <- <-. injection E2 as <- <-.
  assert (Hne : (0 < length x1)%nat) by (destruct x1; simpl in *; lia).
  rewrite (size1_app _ _ Hne).
  destruct (Nat.eqb_spec (size1 x1) 0) as [|_]; [contradiction|].
  rewrite combine_app_both by (list_types; lia).
  rewrite zipWith_app_both by (rewrite length_combine; list_types; lia).
  cbn [fst snd nth]. now rewrite !map_app.
Qed.

Lemma lstm_step_state_form (self : LSTM.t) (x : tensor3) (h c : matrix)
      (o : tensor3) (s : hidden_pair) :
  LSTM.l0_reverse self = None ->
  length x = length h -> length h = length c ->
  LSTM.forward self x (Some ([h], [c])) = Ok (o, s) ->
  exists h' c',
    s = ([h'], [c']) /\ length o = length x /\
    length h' = length x /\ length c' = length x.
Proof.
  intros Huni Hx Hc. unfold LSTM.forward. rewrite Huni. cbn [nth].
  destruct (size1 x =? 0)%nat; [discriminate|].
  intros E. injection E as <- <-.
  do 2 eexists. split; [reflexivity|].
  rewrite !length_map, zipWith_length, length_combine. list_types; lia.
Qed.

Lemma decoder_steps_cons (self : Decoder.t) (encoder_outputs embedded : tensor3)
      (p : nat) (ps : list nat) (outputs : list tensor3) (hs : hidden_pair) :
  Decoder.steps self encoder_outputs embedded (p :: ps) outputs hs
  = bind (LSTM.forward (Decoder.recurrent_layer self)
                       (unsqueeze1 (select1 p embedded)) (Some hs))
         (fun r =>
            Decoder.steps self encoder_outputs embedded ps
              (outputs ++ [fst (Attention.forward (Decoder.attention_layer self)
                                                  (fst r) (snd r) encoder_outputs)])
              (snd r)).
Proof.
  cbn [Decoder.steps].
  destruct (LSTM.forward _ _ _) as [[so hs']|]; [|reflexivity]. cbn [bind fst snd].
  now destruct (Attention.forward _ _ _ _).
Qed.

Lemma unsqueeze_select_app (p : nat) (a b : tensor3) :
  unsqueeze1 (select1 p (a ++ b))
  = unsqueeze1 (select1 p a) ++ unsqueeze1 (select1 p b).
Proof. unfold unsqueeze1, select1. now rewrite !map_app. Qed.

(** The steps of the decoder on two batches side by side: the outputs of
    every step and the last state are those of the two batches, one after
    the other. *)
Lemma decoder_steps_batches (self : Decoder.t) (e1 e2 emb1 emb2 : tensor3)
      (ps : list nat) :
  LSTM.l0_reverse (Decoder.recurrent_layer self) = None ->
  length emb1 = length e1 ->
  forall outs1 outs2 h1 c1 h2 c2 o1 o2 s1 s2,
    length h1 = length e1 -> length c1 = length e1 ->
    length outs1 = length outs2 ->
    Forall (fun o => length o = length e1) outs1 ->
    Decoder.steps self e1 emb1 ps outs1 ([h1], [c1]) = Ok (o1, s1) ->
    Decoder.steps self e2 emb2 ps outs2 ([h2], [c2]) = Ok (o2, s2) ->
    Decoder.steps self (e1 ++ e2) (emb1 ++ emb2) ps
                  (zipWith (@app matrix) outs1 outs2) ([h1 ++ h2], [c1 ++ c2])
    = Ok (zipWith (@app matrix) o1 o2,
          ([nth 0 (fst s1) [] ++ nth 0 (fst s2) []],
           [nth 0 (snd s1) [] ++ nth 0 (snd s2) []])) /\
    length o1 = length o2 /\
    Forall (fun o => length o = length e1) o1.
Proof.
  intros Huni Hemb. induction ps as [|p ps IH];
    intros outs1 outs2 h1 c1 h2 c2 o1 o2 s1 s2 Hh Hc Hlen Hall H1 H2.
  - cbn [Decoder.steps] in *. injection H1 as <- <-. injection H2 as <- <-.
    split; [reflexivity|]. split; assumption.
  - rewrite decoder_steps_cons in H1, H2 |- *.
    apply bind_Ok in H1. destruct H1 as ([so1 t1] & L1 & H1).
    apply bind_Ok in H2. destruct H2 as ([so2 t2] & L2 & H2).
    cbn [fst snd] in H1, H2.
    assert (Hx : length (unsqueeze1 (select1 p emb1)) = length h1).
    { unfold unsqueeze1, select1. rewrite !length_map. list_types; congruence. }
    assert (Hhc : length h1 = length c1) by (list_types; congruence).
    destruct (lstm_step_state_form _ _ _ _ _ _ Huni Hx Hhc L1)
      as (h1' & c1' & -> & Lso & Lh' & Lc').
    assert (Hform2 : exists h2' c2', t2 = ([h2'], [c2'])).
    { revert L2. unfold LSTM.forward. rewrite Huni.
      destruct (size1 _ =? 0)%nat; [discriminate|].
      intros E. injection E as _ <-. eauto. }
    destruct Hform2 as (h2' & c2' & ->).
    pose proof (lstm_forward_batches _ _ _ _ _ _ _ _ _ _ _ Huni Hx Hhc L1 L2) as EL.
    cbn [fst snd nth] in EL.
    assert (EA : fst (Attention.forward (Decoder.attention_layer self) (so1 ++ so2)
                                        ([h1' ++ h2'], [c1' ++ c2']) (e1 ++ e2))
                 = fst (Attention.forward (Decoder.attention_layer self) so1
                                          ([h1'], [c1']) e1)
                   ++ fst (Attention.forward (Decoder.attention_layer self) so2
                                             ([h2'], [c2']) e2)).
    { apply attention_forward_batches; list_types; congruence. }
    assert (EZ : zipWith (@app matrix) outs1 outs2
                 ++ [fst (Attention.forward (Decoder.attention_layer self) so1
                                            ([h1'], [c1']) e1)
                     ++ fst (Attention.forward (Decoder.attention_layer self) so2
                                               ([h2'], [c2']) e2)]
                 = zipWith (@app matrix)
                     (outs1 ++ [fst (Attention.forward (Decoder.attention_layer self) so1
                                                       ([h1'], [c1']) e1)])
                     (outs2 ++ [fst (Attention.forward (Decoder.attention_layer self) so2
                                                       ([h2'], [c2']) e2)])).
    { now rewrite zipWith_app_both. }
    rewrite unsqueeze_select_app.
    unfold hidden_pair in *. list_types.
    rewrite EL. cbn [bind fst snd]. rewrite EA, EZ.
    apply IH; try assumption.
    + congruence.
    + congruence.
    + rewrite !length_app. simpl. lia.
    + apply Forall_app. split; [assumption|]. constructor; [|constructor].
      apply (attention_output_shape _ so1 ([h1'], [c1']) e1 (length e1));
        cbn [fst last]; list_types; congruence.
Qed.

Lemma cat_fold_batches (ts1 ts2 : list tensor3) :
  forall (t1 t2 : tensor3) (B1 : nat),
    length ts1 = length ts2 -> length t1 = B1 ->
    Forall (fun t => length t = B1) ts1 ->
    fold_left (zipWith (@app vector)) (zipWith (@app matrix) ts1 ts2) (t1 ++ t2)
    = fold_left (zipWith (@app vector)) ts1 t1
      ++ fold_left (zipWith (@app vector)) ts2 t2.
Proof.
  revert ts2. induction ts1 as [|u1 ts1 IH]; intros [|u2 ts2] t1 t2 B1 Hlen Ht Hall;
    simpl in *; try lia; auto.
  inversion Hall as [|? ? Hu Hall']; subst.
  rewrite zipWith_app_both by (list_types; congruence).
  apply (IH ts2 _ _ (length t1)); [lia | | assumption].
  rewrite zipWith_length. list_types; lia.
Qed.

Lemma cat1_batches (o1 o2 : list tensor3) (c1 c2 : tensor3) (B1 : nat) :
  length o1 = length o2 -> Forall (fun t => length t = B1) o1 ->
  cat1 o1 = Ok c1 -> cat1 o2 = Ok c2 ->
  cat1 (zipWith (@app matrix) o1 o2) = Ok (c1 ++ c2).
Proof.
  intros Hlen Hall H1 H2.
  destruct o1 as [|t1 o1]; [discriminate|]. destruct o2 as [|t2 o2]; [discriminate|].
  unfold cat1 in *. injection H1 as <-. injection H2 as <-.
  cbn [zipWith]. inversion Hall; subst. f_equal.
  apply (cat_fold_batches _ _ _ _ (length t1)); simpl in *; auto; lia.
Qed.

(** [Decoder.forward] on two batches side by side. *)
Lemma decoder_forward_batches (self : Decoder.t) (t1 t2 : index_tensor)
      (e1 e2 : tensor3) (h1 c1 h2 c2 : matrix) (l1 l2 : tensor3) (s1 s2 : hidden_pair)
      (B2 T : nat) :
  LSTM.l0_reverse (Decoder.recurrent_layer self) = None ->
  shape2 t1 (length e1) T -> shape2 t2 B2 T ->
  (0 < length e1)%nat -> (0 < B2)%nat ->
  length h1 = length e1 -> length c1 = length e1 ->
  Decoder.forward self t1 e1 ([h1], [c1]) = Ok (l1, s1) ->
  Decoder.forward self t2 e2 ([h2], [c2]) = Ok (l2, s2) ->
  Decoder.forward self (t1 ++ t2) (e1 ++ e2) ([h1 ++ h2], [c1 ++ c2])
  = Ok (l1 ++ l2,
        ([nth 0 (fst s1) [] ++ nth 0 (fst s2) []],
         [nth 0 (snd s1) [] ++ nth 0 (snd s2) []])).
Proof.
  intros Huni S1 S2 HB1 HB2 Hh Hc H1 H2.
  unfold Decoder.forward in H1, H2.
  rewrite (shape2_size1 _ _ _ S1 HB1) in H1. rewrite (shape2_size1 _ _ _ S2 HB2) in H2.
  apply bind_Ok in H1. destruct H1 as (emb1 & E1 & H1).
  apply bind_Ok in H1. destruct H1 as ([o1 u1] & St1 & H1).
  apply bind_Ok in H1. destruct H1 as (k1 & C1 & H1). injection H1 as <- <-.
  apply bind_Ok in H2. destruct H2 as (emb2 & E2 & H2).
  apply bind_Ok in H2. destruct H2 as ([o2 u2] & St2 & H2).
  apply bind_Ok in H2. destruct H2 as (k2 & C2 & H2). injection H2 as <- <-.
  assert (Lemb : length emb1 = length e1).
  { unfold Embedding.forward in E1. apply mapM_length in E1.
    destruct S1 as [L1 _]. list_types; congruence. }
  destruct (decoder_steps_batches self e1 e2 emb1 emb2 (seq 0 T) Huni Lemb
              [] [] h1 c1 h2 c2 o1 o2 u1 u2 Hh Hc eq_refl (Forall_nil _) St1 St2)
    as (Hsteps & Lo & Fo).
  cbn [zipWith] in Hsteps.
  unfold Decoder.forward.
  assert (Hsz : size1 (t1 ++ t2) = T).
  { rewrite size1_app; [apply (shape2_size1 _ _ _ S1 HB1)|]. destruct S1; lia. }
  rewrite Hsz.
  assert (Eemb : Embedding.forward (Decoder.embedding_layer self) (t1 ++ t2)
                 = Ok (emb1 ++ emb2)).
  { unfold Embedding.forward in *. now apply mapM_app. }
  rewrite Eemb. cbn [bind].
  pose proof (cat1_batches _ _ _ _ _ Lo Fo C1 C2) as Ecat.
  unfold hidden_pair in *. list_types.
  rewrite Hsteps. cbn [bind]. rewrite Ecat. cbn [bind].
  unfold Linear.forward3. now rewrite map_app.
Qed.

(** [Encoder.forward] on two batches side by side. *)
Lemma encoder_forward_batches (self : Encoder.t) (i1 i2 : index_tensor)
      (eo1 eo2 : tensor3) (eh1 eh2 : hidden_pair) :
  Encoder.forward self i1 = Ok (eo1, eh1) ->
  Encoder.forward self i2 = Ok (eo2, eh2) ->
  Encoder.forward self (i1 ++ i2)
  = Ok (eo1 ++ eo2,
        ([nth 0 (fst eh1) [] ++ nth 0 (fst eh2) []],
         [nth 0 (snd eh1) [] ++ nth 0 (snd eh2) []])).
Proof.
  unfold Encoder.forward. intros H1 H2.
  apply bind_Ok in H1. destruct H1 as (emb1 & E1 & H1).
  apply bind_Ok in H1. destruct H1 as ([o1 [hn1 cn1]] & L1 & H1). injection H1 as <- <-.
  apply bind_Ok in H2. destruct H2 as (emb2 & E2 & H2).
  apply bind_Ok in H2. destruct H2 as ([o2 [hn2 cn2]] & L2 & H2). injection H2 as <- <-.
  assert (Eemb : Embedding.forward (Encoder.embedding_layer self) (i1 ++ i2)
                 = Ok (emb1 ++ emb2)).
  { unfold Embedding.forward in *. now apply mapM_app. }
  rewrite Eemb. cbn [bind fst snd nth unsqueeze0].
  revert L1 L2. unfold LSTM.forward.
  destruct (Nat.eqb_spec (size1 emb1) 0) as [|N1]; [discriminate|].
  destruct (Nat.eqb_spec (size1 emb2) 0) as [|N2]; [discriminate|].
  assert (Hne : (0 < length emb1)%nat) by (destruct emb1; simpl in *; lia).
  rewrite (size1_app _ _ Hne).
  destruct (Nat.eqb_spec (size1 emb1) 0) as [|_]; [contradiction|].
  rewrite length_app, zeros_app.
  rewrite combine_app_both by reflexivity.
  assert (Lz : forall B, length (combine (LSTM.zeros B (LSTM.hidden_size
                                            (Encoder.recurrent_layer self)))
                                         (LSTM.zeros B (LSTM.hidden_size
                                            (Encoder.recurrent_layer self)))) = B).
  { intros B. apply zero_state_length. }
  rewrite !zipWith_app_both by (now rewrite Lz).
  destruct (LSTM.l0_reverse (Encoder.recurrent_layer self)) as [wr|].
  - rewrite !zipWith_app_both by (now rewrite Lz).
    intros E1' E2'. injection E1' as <- <- <-. injection E2' as <- <- <-.
    cbn [bind fst snd]. unfold sum0. cbn [fold_left].
    rewrite !map_app.
    rewrite !zipWith_app_both
      by (rewrite !length_map, !zipWith_length, !Lz; reflexivity).
    reflexivity.
  - intros E1' E2'. injection E1' as <- <- <-. injection E2' as <- <- <-.
    cbn [bind fst snd]. unfold sum0. cbn [fold_left].
    now rewrite !map_app.
Qed.

Lemma single_layer (t : tensor3) (B H : nat) :
  shape3 t 1 B H -> exists m, t = [m] /\ length m = B.
Proof.
  intros [Hl Hm]. destruct t as [|m [|? ?]]; try discriminate.
  exists m. split; [reflexivity|]. inversion Hm as [|? ? [Lm _] _]. exact Lm.
Qed.

Lemma encoder_forward_ready_layers (self : Encoder.t) (inputs : index_tensor)
      (V H B L : nat) :
  wf_encoder V H self ->
  shape2 inputs B L -> (0 < B)%nat -> (0 < L)%nat ->
  in_range V inputs ->
  exists encoder_outputs h c,
    Encoder.forward self inputs = Ok (encoder_outputs, ([h], [c])) /\
    length encoder_outputs = B /\ length h = B /\ length c = B.
Proof.
  intros Hwf Hs HB HL Hin.
  destruct (encoder_forward_ready _ _ _ _ _ _ Hwf Hs HB HL Hin)
    as (eo & [hh cc] & Hfw & [Leo _] & _ & Sh & Sc).
  cbn [fst snd] in Sh, Sc.
  destruct (single_layer _ _ _ Sh) as (h & -> & Lh).
  destruct (single_layer _ _ _ Sc) as (c & -> & Lc).
  exists eo, h, c. repeat split; assumption.
Qed.

(** X13: the encoder treats the rows of a batch separately.  For two
    batches of source sequences of the same length, encoding them together,
    one after the other, returns the outputs of the first followed by those
    of the second, and likewise for the merged hidden and cell states. *)
Theorem encoder_forward_side_by_side
        (self : Encoder.t) (i1 i2 : index_tensor) (V H B1 B2 L : nat) :
  wf_encoder V H self ->
  shape2 i1 B1 L -> shape2 i2 B2 L ->
  (0 < B1)%nat -> (0 < B2)%nat -> (0 < L)%nat ->
  in_range V i1 -> in_range V i2 ->
  exists eo1 h1 c1 eo2 h2 c2,
    Encoder.forward self i1 = Ok (eo1, ([h1], [c1])) /\
    Encoder.forward self i2 = Ok (eo2, ([h2], [c2])) /\
    Encoder.forward self (i1 ++ i2) = Ok (eo1 ++ eo2, ([h1 ++ h2], [c1 ++ c2])).
Proof.
  intros Hwf S1 S2 HB1 HB2 HL I1 I2.
  destruct (encoder_forward_ready_layers _ _ _ _ _ _ Hwf S1 HB1 HL I1)
    as (eo1 & h1 & c1 & F1 & _).
  destruct (encoder_forward_ready_layers _ _ _ _ _ _ Hwf S2 HB2 HL I2)
    as (eo2 & h2 & c2 & F2 & _).
  exists eo1, h1, c1, eo2, h2, c2.
  split; [assumption|]. split; [assumption|].
  now rewrite (encoder_forward_batches _ _ _ _ _ _ _ F1 F2).
Qed.

Lemma encoder_forward_side_by_side_witness :
  exists eo1 h1 c1 eo2 h2 c2,
    Encoder.forward tiny_encoder [[0; 1]]%Z = Ok (eo1, ([h1], [c1])) /\
    Encoder.forward tiny_encoder [[2; 0]; [1; 1]]%Z = Ok (eo2, ([h2], [c2])) /\
    Encoder.forward tiny_encoder [[0; 1]; [2; 0]; [1; 1]]%Z
    = Ok (eo1 ++ eo2, ([h1 ++ h2], [c1 ++ c2])).
Proof.
  apply (encoder_forward_side_by_side tiny_encoder [[0; 1]]%Z [[2; 0]; [1; 1]]%Z
                                      3 1 1 2 2).
  - repeat split. exists zero_weights. repeat split.
  - split; [reflexivity|]. repeat constructor.
  - split; [reflexivity|]. repeat constructor.
  - apply Nat.lt_0_1.
  - apply Nat.lt_0_succ.
  - apply Nat.lt_0_succ.
  - repeat constructor; simpl; lia.
  - repeat constructor; simpl; lia.
Defined.

(** X14: teacher forcing treats the rows of a batch separately.  For two
    batches with the same source length and the same target length, the
    forward pass on the two batches together returns the scores and
    predictions of the first followed by those of the second: no row's
    result depends on the other rows of its batch. *)
Theorem forward_forced_side_by_side
        (self : Seq2Seq.t) (i1 i2 t1 t2 : index_tensor) (max_len : Z)
        (E H Vs Vt B1 B2 L T : nat) :
  constructed E H Vs Vt self ->
  shape2 i1 B1 L -> shape2 i2 B2 L -> shape2 t1 B1 T -> shape2 t2 B2 T ->
  (0 < B1)%nat -> (0 < B2)%nat -> (0 < L)%nat -> (0 < T)%nat ->
  in_range Vs i1 -> in_range Vs i2 -> in_range Vt t1 -> in_range Vt t2 ->
  exists s1 p1 s2 p2,
    Seq2Seq.forward self i1 (Some t1) max_len = Ok (s1, p1) /\
    Seq2Seq.forward self i2 (Some t2) max_len = Ok (s2, p2) /\
    Seq2Seq.forward self (i1 ++ i2) (Some (t1 ++ t2)) max_len = Ok (s1 ++ s2, p1 ++ p2).
Proof.
  intros [Hes Hds] Si1 Si2 St1 St2 HB1 HB2 HL HT Ii1 Ii2 It1 It2.
  pose proof (encoder_sized_wf _ _ _ _ Hes) as Hwe.
  pose proof (decoder_sized_wf _ _ _ _ Hds) as Hwd.
  destruct (encoder_forward_ready_layers _ _ _ _ _ _ Hwe Si1 HB1 HL Ii1)
    as (eo1 & h1 & c1 & F1 & Leo1 & Lh1 & Lc1).
  destruct (encoder_forward_ready_layers _ _ _ _ _ _ Hwe Si2 HB2 HL Ii2)
    as (eo2 & h2 & c2 & F2 & Leo2 & Lh2 & Lc2).
  destruct (decoder_forward_ok _ t1 eo1 ([h1], [c1]) Vt B1 T Hwd St1 HB1 HT It1 Leo1)
    as (l1 & u1 & D1 & _); [split; assumption|].
  destruct (decoder_forward_ok _ t2 eo2 ([h2], [c2]) Vt B2 T Hwd St2 HB2 HT It2 Leo2)
    as (l2 & u2 & D2 & _); [split; assumption|].
  exists (log_softmax_dim2 l1), (argmax_dim2 l1), (log_softmax_dim2 l2), (argmax_dim2 l2).
  split. { unfold Seq2Seq.forward, Seq2Seq.decode_forced. rewrite F1. cbn [bind].
           now rewrite D1. }
  split. { unfold Seq2Seq.forward, Seq2Seq.decode_forced. rewrite F2. cbn [bind].
           now rewrite D2. }
  unfold Seq2Seq.forward, Seq2Seq.decode_forced.
  rewrite (encoder_forward_batches _ _ _ _ _ _ _ F1 F2). cbn [bind fst snd nth].
  destruct Hwd as (_ & Huni & _).
  rewrite (decoder_forward_batches _ t1 t2 eo1 eo2 h1 c1 h2 c2 l1 l2 u1 u2 B2 T Huni);
    try assumption; try (list_types; congruence); try (list_types; lia).
  cbn [bind]. unfold log_softmax_dim2, argmax_dim2. now rewrite !map_app.
Qed.

Lemma forward_forced_side_by_side_witness :
  exists s1 p1 s2 p2,
    Seq2Seq.forward (tiny_model true) [[0; 1]]%Z (Some [[1; 2; 0]]%Z) 50 = Ok (s1, p1) /\
    Seq2Seq.forward (tiny_model true) [[2; 0]]%Z (Some [[1; 0; 2]]%Z) 50 = Ok (s2, p2) /\
    Seq2Seq.forward (tiny_model true) [[0; 1]; [2; 0]]%Z
                    (Some [[1; 2; 0]; [1; 0; 2]]%Z) 50
    = Ok (s1 ++ s2, p1 ++ p2).
Proof.
  apply (forward_forced_side_by_side (tiny_model true)
           [[0; 1]]%Z [[2; 0]]%Z [[1; 2; 0]]%Z [[1; 0; 2]]%Z 50 1 1 3 3 1 1 2 3).
  - exact (tiny_constructed true).
  - split; [reflexivity|]. repeat constructor.
  - split; [reflexivity|]. repeat constructor.
  - split; [reflexivity|]. repeat constructor.
  - split; [reflexivity|]. repeat constructor.
  - apply Nat.lt_0_1.
  - apply Nat.lt_0_1.
  - apply Nat.lt_0_succ.
  - apply Nat.lt_0_succ.
  - repeat constructor; simpl; lia.
  - repeat constructor; simpl; lia.
  - repeat constructor; simpl; lia.
  - repeat constructor; simpl; lia.
Defined.

(** ** Greedy decoding of two batches in training mode *)

Lemma decoder_steps_state_form (self : Decoder.t) (e emb : tensor3) (B : nat)
      (ps : list nat) :
  LSTM.l0_reverse (Decoder.recurrent_layer self) = None ->
  length emb = B ->
  forall outs hs o u,
    one_layer B hs ->
    Decoder.steps self e emb ps outs hs = Ok (o, u) -> one_layer B u.
Proof.
  intros Huni Hemb. induction ps as [|p ps IH]; intros outs hs o u Hhs H.
  - cbn [Decoder.steps] in H. now injection H as _ <-.
  - rewrite decoder_steps_cons in H.
    apply bind_Ok in H. destruct H as ([so t] & L & H). cbn [fst snd] in H.
    destruct Hhs as (h & c & -> & Lh & Lc).
    assert (Hx : length (unsqueeze1 (select1 p emb)) = length h).
    { unfold unsqueeze1, select1. rewrite !length_map. list_types; congruence. }
    assert (Hhc : length h = length c) by (list_types; congruence).
    destruct (lstm_step_state_form _ _ _ _ _ _ Huni Hx Hhc L)
      as (h' & c' & -> & _ & Lh' & Lc').
    eapply IH; [|exact H].
    exists h', c'. split; [reflexivity|]. split; list_types; congruence.
Qed.

Lemma decoder_forward_state_form (self : Decoder.t) (t : index_tensor) (e : tensor3)
      (hs : hidden_pair) (l : tensor3) (u : hidden_pair) (B : nat) :
  LSTM.l0_reverse (Decoder.recurrent_layer self) = None ->
  length t = B -> one_layer B hs ->
  Decoder.forward self t e hs = Ok (l, u) -> one_layer B u.
Proof.
  intros Huni Lt Hhs H. unfold Decoder.forward in H.
  apply bind_Ok in H. destruct H as (emb & E & H).
  apply bind_Ok in H. destruct H as ([o u'] & St & H).
  apply bind_Ok in H. destruct H as (k & _ & H). injection H as _ <-.
  eapply decoder_steps_state_form; [exact Huni | | exact Hhs | exact St].
  unfold Embedding.forward in E. apply mapM_length in E. list_types; congruence.
Qed.

Lemma last_slice_app {X : Type} (a b : list (list X)) :
  last_slice (a ++ b) = last_slice a ++ last_slice b.
Proof. unfold last_slice. apply map_app. Qed.

(** A step of the greedy loop on two batches side by side. *)
Lemma greedy_step_batches (self : Seq2Seq.t) (e1 e2 : tensor3) (V B2 : nat)
      (st1 st2 st1' st2' : Seq2Seq.loop_state) :
  wf_decoder V (Seq2Seq.decoder self) ->
  (0 <= Seq2Seq.START_INDEX self < Z.of_nat V)%Z ->
  (0 < length e1)%nat -> (0 < B2)%nat ->
  greedy_inv self V (length e1) st1 -> greedy_inv self V B2 st2 ->
  steps_performed st1 = steps_performed st2 ->
  one_layer (length e1) (Seq2Seq.hidden st1) -> one_layer B2 (Seq2Seq.hidden st2) ->
  Seq2Seq.greedy_step self e1 st1 = Ok st1' ->
  Seq2Seq.greedy_step self e2 st2 = Ok st2' ->
  Seq2Seq.greedy_step self (e1 ++ e2) (side_by_side st1 st2)
  = Ok (side_by_side st1' st2') /\
  one_layer (length e1) (Seq2Seq.hidden st1') /\ one_layer B2 (Seq2Seq.hidden st2').
Proof.
  intros Hwf Hstart HB1 HB2 I1 I2 Hsteps O1 O2 G1 G2.
  destruct (greedy_step_unfold _ _ _ _ G1) as (l1 & u1 & D1 & P1 & Sc1 & Hd1).
  destruct (greedy_step_unfold _ _ _ _ G2) as (l2 & u2 & D2 & P2 & Sc2 & Hd2).
  pose proof (inv_preds_shape _ _ _ _ I1) as Sp1.
  pose proof (inv_preds_shape _ _ _ _ I2) as Sp2.
  pose proof (last_slice_shape _ _ _ Sp1) as Sl1.
  pose proof (last_slice_shape _ _ _ Sp2) as Sl2.
  assert (Ll1 : length l1 = length e1).
  { destruct (decoder_forward_ok (Seq2Seq.decoder self) _ e1 (Seq2Seq.hidden st1) V
                (length e1) 1 Hwf Sl1 HB1 Nat.lt_0_1)
      as (l & u & Dl & [Ll _] & _);
      [apply last_slice_in_range; eapply inv_preds_in_range; eauto
      | reflexivity | apply I1 |].
    rewrite D1 in Dl. injection Dl as <- _. exact Ll. }
  destruct Hwf as (HV & Huni & Hout).
  assert (Lsl1 : length (last_slice (Seq2Seq.preds st1)) = length e1) by apply Sl1.
  assert (Lsl2 : length (last_slice (Seq2Seq.preds st2)) = B2) by apply Sl2.
  pose proof (decoder_forward_state_form _ _ _ _ _ _ _ Huni Lsl1 O1 D1) as O1'.
  pose proof (decoder_forward_state_form _ _ _ _ _ _ _ Huni Lsl2 O2 D2) as O2'.
  split; [|split; [now rewrite Hd1 | now rewrite Hd2]].
  destruct O1 as (h1 & c1 & Eh1 & Lh1 & Lc1). destruct O2 as (h2 & c2 & Eh2 & Lh2 & Lc2).
  rewrite Eh1 in D1. rewrite Eh2 in D2.
  pose proof (decoder_forward_batches _ _ _ e1 e2 h1 c1 h2 c2 l1 l2 u1 u2 B2 1
                Huni Sl1 Sl2 HB1 HB2 Lh1 Lc1 D1 D2) as D12.
  unfold Seq2Seq.greedy_step, side_by_side.
  cbn [Seq2Seq.preds Seq2Seq.scores Seq2Seq.hidden].
  rewrite Eh1, Eh2. cbn [fst snd nth].
  rewrite last_slice_app, D12. cbn [bind].
  pose proof (last_slice_app l1 l2) as El.
  assert (Lz : length (Seq2Seq.preds st1)
               = length (argmax_dim2 (log_softmax_dim2 (last_slice l1)))).
  { unfold argmax_dim2, log_softmax_dim2, last_slice. rewrite !length_map.
    destruct Sp1 as [Lp _]. list_types; congruence. }
  rewrite P1, P2, Sc1, Sc2, Hd1, Hd2.
  rewrite (zipWith_app_both (@app matrix)) by exact Hsteps.
  unfold log_softmax_dim2, argmax_dim2 in *. unfold hidden_pair in *. list_types.
  rewrite El, !map_app.
  now rewrite (zipWith_app_both (@app Z)) by exact Lz.
Qed.

Lemma training_loop_batches (self : Seq2Seq.t) (e1 e2 : tensor3) (V B2 : nat) :
  Seq2Seq.training self = true ->
  wf_decoder V (Seq2Seq.decoder self) ->
  (0 <= Seq2Seq.START_INDEX self < Z.of_nat V)%Z ->
  (0 < length e1)%nat -> (0 < B2)%nat -> length e2 = B2 ->
  forall n st1 st2 st1' st2',
    greedy_inv self V (length e1) st1 -> greedy_inv self V B2 st2 ->
    steps_performed st1 = steps_performed st2 ->
    one_layer (length e1) (Seq2Seq.hidden st1) -> one_layer B2 (Seq2Seq.hidden st2) ->
    Seq2Seq.greedy_loop self e1 (length e1) n st1 = Ok st1' ->
    Seq2Seq.greedy_loop self e2 B2 n st2 = Ok st2' ->
    Seq2Seq.greedy_loop self (e1 ++ e2) (length (e1 ++ e2)) n (side_by_side st1 st2)
    = Ok (side_by_side st1' st2').
Proof.
  intros Htr Hwf Hstart HB1 HB2 He2.
  induction n as [|n IH]; intros st1 st2 st1' st2' I1 I2 Hs O1 O2 L1 L2;
    cbn [Seq2Seq.greedy_loop] in *.
  - injection L1 as <-. injection L2 as <-. reflexivity.
  - apply bind_Ok in L1. destruct L1 as (t1 & G1 & L1).
    apply bind_Ok in L2. destruct L2 as (t2 & G2 & L2).
    rewrite Htr in L1, L2 |- *. cbn [negb] in L1, L2 |- *.
    rewrite andb_false_r in L1, L2.
    destruct (greedy_step_batches self e1 e2 V B2 st1 st2 t1 t2 Hwf Hstart HB1 HB2
                I1 I2 Hs O1 O2 G1 G2) as (G12 & O1' & O2').
    rewrite G12. cbn [bind]. rewrite andb_false_r.
    destruct (greedy_step_ok self e1 V (length e1) Hwf Hstart HB1 eq_refl st1 I1)
      as (t1' & G1' & I1' & _).
    rewrite G1 in G1'. injection G1' as <-.
    destruct (greedy_step_ok self e2 V B2 Hwf Hstart HB2 He2 st2 I2)
      as (t2' & G2' & I2' & _).
    rewrite G2 in G2'. injection G2' as <-.
    apply IH; try assumption.
    rewrite (greedy_step_counts _ _ _ _ G1), (greedy_step_counts _ _ _ _ G2).
    now rewrite Hs.
Qed.

(** X15: in training mode greedy decoding treats the rows of a batch
    separately.  For two batches of source sequences of the same length and
    a positive [max_len], the forward pass without targets on the two
    batches together returns the scores and predictions of the first
    followed by those of the second. *)
Theorem forward_greedy_training_side_by_side
        (self : Seq2Seq.t) (i1 i2 : index_tensor) (max_len : Z)
        (E H Vs Vt B1 B2 L : nat) :
  constructed E H Vs Vt self ->
  Seq2Seq.training self = true ->
  (0 <= Seq2Seq.START_INDEX self < Z.of_nat Vt)%Z ->
  shape2 i1 B1 L -> shape2 i2 B2 L ->
  (0 < B1)%nat -> (0 < B2)%nat -> (0 < L)%nat ->
  in_range Vs i1 -> in_range Vs i2 ->
  (0 < max_len)%Z ->
  exists s1 p1 s2 p2,
    Seq2Seq.forward self i1 None max_len = Ok (s1, p1) /\
    Seq2Seq.forward self i2 None max_len = Ok (s2, p2) /\
    Seq2Seq.forward self (i1 ++ i2) None max_len = Ok (s1 ++ s2, p1 ++ p2).
Proof.
  intros [Hes Hds] Htr Hstart Si1 Si2 HB1 HB2 HL Ii1 Ii2 Hmax.
  pose proof (encoder_sized_wf _ _ _ _ Hes) as Hwe.
  pose proof (decoder_sized_wf _ _ _ _ Hds) as Hwd.
  destruct (encoder_forward_ready_layers _ _ _ _ _ _ Hwe Si1 HB1 HL Ii1)
    as (eo1 & h1 & c1 & F1 & Leo1 & Lh1 & Lc1).
  destruct (encoder_forward_ready_layers _ _ _ _ _ _ Hwe Si2 HB2 HL Ii2)
    as (eo2 & h2 & c2 & F2 & Leo2 & Lh2 & Lc2).
  set (n := Z.to_nat max_len).
  assert (Hb1 : state_batch ([h1], [c1]) B1) by (split; assumption).
  assert (Hb2 : state_batch ([h2], [c2]) B2) by (split; assumption).
  pose proof (greedy_init_inv self eo1 Vt B1 Leo1 _ Hb1) as In1.
  pose proof (greedy_init_inv self eo2 Vt B2 Leo2 _ Hb2) as In2.
  destruct (greedy_loop_spec self eo1 Vt B1 Hwd Hstart HB1 Leo1 n _ In1)
    as (st1 & Lp1 & Iv1 & _ & Ex1 & Po1 & _).
  destruct (greedy_loop_spec self eo2 Vt B2 Hwd Hstart HB2 Leo2 n _ In2)
    as (st2 & Lp2 & Iv2 & _ & Ex2 & Po2 & _).
  specialize (Ex1 Htr). specialize (Ex2 Htr).
  assert (Hn1 : (0 < steps_performed st1)%nat) by (apply Po1; subst n; lia).
  assert (Hn2 : (0 < steps_performed st2)%nat) by (apply Po2; subst n; lia).
  destruct (greedy_outcome self Vt B1 st1 Iv1 Hn1) as (Cat1 & _).
  destruct (greedy_outcome self Vt B2 st2 Iv2 Hn2) as (Cat2 & _).
  exists (cat_so_far B1 (Seq2Seq.scores st1)), (narrow_tail (Seq2Seq.preds st1)),
         (cat_so_far B2 (Seq2Seq.scores st2)), (narrow_tail (Seq2Seq.preds st2)).
  split.
  { unfold Seq2Seq.forward. rewrite F1. cbn [bind].
    unfold Seq2Seq.decode_greedy, Seq2Seq.decode_greedy_loop.
    fold n. rewrite Leo1, Lp1. cbn [bind]. now rewrite Cat1. }
  split.
  { unfold Seq2Seq.forward. rewrite F2. cbn [bind].
    unfold Seq2Seq.decode_greedy, Seq2Seq.decode_greedy_loop.
    fold n. rewrite Leo2, Lp2. cbn [bind]. now rewrite Cat2. }
  unfold Seq2Seq.forward.
  rewrite (encoder_forward_batches _ _ _ _ _ _ _ F1 F2). cbn [bind fst snd nth].
  unfold Seq2Seq.decode_greedy, Seq2Seq.decode_greedy_loop. fold n.
  assert (Einit : Seq2Seq.greedy_init self (eo1 ++ eo2) ([h1 ++ h2], [c1 ++ c2])
                  = side_by_side (Seq2Seq.greedy_init self eo1 ([h1], [c1]))
                                 (Seq2Seq.greedy_init self eo2 ([h2], [c2]))).
  { unfold Seq2Seq.greedy_init, side_by_side.
    cbn [Seq2Seq.preds Seq2Seq.scores Seq2Seq.hidden fst snd nth zipWith].
    now rewrite length_app, repeat_app. }
  rewrite Einit.
  rewrite <- Leo1 in Iv1, In1, Lp1, HB1.
  rewrite (training_loop_batches self eo1 eo2 Vt B2 Htr Hwd Hstart HB1 HB2 Leo2 n
             _ _ st1 st2 In1 In2 eq_refl);
    [| exists h1, c1; repeat split; list_types; congruence
     | exists h2, c2; repeat split; assumption
     | exact Lp1 | exact Lp2].
  cbn [bind]. unfold side_by_side at 1. cbn [Seq2Seq.scores].
  rewrite (cat1_batches (Seq2Seq.scores st1) (Seq2Seq.scores st2)
                        (cat_so_far B1 (Seq2Seq.scores st1))
                        (cat_so_far B2 (Seq2Seq.scores st2)) (length eo1)).
  - cbn [bind]. unfold side_by_side. cbn [Seq2Seq.preds].
    unfold narrow_tail. now rewrite map_app.
  - unfold steps_performed in Ex1, Ex2.
    cbn [Seq2Seq.greedy_init Seq2Seq.scores length] in Ex1, Ex2. lia.
  - destruct Iv1 as (Fs & _). eapply Forall_impl; [|exact Fs].
    intros s [Ls _]. exact Ls.
  - exact Cat1.
  - exact Cat2.
Qed.

Lemma forward_greedy_training_side_by_side_witness :
  exists s1 p1 s2 p2,
    Seq2Seq.forward (tiny_model true) [[0; 1]]%Z None 3 = Ok (s1, p1) /\
    Seq2Seq.forward (tiny_model true) [[2; 0]]%Z None 3 = Ok (s2, p2) /\
    Seq2Seq.forward (tiny_model true) [[0; 1]; [2; 0]]%Z None 3 = Ok (s1 ++ s2, p1 ++ p2).
Proof.
  apply (forward_greedy_training_side_by_side (tiny_model true)
           [[0; 1]]%Z [[2; 0]]%Z 3 1 1 3 3 1 1 2).
  - exact (tiny_constructed true).
  - reflexivity.
  - simpl. lia.
  - split; [reflexivity|]. repeat constructor.
  - split; [reflexivity|]. repeat constructor.
  - apply Nat.lt_0_1.
  - apply Nat.lt_0_1.
  - apply Nat.lt_0_succ.
  - repeat constructor; simpl; lia.
  - repeat constructor; simpl; lia.
  - reflexivity.
Defined.

(** ** The criterion *)

Lemma criterion_item_pad {Args : Type} (args : Args) (pad_index : Z) (x : vector) :
  CrossEntropyLoss.item (create_criterion args pad_index) x pad_index = Ok 0.
Proof. unfold CrossEntropyLoss.item. cbn. now rewrite Z.eqb_refl. Qed.

(** X16: positions whose target is the padding index add nothing to the
    loss, whatever the logits there: putting such a position anywhere into
    a batch leaves the result of the criterion, loss or exception, as it
    was. *)
Theorem criterion_ignores_padding
        {Args : Type} (args : Args) (pad_index : Z)
        (input1 input2 : matrix) (x : vector) (target1 target2 : list Z) :
  length input1 = length target1 ->
  CrossEntropyLoss.forward (create_criterion args pad_index)
                           (input1 ++ x :: input2) (target1 ++ pad_index :: target2)
  = CrossEntropyLoss.forward (create_criterion args pad_index)
                             (input1 ++ input2) (target1 ++ target2).
Proof.
  revert target1. induction input1 as [|x1 input1 IH]; intros [|y1 target1] Hlen;
    simpl in Hlen; try lia.
  - cbn [app CrossEntropyLoss.forward]. rewrite criterion_item_pad. cbn [bind].
    destruct (CrossEntropyLoss.forward _ input2 target2) as [r|e]; cbn [bind];
      [|reflexivity].
    f_equal. lra.
  - cbn [app CrossEntropyLoss.forward]. rewrite IH by lia. reflexivity.
Qed.

Lemma criterion_ignores_padding_witness :
  CrossEntropyLoss.forward (create_criterion tt 0) ([[1; 2]] ++ [5; 7] :: [[3; 4]])
                           ([1%Z] ++ 0%Z :: [1%Z])
  = CrossEntropyLoss.forward (create_criterion tt 0) ([[1; 2]] ++ [[3; 4]])
                             ([1%Z] ++ [1%Z]).
Proof.
  apply (criterion_ignores_padding tt 0 [[1; 2]] [[3; 4]] [5; 7] [1%Z] [1%Z]).
  reflexivity.
Defined.

Lemma exp_le_vsum (v : vector) (i : nat) :
  (i < length v)%nat -> exp (nth i v 0) <= vsum (map exp v).
Proof.
  revert i. induction v as [|x v IH]; intros i Hi; simpl in Hi; [lia|].
  assert (Hnn : 0 <= vsum (map exp v)).
  { destruct v as [|y v']; [simpl; lra|].
    apply Rlt_le. apply vsum_exp_pos. simpl. lia. }
  destruct i as [|i]; simpl.
  - lra.
  - pose proof (exp_pos x). specialize (IH i ltac:(lia)). lra.
Qed.

Lemma log_softmax_nonpos (v : vector) (i : nat) :
  (i < length v)%nat -> nth i (log_softmax_vec v) 0 <= 0.
Proof.
  intros Hi. unfold log_softmax_vec.
  rewrite (nth_map_in _ v i 0) by assumption.
  assert (Hpos : 0 < vsum (map exp v)) by (apply vsum_exp_pos; lia).
  pose proof (exp_le_vsum v i Hi) as Hle.
  assert (nth i v 0 <= ln (vsum (map exp v))).
  { rewrite <- (ln_exp (nth i v 0)) at 1.
    destruct Hle as [Hlt | Heq].
    - apply Rlt_le. apply ln_increasing; [apply exp_pos | assumption].
    - rewrite Heq. apply Rle_refl. }
  lra.
Qed.

(** X17: the criterion never returns a negative loss. *)
Theorem criterion_nonnegative
        {Args : Type} (args : Args) (pad_index : Z) (input : matrix) (target : list Z)
        (loss : R) :
  CrossEntropyLoss.forward (create_criterion args pad_index) input target = Ok loss ->
  0 <= loss.
Proof.
  revert target loss. induction input as [|x input IH]; intros [|y target] loss H;
    cbn [CrossEntropyLoss.forward] in H; try (injection H as <-; lra).
  apply bind_Ok in H. destruct H as (l & Hl & H).
  apply bind_Ok in H. destruct H as (r & Hr & H). injection H as <-.
  specialize (IH _ _ Hr).
  assert (0 <= l); [|lra].
  unfold CrossEntropyLoss.item in Hl.
  destruct (y =? _)%Z; [injection Hl as <-; lra|].
  destruct ((y <? 0) || (Z.of_nat (length x) <=? y))%Z eqn:Hrange; [discriminate|].
  injection Hl as <-.
  apply orb_false_elim in Hrange. destruct Hrange as [H0 H1].
  apply Z.ltb_ge in H0. apply Z.leb_gt in H1.
  pose proof (log_softmax_nonpos x (Z.to_nat y) ltac:(lia)). lra.
Qed.

Lemma criterion_nonnegative_witness :
  exists loss,
    CrossEntropyLoss.forward (create_criterion tt 0) [[1; 2]; [3; 4]] [1%Z; 0%Z] = Ok loss /\
    0 <= loss.
Proof.
  eexists. split; [reflexivity|].
  apply (criterion_nonnegative tt 0 [[1; 2]; [3; 4]] [1%Z; 0%Z]). reflexivity.
Defined.

Lemma log_softmax_idempotent (v : vector) :
  log_softmax_vec (log_softmax_vec v) = log_softmax_vec v.
Proof.
  destruct v as [|x v]; [reflexivity|].
  unfold log_softmax_vec at 1.
  rewrite log_softmax_normalised by (simpl; lia).
  rewrite ln_1. rewrite <- (map_id (log_softmax_vec (x :: v))) at 2.
  apply map_ext. intros y. lra.
Qed.

(** X18: the scores that the model returns are log-softmax rows, and the
    criterion takes the log-softmax of what it is given: on rows of scores
    it returns what it returns on the logits the scores came from. *)
Theorem criterion_on_scores
        {Args : Type} (args : Args) (pad_index : Z) (logits : matrix) (target : list Z) :
  CrossEntropyLoss.forward (create_criterion args pad_index)
                           (map log_softmax_vec logits) target
  = CrossEntropyLoss.forward (create_criterion args pad_index) logits target.
Proof.
  revert target. induction logits as [|x logits IH]; intros [|y target];
    cbn [map CrossEntropyLoss.forward]; try reflexivity.
  rewrite IH. f_equal.
  unfold CrossEntropyLoss.item. rewrite log_softmax_idempotent.
  unfold log_softmax_vec at 1. now rewrite length_map.
Qed.

(** ** The attention projection has no effect *)

Lemma attention_output_projection_free (a1 a2 : Attention.t) (decoder_output : tensor3)
      (last_hidden : hidden_pair) (encoder_outputs : tensor3) (B L D : nat) :
  shape3 encoder_outputs B L D ->
  length (last (fst last_hidden) []) = B ->
  Attention.combine_layer a1 = Attention.combine_layer a2 ->
  fst (Attention.forward a1 decoder_output last_hidden encoder_outputs)
  = fst (Attention.forward a2 decoder_output last_hidden encoder_outputs).
Proof.
  intros Henc Hh Hc.
  pose proof (attention_applied_sum a1 _ _ _ _ _ Henc Hh) as E1.
  pose proof (attention_applied_sum a2 _ _ _ _ _ Henc Hh) as E2.
  unfold Attention.attention_applied in E1, E2.
  unfold Attention.forward. cbn [fst]. now rewrite E1, E2, Hc.
Qed.

Lemma decoder_steps_projection_free (self : Seq2Seq.t) (projection : Linear.t)
      (encoder_outputs embedded : tensor3) (B L D : nat) (ps : list nat) :
  shape3 encoder_outputs B L D -> (0 < B)%nat -> length embedded = B ->
  LSTM.l0_reverse (Decoder.recurrent_layer (Seq2Seq.decoder self)) = None ->
  forall outputs hs,
    state_batch hs B ->
    Decoder.steps (Seq2Seq.decoder (set_attn_layer projection self))
                  encoder_outputs embedded ps outputs hs
    = Decoder.steps (Seq2Seq.decoder self) encoder_outputs embedded ps outputs hs.
Proof.
  intros Henc HB Hemb Huni. induction ps as [|p ps IH]; intros outputs hs Hhs;
    [reflexivity|].
  rewrite !decoder_steps_cons.
  change (Decoder.recurrent_layer (Seq2Seq.decoder (set_attn_layer projection self)))
    with (Decoder.recurrent_layer (Seq2Seq.decoder self)).
  destruct (lstm_single_step (Decoder.recurrent_layer (Seq2Seq.decoder self))
              (select1 p embedded) hs B Huni HB) as (so & hs' & Hrun & _ & Hhs' & Hlast);
    [unfold select1; now rewrite length_map | assumption |].
  rewrite Hrun. cbn [bind fst snd].
  rewrite (attention_output_projection_free
             (Decoder.attention_layer (Seq2Seq.decoder (set_attn_layer projection self)))
             (Decoder.attention_layer (Seq2Seq.decoder self)) so hs' encoder_outputs
             B L D Henc Hlast eq_refl).
  now apply IH.
Qed.

Lemma decoder_forward_projection_free (self : Seq2Seq.t) (projection : Linear.t)
      (inputs : index_tensor) (encoder_outputs : tensor3) (hs : hidden_pair)
      (B L D : nat) :
  shape3 encoder_outputs B L D -> (0 < B)%nat -> length inputs = B ->
  LSTM.l0_reverse (Decoder.recurrent_layer (Seq2Seq.decoder self)) = None ->
  state_batch hs B ->
  Decoder.forward (Seq2Seq.decoder (set_attn_layer projection self))
                  inputs encoder_outputs hs
  = Decoder.forward (Seq2Seq.decoder self) inputs encoder_outputs hs.
Proof.
  intros Henc HB Hin Huni Hhs. unfold Decoder.forward.
  cbn [set_attn_layer Seq2Seq.decoder Decoder.embedding_layer Decoder.output_layer].
  destruct (Embedding.forward _ inputs) as [emb|] eqn:E; [|reflexivity].
  cbn [bind].
  rewrite (decoder_steps_projection_free self projection encoder_outputs emb B L D);
    try assumption; [reflexivity|].
  unfold Embedding.forward in E. apply mapM_length in E. list_types; congruence.
Qed.

Lemma greedy_loop_projection_free (self : Seq2Seq.t) (projection : Linear.t)
      (encoder_outputs : tensor3) (V B L D : nat) :
  wf_decoder V (Seq2Seq.decoder self) ->
  (0 <= Seq2Seq.START_INDEX self < Z.of_nat V)%Z ->
  (0 < B)%nat -> shape3 encoder_outputs B L D ->
  forall n st,
    greedy_inv self V B st ->
    Seq2Seq.greedy_loop (set_attn_layer projection self) encoder_outputs B n st
    = Seq2Seq.greedy_loop self encoder_outputs B n st.
Proof.
  intros Hwf Hstart HB Henc. induction n as [|n IH]; intros st Hinv; [reflexivity|].
  cbn [Seq2Seq.greedy_loop].
  assert (Hstep : Seq2Seq.greedy_step (set_attn_layer projection self) encoder_outputs st
                  = Seq2Seq.greedy_step self encoder_outputs st).
  { unfold Seq2Seq.greedy_step.
    rewrite (decoder_forward_projection_free self projection _ encoder_outputs _ B L D);
      try assumption; [reflexivity | | apply Hwf | apply Hinv].
    unfold last_slice. rewrite length_map. eapply inv_preds_shape; eauto. }
  rewrite Hstep.
  destruct (greedy_step_ok self encoder_outputs V B Hwf Hstart HB (proj1 Henc) st Hinv)
    as (st1 & G & Hinv1 & _).
  rewrite G. cbn [bind].
  change (Seq2Seq.all_finished (set_attn_layer projection self))
    with (Seq2Seq.all_finished self).
  change (Seq2Seq.training (set_attn_layer projection self))
    with (Seq2Seq.training self).
  destruct (_ && _); [reflexivity|]. now apply IH.
Qed.

(** X19: the weights of the attention projection play no part in the
    forward pass.  The attention weights are all 1 whatever the alignment
    scores, so for every model sized by the constructor and every valid
    source batch, with or without targets, replacing
    [decoder.attention_layer.attn_layer] by any other projection of the same
    size leaves the result of [forward] as it was. *)
Theorem forward_ignores_attention_projection
        (self : Seq2Seq.t) (projection : Linear.t) (inputs : index_tensor)
        (targets : option index_tensor) (max_len : Z) (E H Vs Vt B L : nat) :
  constructed E H Vs Vt self ->
  linear_sized H (2 * H) false projection ->
  (0 <= Seq2Seq.START_INDEX self < Z.of_nat Vt)%Z ->
  shape2 inputs B L -> (0 < B)%nat -> (0 < L)%nat -> in_range Vs inputs ->
  (forall tg, targets = Some tg -> length tg = B) ->
  Seq2Seq.forward (set_attn_layer projection self) inputs targets max_len
  = Seq2Seq.forward self inputs targets max_len.
Proof.
  intros [Hes Hds] _ Hstart Hs HB HL Hin Htg.
  pose proof (encoder_sized_wf _ _ _ _ Hes) as Hwe.
  pose proof (decoder_sized_wf _ _ _ _ Hds) as Hwd.
  destruct (encoder_forward_ready _ _ _ _ _ _ Hwe Hs HB HL Hin)
    as (eo & eh & Henc & Seo & Hhs & _).
  unfold Seq2Seq.forward.
  change (Seq2Seq.encoder (set_attn_layer projection self)) with (Seq2Seq.encoder self).
  rewrite Henc. cbn [bind].
  destruct targets as [tg|].
  - unfold Seq2Seq.decode_forced.
    rewrite (decoder_forward_projection_free self projection tg eo eh B L (2 * H));
      try assumption; [reflexivity | now apply Htg | apply Hwd].
  - unfold Seq2Seq.decode_greedy, Seq2Seq.decode_greedy_loop.
    destruct Seo as [Leo Feo].
    change (Seq2Seq.greedy_init (set_attn_layer projection self) eo eh)
      with (Seq2Seq.greedy_init self eo eh).
    rewrite Leo.
    rewrite (greedy_loop_projection_free self projection eo Vt B L (2 * H));
      try assumption; [reflexivity | split; assumption |].
    now apply greedy_init_inv.
Qed.

Lemma forward_ignores_attention_projection_witness :
  Seq2Seq.forward
    (set_attn_layer {| Linear.weight := [[5]; [-3]]; Linear.bias := None |}
                    (tiny_model false))
    [[0; 1]; [2; 0]]%Z None 5
  = Seq2Seq.forward (tiny_model false) [[0; 1]; [2; 0]]%Z None 5.
Proof.
  apply (forward_ignores_attention_projection (tiny_model false) _ _ None 5 1 1 3 3 2 2).
  - exact (tiny_constructed false).
  - unfold linear_sized, sized. cbn. repeat split; repeat constructor.
  - simpl. lia.
  - split; [reflexivity|]. repeat constructor.
  - apply Nat.lt_0_succ.
  - apply Nat.lt_0_succ.
  - repeat constructor; simpl; lia.
  - intros tg Htg. discriminate Htg.
Defined.
